(** * Digital-twin event-log simulator: model and verified properties

    Shallow embedding of [src/operations.py] (operation catalog, rework
    router) and [src/event_log_generator.py] (discrete-event simulator and
    lead-time aggregator).

    Conventions of the embedding:
    - Python [float] is IEEE-754 binary64, modelled by [spec_float] with
      precision 53 and maximal exponent 1024; a Python [int] that meets a
      float ([max(5, x)], [max(0, x)]) is identified with the float of the
      same value.
    - a naive [datetime] is the number of microseconds since
      0001-01-01T00:00:00, a [timedelta] a number of microseconds, both [Z],
      with the range checks of the [datetime] module.
    - the two ambient random generators ([random] and [numpy.random]) are
      global state: a [World]. Their algorithms are not part of the
      repository and are taken as an interface, [Generators].
    - Python exceptions are the [Raise] results of an error monad; the
      [while] loop of a case is run with fuel.
    - the table ([pandas.DataFrame]) is the list of its rows. Sorting by
      several columns is stable; sorting a table without columns raises
      [KeyError]. The limits of the table's own timestamp representation
      are not modelled: where the model returns a log, the program
      returns the same log or raises. *)

From Stdlib Require Import ZArith List String Ascii Bool Lia.
From Stdlib Require Import Sorting.Sorted.
From Stdlib Require Import Floats.SpecFloat.
From stdpp Require Import gmap strings list fin_maps pretty.

Local Open Scope Z_scope.

(** ** Exceptions and the error monad *)

Inductive exn := ValueError | OverflowError | KeyError.

Inductive result (A : Type) : Type :=
| Ok (a : A)
| Raise (e : exn)
| OutOfFuel.
Arguments Ok {A} a.
Arguments Raise {A} e.
Arguments OutOfFuel {A}.

Global Instance result_ret : MRet result := fun _ a => Ok a.
Global Instance result_bind : MBind result := fun _ _ f m =>
  match m with
  | Ok a => f a
  | Raise e => Raise e
  | OutOfFuel => OutOfFuel
  end.

Definition is_ok {A} (r : result A) : bool :=
  match r with Ok _ => true | _ => false end.

(** ** Binary64 floating point *)

Module Binary64.

Definition prec : Z := 53.
Definition emax : Z := 1024.

Abbreviation float := spec_float.

Definition fadd : float -> float -> float := SFadd prec emax.
Definition fsub : float -> float -> float := SFsub prec emax.
Definition fmul : float -> float -> float := SFmul prec emax.
Definition fdiv : float -> float -> float := SFdiv prec emax.
Definition fltb : float -> float -> bool := SFltb.
Definition fleb : float -> float -> bool := SFleb.

(** The float nearest to an integer. *)
Definition of_Z (z : Z) : float := binary_normalize prec emax z 0 false.

(** The float nearest to [a / b] with sign [s], for [0 < a] and [0 < b]. *)
Definition div_pos (s : bool) (a b : Z) : float :=
  let '(q, e, l) := SFdiv_core_binary prec emax a 0 b 0 in
  binary_round_aux prec emax s q e l.

(** Python's [a / b] on integers, [0 < b]: the correctly rounded quotient.
    A decimal literal such as [0.02] is [div_Z 2 100]. *)
Definition div_Z (a b : Z) : float :=
  match a with
  | Z0 => S754_zero false
  | Zpos _ => div_pos false a b
  | Zneg p => div_pos true (Zpos p) b
  end.

Definition signbit (x : float) : bool :=
  match x with
  | S754_zero s | S754_infinity s | S754_finite s _ _ => s
  | S754_nan => false
  end.

(** [m * 2^e * k] rounded to the nearest integer, ties to even. *)
Definition rne_scaled (m e k : Z) : Z :=
  match e with
  | Zneg p =>
      let d := Z.pow_pos 2 p in
      let n := m * k in
      let q := n / d in
      match Z.compare (2 * (n mod d)) d with
      | Lt => q
      | Gt => q + 1
      | Eq => if Z.even q then q else q + 1
      end
  | _ => m * k * 2 ^ e
  end.

(** C's [modf]: integral part (here as an integer) and fractional part,
    both with the sign of the argument. *)
Definition float_trunc (x : float) : Z :=
  match x with
  | S754_finite s m (Zneg p) => cond_Zopp s (Zpos m / Z.pow_pos 2 p)
  | S754_finite s m e => cond_Zopp s (Zpos m * 2 ^ e)
  | _ => 0
  end.

Definition float_frac (x : float) : float :=
  match x with
  | S754_finite s m (Zneg p) =>
      match Zpos m mod Z.pow_pos 2 p with
      | Zpos r => binary_round prec emax s r (Zneg p)
      | _ => S754_zero s
      end
  | S754_finite s _ _ => S754_zero s
  | _ => x
  end.

(** Nearest integer of a finite float, ties to even. *)
Definition float_rne (x : float) : Z :=
  match x with
  | S754_finite s m e => cond_Zopp s (rne_scaled (Zpos m) e 1)
  | _ => 0
  end.

(** Python's [round(x, 2)] on a float: the exact value is rounded to two
    decimals (ties to even) and the decimal result is converted back
    with correct rounding; the sign survives a zero result. *)
Definition py_round2 (x : float) : float :=
  match x with
  | S754_finite s m e =>
      match rne_scaled (Zpos m) e 100 with
      | Zpos n => div_pos s (Zpos n) 100
      | _ => S754_zero s
      end
  | _ => x
  end.

(** Python's [max(k, x)] with the integer [k] first: [x] only when
    [x > k]; a NaN never wins. *)
Definition py_max_int (k : Z) (x : float) : float :=
  if fltb (of_Z k) x then x else of_Z k.

(** A float that is not below zero: no negative finite value and not
    minus infinity (NaN is excluded as well). *)
Definition nonneg (x : float) : Prop := fleb (S754_zero false) x = true.

End Binary64.
Export Binary64.

(** ** Instants and durations ([datetime], [timedelta]) *)

Module Clock.

(** 9999-12-31T23:59:59.999999, in microseconds since 0001-01-01. *)
Definition dt_max : Z := 3652059 * 86400000000 - 1.

(** Bounds of [timedelta]: |days| <= 999999999. *)
Definition td_min : Z := - 999999999 * 86400000000.
Definition td_max : Z := 1000000000 * 86400000000 - 1.

Definition us_per_minute : Z := 60000000.

(** [timedelta(minutes=x)] for a float [x]: the integral minutes are
    converted exactly, the fractional part is multiplied by 6e7 in
    floating point, and the sum is rounded to the nearest microsecond,
    ties to even. *)
Definition td_of_minutes (x : float) : result Z :=
  match x with
  | S754_nan => Raise ValueError
  | S754_infinity _ => Raise OverflowError
  | _ =>
      let us := float_trunc x * us_per_minute
                + float_rne (fmul (of_Z us_per_minute) (float_frac x)) in
      if (td_min <=? us) && (us <=? td_max) then Ok us
      else Raise OverflowError
  end.

(** [t + timedelta]: the result must be a representable [datetime]. *)
Definition dt_add (t d : Z) : result Z :=
  let r := t + d in
  if (0 <=? r) && (r <=? dt_max) then Ok r else Raise OverflowError.

(** [(a - b).total_seconds() / 60]. *)
Definition minutes_between (a b : Z) : float :=
  fdiv (div_Z (a - b) 1000000) (of_Z 60).

End Clock.
Export Clock.

(** ** The random generators

    [random.seed], [random.random], [numpy.random.seed],
    [numpy.random.exponential] and [numpy.random.normal] act on two
    ambient generator states. *)

Class Generators := {
  PyRng : Type;
  NpRng : Type;
  py_seed : Z -> PyRng;
  py_random : PyRng -> float * PyRng;
  np_seed : Z -> NpRng;
  np_exponential : float -> NpRng -> float * NpRng;
  np_normal : float -> float -> NpRng -> float * NpRng
}.

Record World `{Generators} := {
  py_state : PyRng;
  np_state : NpRng
}.

(** ** Operation catalog and rework router ([operations.py]) *)

Record Operation := {
  id : string;
  name : string;
  name_fr : string;
  avg_duration_minutes : float;
  std_deviation_minutes : float;
  setup_time_minutes : float;
  defect_rate : float;
  workstation_count : nat
}.

Record Config := {
  OPERATIONS : list Operation;
  OPERATION_SEQUENCE : list string;
  REWORK_ROUTES : gmap string string
}.

Definition catalog_operations : list Operation := [
  {| id := "OP1"; name := "Raw Material Preparation";
     name_fr := "Préparation Matière Première";
     avg_duration_minutes := of_Z 15; std_deviation_minutes := of_Z 3;
     setup_time_minutes := of_Z 5; defect_rate := div_Z 2 100;
     workstation_count := 2 |};
  {| id := "OP2"; name := "CNC Machining"; name_fr := "Usinage CNC";
     avg_duration_minutes := of_Z 45; std_deviation_minutes := of_Z 8;
     setup_time_minutes := of_Z 10; defect_rate := div_Z 5 100;
     workstation_count := 3 |};
  {| id := "OP3"; name := "Heat Treatment";
     name_fr := "Traitement Thermique";
     avg_duration_minutes := of_Z 90; std_deviation_minutes := of_Z 10;
     setup_time_minutes := of_Z 15; defect_rate := div_Z 3 100;
     workstation_count := 1 |};
  {| id := "OP4"; name := "Surface Finishing";
     name_fr := "Finition de Surface";
     avg_duration_minutes := of_Z 30; std_deviation_minutes := of_Z 5;
     setup_time_minutes := of_Z 8; defect_rate := div_Z 4 100;
     workstation_count := 2 |};
  {| id := "OP5"; name := "Quality Control";
     name_fr := "Contrôle Qualité";
     avg_duration_minutes := of_Z 20; std_deviation_minutes := of_Z 4;
     setup_time_minutes := of_Z 3; defect_rate := of_Z 0;
     workstation_count := 2 |};
  {| id := "OP6"; name := "Assembly & Packaging";
     name_fr := "Assemblage et Conditionnement";
     avg_duration_minutes := of_Z 25; std_deviation_minutes := of_Z 5;
     setup_time_minutes := of_Z 5; defect_rate := div_Z 2 100;
     workstation_count := 2 |} ].

(** The module-level configuration of the repository. *)
Definition catalog : Config := {|
  OPERATIONS := catalog_operations;
  OPERATION_SEQUENCE := ["OP1"; "OP2"; "OP3"; "OP4"; "OP5"; "OP6"];
  REWORK_ROUTES := <["OP2" := "OP2"]> (<["OP3" := "OP3"]> (<["OP4" := "OP4"]> ∅))
|}.

Fixpoint find_operation (ops : list Operation) (op_id : string)
  : result Operation :=
  match ops with
  | [] => Raise ValueError
  | op :: rest =>
      if String.eqb (id op) op_id then Ok op else find_operation rest op_id
  end.

Definition get_operation_by_id (cfg : Config) (op_id : string)
  : result Operation :=
  find_operation (OPERATIONS cfg) op_id.

(** [list.index]: position of the first occurrence, [ValueError] if none. *)
Fixpoint list_index (l : list string) (x : string) : result Z :=
  match l with
  | [] => Raise ValueError
  | y :: rest =>
      if String.eqb y x then Ok 0
      else i ← list_index rest x; Ok (i + 1)
  end.

Definition get_operation_index (cfg : Config) (op_id : string) : result Z :=
  list_index (OPERATION_SEQUENCE cfg) op_id.

Definition get_next_operation (cfg : Config) (current_op_id : string)
  : result (option string) :=
  idx ← get_operation_index cfg current_op_id;
  if idx <? Z.of_nat (length (OPERATION_SEQUENCE cfg)) - 1
  then Ok (OPERATION_SEQUENCE cfg !! Z.to_nat (idx + 1))
  else Ok None.

(** ** Events *)

(** The dictionary appended to [events]. Its key ["setup_time_minutes"]
    is the field [setup_time_minutes_rec]: the name itself is the field
    of [Operation]. *)
Record Event := {
  case_id : string;
  activity : string;
  activity_fr : string;
  operation_id : string;
  timestamp_start : Z;
  timestamp_end : Z;
  resource : string;
  is_rework : bool;
  rework_count : Z;
  wait_time_minutes : float;
  cycle_time_minutes : float;
  setup_time_minutes_rec : float;
  total_time_minutes : float;
  defect_detected : bool
}.

(** A row of the returned table: an event and the derived column. *)
Record Row := {
  row_event :> Event;
  duration_minutes : float
}.

Fixpoint zeros (k : nat) : string :=
  match k with O => "" | S k' => String "0" (zeros k') end.

(** [f"CASE-{case_num:04d}"] for a positive case number. *)
Definition case_id_of (case_num : positive) : string :=
  let digits := pretty case_num in
  "CASE-" +:+ zeros (4 - String.length digits) +:+ digits.

(** [f"{op_id}_WS{idx + 1}"]. *)
Definition resource_label (op_id : string) (idx : nat) : string :=
  op_id +:+ "_WS" +:+ pretty (S idx).

(** ** The simulator ([generate_event_log]) *)

(** [d[k] = v] on an insertion-ordered dictionary: an existing key keeps
    its position, a new key goes last. *)
Fixpoint dict_set {V} (d : list (string * V)) (k : string) (v : V)
  : list (string * V) :=
  match d with
  | [] => [(k, v)]
  | (k', v') :: rest =>
      if String.eqb k' k then (k', v) :: rest
      else (k', v') :: dict_set rest k v
  end.

(** [min(range(len(l)), key=lambda i: l[i])] together with [l[i]]: the
    first index holding the least instant. *)
Fixpoint argmin_from (best_i : nat) (best : Z) (i : nat) (l : list Z)
  : nat * Z :=
  match l with
  | [] => (best_i, best)
  | x :: rest =>
      if x <? best then argmin_from i x (S i) rest
      else argmin_from best_i best (S i) rest
  end.

Definition earliest_workstation (l : list Z) : result (nat * Z) :=
  match l with
  | [] => Raise ValueError
  | x :: rest => Ok (argmin_from 0%nat x 1%nat rest)
  end.

(** [seq[i]] with Python's negative indices. *)
Definition seq_index (l : list string) (i : Z) : result string :=
  let n := Z.of_nat (length l) in
  let j := if i <? 0 then i + n else i in
  if (0 <=? j) && (j <? n) then
    match l !! Z.to_nat j with
    | Some x => Ok x
    | None => Raise KeyError
    end
  else Raise KeyError.

Definition dict_get {V} (d : gmap string V) (k : string) : result V :=
  match d !! k with
  | Some v => Ok v
  | None => Raise KeyError
  end.

Section Simulator.

Context `{G : Generators}.

(** State shared by all cases: the generators, the workstation pools
    and the events emitted so far. *)
Record Sim := {
  world : World;
  workstation_availability : gmap string (list Z);
  events : list Event
}.

(** State of the case being simulated. *)
Record Case := {
  op_idx : Z;
  current_time : Z;
  operation_counts : gmap string Z;
  defects_by_op : list (string * bool)
}.

(** [np.random.normal(loc, scale)]: a negative scale is rejected. *)
Definition draw_normal (loc scale : float) (w : World)
  : result (float * World) :=
  if signbit scale then Raise ValueError
  else
    let '(x, np') := np_normal loc scale (np_state w) in
    Ok (x, {| py_state := py_state w; np_state := np' |}).

Definition draw_exponential (scale : float) (w : World) : float * World :=
  let '(x, np') := np_exponential scale (np_state w) in
  (x, {| py_state := py_state w; np_state := np' |}).

Definition draw_random (w : World) : float * World :=
  let '(u, py') := py_random (py_state w) in
  (u, {| py_state := py'; np_state := np_state w |}).

(** The detection probability at the inspection stage. *)
Definition detection_rate : float := div_Z 8 10.

(** The scan of the unresolved latent defects at the inspection stage:
    the first flagged entry whose draw is below the detection rate, if
    any. An unflagged entry costs no draw. *)
Fixpoint scan_defects (items : list (string * bool)) (w : World)
  : option string * World :=
  match items with
  | [] => (None, w)
  | (prev_op_id, had_defect) :: rest =>
      if had_defect then
        let '(u, w') := draw_random w in
        if fltb u detection_rate then (Some prev_op_id, w')
        else scan_defects rest w'
      else scan_defects rest w
  end.

(** Lines 100-115: defect handling. Returns the detection flag, the
    sequence index before its increment, the latent defects and the
    generators. *)
Definition handle_defects (cfg : Config) (op : Operation) (op_id : string)
    (idx : Z) (defects : list (string * bool)) (w : World)
  : result (bool * Z * list (string * bool) * World) :=
  if String.eqb op_id "OP5" then
    match scan_defects defects w with
    | (Some prev_op_id, w') =>
        let rework_op := default prev_op_id (REWORK_ROUTES cfg !! prev_op_id) in
        i ← get_operation_index cfg rework_op;
        Ok (true, i - 1, dict_set defects prev_op_id false, w')
    | (None, w') => Ok (false, idx, defects, w')
    end
  else
    let '(u, w') := draw_random w in
    if fltb u (defect_rate op)
    then Ok (false, idx, dict_set defects op_id true, w')
    else Ok (false, idx, defects, w').

(** Lines 118-133: the record appended to [events]. *)
Definition make_event (cid : string) (op : Operation) (op_id : string)
    (slot : nat) (operation_start operation_end : Z) (count : Z)
    (wait_time cycle_time total_time : float) (detected : bool) : Event :=
  {| case_id := cid;
     activity := name op;
     activity_fr := name_fr op;
     operation_id := op_id;
     timestamp_start := operation_start;
     timestamp_end := operation_end;
     resource := resource_label op_id slot;
     is_rework := 1 <? count;
     rework_count := count;
     wait_time_minutes := py_round2 wait_time;
     cycle_time_minutes := py_round2 cycle_time;
     setup_time_minutes_rec := py_round2 (setup_time_minutes op);
     total_time_minutes := py_round2 total_time;
     defect_detected := detected |}.

(** Lines 76-137: one iteration of the [while] loop. *)
Definition step (cfg : Config) (cid : string) (st : Sim) (c : Case)
  : result (Sim * Case) :=
  op_id ← seq_index (OPERATION_SEQUENCE cfg) (op_idx c);
  op ← get_operation_by_id cfg op_id;
  count ← dict_get (operation_counts c) op_id;
  let counts := <[op_id := count + 1]> (operation_counts c) in
  ws_availability ← dict_get (workstation_availability st) op_id;
  '(earliest_ws_idx, earliest_available) ← earliest_workstation ws_availability;
  let wait_time :=
    py_max_int 0 (minutes_between earliest_available (current_time c)) in
  let operation_start := Z.max (current_time c) earliest_available in
  '(x, w1) ← draw_normal (avg_duration_minutes op)
                         (std_deviation_minutes op) (world st);
  let cycle_time := py_max_int 5 x in
  let total_time := fadd cycle_time (setup_time_minutes op) in
  d ← td_of_minutes total_time;
  operation_end ← dt_add operation_start d;
  let ws := <[op_id := <[earliest_ws_idx := operation_end]> ws_availability]>
              (workstation_availability st) in
  '(detected, idx, defects, w2) ←
     handle_defects cfg op op_id (op_idx c) (defects_by_op c) w1;
  let ev := make_event cid op op_id earliest_ws_idx operation_start
              operation_end (count + 1) wait_time cycle_time total_time
              detected in
  Ok ({| world := w2; workstation_availability := ws;
         events := events st ++ [ev] |},
      {| op_idx := idx + 1; current_time := operation_end;
         operation_counts := counts; defects_by_op := defects |}).

(** Lines 75-137: the [while] loop of one case. *)
Fixpoint case_loop (cfg : Config) (cid : string) (fuel : nat)
    (st : Sim) (c : Case) : result (Sim * Case) :=
  if op_idx c <? Z.of_nat (length (OPERATION_SEQUENCE cfg)) then
    match fuel with
    | O => OutOfFuel
    | S fuel' =>
        '(st', c') ← step cfg cid st c;
        case_loop cfg cid fuel' st' c'
    end
  else Ok (st, c).

Definition initial_counts (cfg : Config) : gmap string Z :=
  foldl (fun m op_id => <[op_id := 0]> m) ∅ (OPERATION_SEQUENCE cfg).

(** Lines 62-137: arrival and traversal of one case. *)
Definition run_case (cfg : Config) (fuel : nat) (case_num : positive)
    (case_arrival_time : Z) (st : Sim) : result (Sim * Z) :=
  let '(inter_arrival_minutes, w) := draw_exponential (of_Z 30) (world st) in
  d ← td_of_minutes inter_arrival_minutes;
  arrival ← dt_add case_arrival_time d;
  let st0 := {| world := w;
                workstation_availability := workstation_availability st;
                events := events st |} in
  let c0 := {| op_idx := 0; current_time := arrival;
               operation_counts := initial_counts cfg;
               defects_by_op := [] |} in
  '(st', _) ← case_loop cfg (case_id_of case_num) fuel st0 c0;
  Ok (st', arrival).

(** Lines 61-137: [for case_num in range(1, num_cases + 1)], here with
    the number of remaining cases and the next case number. *)
Fixpoint cases_loop (cfg : Config) (fuel : nat) (remaining : nat)
    (case_num : positive) (case_arrival_time : Z) (st : Sim)
  : result Sim :=
  match remaining with
  | O => Ok st
  | S remaining' =>
      '(st', arrival) ← run_case cfg fuel case_num case_arrival_time st;
      cases_loop cfg fuel remaining' (Pos.succ case_num) arrival st'
  end.

Definition initial_pools (cfg : Config) (start_date : Z)
  : gmap string (list Z) :=
  foldl (fun m op => <[id op := replicate (workstation_count op) start_date]> m)
        ∅ (OPERATIONS cfg).

(** Lines 48-49: both generators are seeded; [numpy] accepts only
    seeds in [0, 2^32). *)
Definition seed_generators (seed : Z) (w : World) : result World :=
  let w1 := {| py_state := py_seed seed; np_state := np_state w |} in
  if (0 <=? seed) && (seed <? 2 ^ 32)
  then Ok {| py_state := py_state w1; np_state := np_seed seed |}
  else Raise ValueError.

(** Lines 48-137: everything before the table is built; the result
    holds the list [events] in emission order. *)
Definition simulate (cfg : Config) (fuel : nat) (num_cases : Z)
    (start_date : Z) (seed : Z) (w : World) : result Sim :=
  w' ← seed_generators seed w;
  cases_loop cfg fuel (Z.to_nat num_cases) 1%positive start_date
    {| world := w'; workstation_availability := initial_pools cfg start_date;
       events := [] |}.

(** Order of [sort_values(["timestamp_start", "case_id"])]. *)
Definition key_le (a b : Event) : bool :=
  (timestamp_start a <? timestamp_start b)
  || ((timestamp_start a =? timestamp_start b)
      && String.leb (case_id a) (case_id b)).

Fixpoint insert_sorted (x : Event) (l : list Event) : list Event :=
  match l with
  | [] => [x]
  | y :: rest =>
      if key_le x y then x :: y :: rest else y :: insert_sorted x rest
  end.

(** The stable sort of the table: rows with equal keys keep their
    emission order. *)
Definition sort_values (l : list Event) : list Event :=
  foldr insert_sorted [] l.

Definition with_duration (e : Event) : Row :=
  {| row_event := e;
     duration_minutes :=
       minutes_between (timestamp_end e) (timestamp_start e) |}.

(** Lines 139-148: the table is built, sorted and completed. A table
    built from no event has no column, and sorting it by column raises
    [KeyError]. *)
Definition finalize (evs : list Event) : result (list Row) :=
  match evs with
  | [] => Raise KeyError
  | _ => Ok (map with_duration (sort_values evs))
  end.

Definition generate_event_log (cfg : Config) (fuel : nat) (num_cases : Z)
    (start_date : Z) (seed : Z) (w : World) : result (list Row) :=
  st ← simulate cfg fuel num_cases start_date seed w;
  finalize (events st).

End Simulator.

(** ** The lead-time aggregator ([calculate_case_lead_times]) *)

Record LeadTime := {
  lt_case_id : string;
  start_time : Z;
  end_time : Z;
  total_operations : Z;
  total_reworks : Z;
  total_wait_time : float;
  total_cycle_time : float;
  lead_time_minutes : float;
  lead_time_hours : float
}.

(** The rows of one group, in table order. *)
Definition group_rows (c : string) (rows : list Row) : list Row :=
  filter (fun r : Row => case_id r = c) rows.

(** Insertion of a key into a sorted list of distinct keys. *)
Fixpoint insert_key (k : string) (l : list string) : list string :=
  match l with
  | [] => [k]
  | y :: rest =>
      if String.eqb k y then l
      else if String.leb k y then k :: l
      else y :: insert_key k rest
  end.

(** The group keys of [groupby("case_id")]: distinct, in increasing order. *)
Definition group_keys (rows : list Row) : list string :=
  foldr insert_key [] (map (fun r : Row => case_id r) rows).

Definition is_nan (x : float) : bool :=
  match x with S754_nan => true | _ => false end.

(** One row of the table library's group sum: a missing value (NaN) is
    skipped; otherwise the value is added to the running sum with
    Kahan's compensation term, which is reset to zero when it is NaN. *)
Definition kahan_step (acc : float * float) (val : float) : float * float :=
  if is_nan val then acc
  else
    let y := fsub val (snd acc) in
    let t := fadd (fst acc) y in
    let compensation := fsub (fsub t (fst acc)) y in
    (t, if is_nan compensation then of_Z 0 else compensation).

(** The ["sum"] of a float column of one group, as [groupby(...).agg]
    computes it: from 0.0, over the rows of the group in table order,
    compensated. *)
Definition group_sum (l : list float) : float :=
  fst (foldl kahan_step (of_Z 0, of_Z 0) l).

Definition count_true (l : list bool) : Z :=
  foldl (fun n (b : bool) => if b then n + 1 else n) 0 l.

(** The named aggregations of one group ([min], [max], [count] and
    [sum], the float sums being the library's compensated sums in row
    order) and the two derived columns. A group is never empty. *)
Definition aggregate (c : string) (g : list Row) : option LeadTime :=
  match g with
  | [] => None
  | r :: rest =>
      let start := foldl Z.min (timestamp_start r) (map (fun x : Row => timestamp_start x) rest) in
      let stop := foldl Z.max (timestamp_end r) (map (fun x : Row => timestamp_end x) rest) in
      let minutes := minutes_between stop start in
      Some {| lt_case_id := c;
              start_time := start;
              end_time := stop;
              total_operations := Z.of_nat (length g);
              total_reworks := count_true (map (fun x : Row => is_rework x) g);
              total_wait_time :=
                group_sum (map (fun x : Row => wait_time_minutes x) g);
              total_cycle_time :=
                group_sum (map (fun x : Row => cycle_time_minutes x) g);
              lead_time_minutes := minutes;
              lead_time_hours := fdiv minutes (of_Z 60) |}
  end.

Definition calculate_case_lead_times (event_log : list Row) : list LeadTime :=
  omap (fun c => aggregate c (group_rows c event_log)) (group_keys event_log).

(** ** A concrete generator: draws read from a tape

    The generator state is the list of the draws still to come; an
    exhausted tape keeps returning a default value. Seeding rewinds the
    tape. *)

Definition tape_next (dflt : float) (t : list float) : float * list float :=
  match t with
  | [] => (dflt, [])
  | x :: rest => (x, rest)
  end.

Definition tape_generators (py_tape : list float) (py_default : float)
    (np_tape : list float) (np_default : float) : Generators := {|
  PyRng := list float;
  NpRng := list float;
  py_seed := fun _ => py_tape;
  py_random := tape_next py_default;
  np_seed := fun _ => np_tape;
  np_exponential := fun _ => tape_next np_default;
  np_normal := fun _ _ => tape_next np_default
|}.

Definition tape_world (py_tape : list float) (py_default : float)
    (np_tape : list float) (np_default : float) (py0 np0 : list float)
  : @World (tape_generators py_tape py_default np_tape np_default) :=
  @Build_World (tape_generators py_tape py_default np_tape np_default) py0 np0.

(** 2024-01-01T08:00:00, the default [start_date]. *)
Definition default_start_date : Z := 63839692800000000.

(** ** Vocabulary of the properties *)

(** [x] is a zero, a finite value or an infinity of sign [s]. *)
Definition has_sign (s : bool) (x : float) : Prop :=
  match x with
  | S754_zero s' | S754_infinity s' | S754_finite s' _ _ => s' = s
  | S754_nan => False
  end.

(** The events of the rows of a table. *)
Definition log_events (rows : list Row) : list Event :=
  map (fun r : Row => row_event r) rows.

(** The events of one case, in the order of the list. *)
Definition case_events (c : string) (l : list Event) : list Event :=
  filter (fun e => case_id e = c) l.

(** The events assigned to one workstation slot, in the order of the list. *)
Definition slot_events (op_id : string) (slot : nat) (l : list Event)
  : list Event :=
  filter (fun e => operation_id e = op_id
                   /\ resource e = resource_label op_id slot) l.

(** Each event ends no later than the next one starts. *)
Fixpoint chained (l : list Event) : Prop :=
  match l with
  | a :: (b :: _) as rest =>
      timestamp_end a <= timestamp_start b /\ chained rest
  | _ => True
  end.

(** Number of visits to a stage. *)
Definition visits (s : string) (l : list Event) : Z :=
  Z.of_nat (length (filter (fun e => operation_id e = s) l)).

(** Number of redirects targeting a stage: events that detected a defect
    and are followed by a visit to that stage. *)
Fixpoint redirects_to (s : string) (l : list Event) : Z :=
  match l with
  | a :: (b :: _) as rest =>
      (if defect_detected a && String.eqb (operation_id b) s then 1 else 0)
      + redirects_to s rest
  | _ => 0
  end.

(** Number of events that detected a defect. *)
Definition detections (l : list Event) : Z :=
  Z.of_nat (length (filter (fun e => defect_detected e = true) l)).

(** Some identifier of the sequence, or some key or target of the rework
    map, names no operation of the catalog. *)
Definition known (cfg : Config) (op_id : string) : bool :=
  existsb (fun op => String.eqb (id op) op_id) (OPERATIONS cfg).

Definition references_unknown (cfg : Config) : bool :=
  negb (forallb (known cfg) (OPERATION_SEQUENCE cfg))
  || negb (forallb (fun kv : string * string => known cfg kv.1 && known cfg kv.2)
             (map_to_list (REWORK_ROUTES cfg))).

(** [compensated_sum s c l r]: from the running sum [s] and the
    compensation [c], adding the values of [l] one after the other ends
    with the sum [r]. A NaN is passed over; a value [x] that is not NaN
    moves the sum to [t = s + (x - c)] and the compensation to
    [(t - s) - (x - c)], or to zero when that is NaN. *)
Inductive compensated_sum : float -> float -> list float -> float -> Prop :=
| sum_done s c : compensated_sum s c [] s
| sum_skip s c l r :
    compensated_sum s c l r -> compensated_sum s c (S754_nan :: l) r
| sum_add s c x l t c' r :
    x <> S754_nan ->
    t = fadd s (fsub x c) ->
    c' = fsub (fsub t s) (fsub x c) ->
    compensated_sum t
      (match c' with S754_nan => S754_zero false | _ => c' end) l r ->
    compensated_sum s c (x :: l) r.

(** The exact value of a finite float, scaled by [2^(-e0)]. *)
Definition scaled_value (e0 : Z) (x : float) : Z :=
  match x with
  | S754_finite s m e => cond_Zopp s (Zpos m * 2 ^ (e - e0))
  | _ => 0
  end.

Definition exponent_of (x : float) : Z :=
  match x with
  | S754_finite _ _ e => e
  | _ => 0
  end.

(** [t = a + b] as real numbers, for finite floats. *)
Definition exact_sum (t a b : float) : Prop :=
  let e0 := Z.min (exponent_of t) (Z.min (exponent_of a) (exponent_of b)) in
  scaled_value e0 t = scaled_value e0 a + scaled_value e0 b.

Section Vocabulary.

Context `{G : Generators}.


(** The facts established by a successful iteration. *)
Inductive step_facts (cfg : Config) (cid : string) (st : Sim) (c : Case)
    (st' : Sim) (c' : Case) : Prop :=
| StepFacts (op_id : string) (op : Operation) (count : Z) (pool : list Z)
    (slot : nat) (avail : Z) (x : float) (w1 : World) (d : Z)
    (detected : bool)
    (sf_index : seq_index (OPERATION_SEQUENCE cfg) (op_idx c) = Ok op_id)
    (sf_lookup : get_operation_by_id cfg op_id = Ok op)
    (sf_counts : operation_counts c !! op_id = Some count)
    (sf_pools : workstation_availability st !! op_id = Some pool)
    (sf_earliest : earliest_workstation pool = Ok (slot, avail))
    (sf_normal : draw_normal (avg_duration_minutes op)
                   (std_deviation_minutes op) (world st) = Ok (x, w1))
    (sf_delta : td_of_minutes (fadd (py_max_int 5 x) (setup_time_minutes op))
                = Ok d)
    (sf_end : dt_add (Z.max (current_time c) avail) d = Ok (current_time c'))
    (sf_defects : handle_defects cfg op op_id (op_idx c) (defects_by_op c) w1
                  = Ok (detected, op_idx c' - 1, defects_by_op c', world st'))
    (sf_events :
       events st' = events st ++
         [make_event cid op op_id slot
            (Z.max (current_time c) avail) (current_time c') (count + 1)
            (py_max_int 0 (minutes_between avail (current_time c)))
            (py_max_int 5 x)
            (fadd (py_max_int 5 x) (setup_time_minutes op))
            detected])
    (sf_pools' :
       workstation_availability st' =
         <[op_id := <[slot := current_time c']> pool]>
           (workstation_availability st))
    (sf_counts' :
       operation_counts c' = <[op_id := count + 1]> (operation_counts c)).

(** [case_trace cfg P cid idx t evs]: the events [evs] are what a case
    emits from sequence index [idx] and cursor [t] until it leaves the
    sequence. Every event sits at the current index, satisfies [P] and
    starts no earlier than the cursor; the index then moves on by one,
    unless the event, at the inspection stage, detected a defect and
    redirected. *)
Inductive case_trace (cfg : Config) (P : Event -> Prop) (cid : string)
  : Z -> Z -> list Event -> Prop :=
| trace_end idx t :
    Z.of_nat (length (OPERATION_SEQUENCE cfg)) <= idx ->
    case_trace cfg P cid idx t []
| trace_step idx t e idx' rest :
    0 <= idx < Z.of_nat (length (OPERATION_SEQUENCE cfg)) ->
    OPERATION_SEQUENCE cfg !! Z.to_nat idx = Some (operation_id e) ->
    case_id e = cid ->
    P e ->
    t <= timestamp_start e ->
    (if defect_detected e
     then operation_id e = "OP5"
          /\ 0 <= idx' < Z.of_nat (length (OPERATION_SEQUENCE cfg))
     else idx' = idx + 1) ->
    case_trace cfg P cid idx' (timestamp_end e) rest ->
    case_trace cfg P cid idx t (e :: rest).

(** What is recorded in an event besides its place in the trace: the
    instants are ordered, the wait is not negative, and the three
    durations are roundings of one draw. *)
Definition event_made (cfg : Config) (e : Event) : Prop :=
  exists (op : Operation) (x : float) (w w' : World) (d : Z),
    get_operation_by_id cfg (operation_id e) = Ok op
    /\ draw_normal (avg_duration_minutes op) (std_deviation_minutes op) w
       = Ok (x, w')
    /\ cycle_time_minutes e = py_round2 (py_max_int 5 x)
    /\ setup_time_minutes_rec e = py_round2 (setup_time_minutes op)
    /\ total_time_minutes e
       = py_round2 (fadd (py_max_int 5 x) (setup_time_minutes op))
    /\ td_of_minutes (fadd (py_max_int 5 x) (setup_time_minutes op)) = Ok d
    /\ timestamp_end e = timestamp_start e + d
    /\ nonneg (wait_time_minutes e).

End Vocabulary.

(** Every setup duration of the catalog is a non-negative number. *)
Definition setups_nonneg (cfg : Config) : Prop :=
  Forall (fun op => has_sign false (setup_time_minutes op)) (OPERATIONS cfg).

(** Sortedness of a table by the key of [sort_values]. *)
Definition key_sorted (l : list Event) : Prop :=
  StronglySorted (fun a b => key_le a b = true) l.

(** The invariant behind exclusive occupancy: on every slot the events
    are chained and the last one ends no later than the instant the pool
    holds for that slot. *)
Definition slots_chained (ws : gmap string (list Z)) (evs : list Event) : Prop :=
  forall op_id slot,
    chained (slot_events op_id slot evs)
    /\ forall pool t e,
         ws !! op_id = Some pool -> pool !! slot = Some t ->
         last (slot_events op_id slot evs) = Some e ->
         timestamp_end e <= t.


(** ** Inputs of the examples *)

(** A run of two cases on the catalog: the uniform draws are all 0.9 (no
    defect), every normal and exponential draw returns 20.0. *)
Definition quiet_generators : Generators :=
  tape_generators [] (div_Z 9 10) [] (of_Z 20).

Definition quiet_world : @World quiet_generators :=
  tape_world [] (div_Z 9 10) [] (of_Z 20) [] [].

(** A run of one case in which the second stage injects a defect that
    the inspection detects: uniform draws 0.5, 0.01, 0.5, 0.5, 0.1, then
    0.9 for ever; every normal and exponential draw returns 20.0. *)
Definition rework_generators : Generators :=
  tape_generators
    [div_Z 5 10; div_Z 1 100; div_Z 5 10; div_Z 5 10; div_Z 1 10]
    (div_Z 9 10) [] (of_Z 20).

Definition rework_world : @World rework_generators :=
  tape_world
    [div_Z 5 10; div_Z 1 100; div_Z 5 10; div_Z 5 10; div_Z 1 10]
    (div_Z 9 10) [] (of_Z 20) [] [].

(** A run of one case whose first normal draw is 15.01. *)
Definition rounding_generators : Generators :=
  tape_generators [] (div_Z 9 10) [of_Z 20; div_Z 1501 100] (of_Z 20).

Definition rounding_world : @World rounding_generators :=
  tape_world [] (div_Z 9 10) [of_Z 20; div_Z 1501 100] (of_Z 20) [] [].

Definition quiet_sim : @Sim quiet_generators :=
  @Build_Sim quiet_generators quiet_world
    (initial_pools catalog default_start_date) [].



(** The catalog with the defects of OP2 routed to a stage that does not
    exist. *)
Definition misrouted_config : Config := {|
  OPERATIONS := catalog_operations;
  OPERATION_SEQUENCE := OPERATION_SEQUENCE catalog;
  REWORK_ROUTES := <["OP2" := "OP9"]> (REWORK_ROUTES catalog)
|}.

(** A sequence whose second identifier names no operation. *)
Definition unknown_stage_config : Config := {|
  OPERATIONS := catalog_operations;
  OPERATION_SEQUENCE := ["OP1"; "OP7"];
  REWORK_ROUTES := ∅
|}.

Definition second_stage : Case :=
  {| op_idx := 1; current_time := default_start_date;
     operation_counts := @initial_counts unknown_stage_config;
     defects_by_op := [] |}.

Definition detecting_world : @World rework_generators :=
  tape_world
    [div_Z 5 10; div_Z 1 100; div_Z 5 10; div_Z 5 10; div_Z 1 10]
    (div_Z 9 10) [] (of_Z 20) [div_Z 1 10] [].


(** ** The process analyzer ([process_analyzer.py])

    The sum of a float column and the rounding of its result belong to
    the table library, not to the repository; they are taken as an
    interface. *)

Class TableLibrary := {
  series_sum : list float -> float;
  np_round : Z -> float -> float
}.

(** The value of a key of an insertion-ordered dictionary, if the key
    is present. *)
Fixpoint dict_lookup {V} (d : list (string * V)) (k : string) : option V :=
  match d with
  | [] => None
  | (k', v) :: rest => if String.eqb k' k then Some v else dict_lookup rest k
  end.

(** Lines 93-97: the number of rows of a stage whose interval
    [[start, end)] holds the instant. *)
Definition in_progress (op_id : string) (time_point : Z) (event_log : list Row)
  : Z :=
  Z.of_nat (length (filter (fun r : Row =>
    operation_id r = op_id
    /\ timestamp_start r <= time_point
    /\ time_point < timestamp_end r) event_log)).

(** One snapshot of [calculate_wip_by_step]: the key ["timestamp"], the
    keys [f"{op_id}_in_progress"] in insertion order, and ["total_wip"]. *)
Record WipRow := {
  wip_timestamp : Z;
  wip_in_progress : list (string * Z);
  total_wip : Z
}.

Definition in_progress_key (op_id : string) : string :=
  op_id +:+ "_in_progress".

(** Lines 87-108: the snapshot at one instant. The keys summed for
    ["total_wip"] are the keys just written. *)
Definition wip_at (cfg : Config) (event_log : list Row) (time_point : Z)
  : WipRow :=
  let d := foldl (fun d op_id =>
                    dict_set d (in_progress_key op_id)
                      (in_progress op_id time_point event_log))
             [] (OPERATION_SEQUENCE cfg) in
  {| wip_timestamp := time_point;
     wip_in_progress := d;
     total_wip :=
       foldl Z.add 0
         (map (fun op_id => default 0 (dict_lookup d (in_progress_key op_id)))
            (OPERATION_SEQUENCE cfg)) |}.

(** [timedelta(minutes=n)] for an integer [n]. *)
Definition td_of_int_minutes (n : Z) : result Z :=
  let us := n * us_per_minute in
  if (td_min <=? us) && (us <=? td_max) then Ok us else Raise OverflowError.

(** The instants of a table are timestamps of the table library. Their
    range is narrower than [datetime]'s, and adding a [timedelta] to one
    raises when the interval or the sum has no representation there.
    The addition belongs to the table library, not to the repository;
    it is taken as an interface: when it returns, it returns the sum;
    adding the empty interval returns the instant; and it returns or
    raises. *)
Class InstantLibrary := {
  ts_add : Z -> Z -> result Z;
  ts_add_sum : forall t d r, ts_add t d = Ok r -> r = t + d;
  ts_add_zero : forall t, ts_add t 0 = Ok t;
  ts_add_returns : forall t d, ts_add t d <> OutOfFuel
}.

(** Lines 79-83: the instants of the snapshots, by a [while] loop run
    with fuel. The instants are counted in microseconds, as elsewhere;
    the instant is appended before the interval is built and added. *)
Fixpoint time_points `{I : InstantLibrary} (fuel : nat)
    (time_interval_minutes : Z) (end_time current_time : Z)
  : result (list Z) :=
  if current_time <=? end_time then
    match fuel with
    | O => OutOfFuel
    | S fuel' =>
        d ← td_of_int_minutes time_interval_minutes;
        next ← ts_add current_time d;
        rest ← time_points fuel' time_interval_minutes end_time next;
        Ok (current_time :: rest)
    end
  else Ok [].

(** [event_log["timestamp_start"].min()] and
    [event_log["timestamp_end"].max()] on a table whose first row is [r]. *)
Definition earliest_start (r : Row) (rest : list Row) : Z :=
  foldl Z.min (timestamp_start r)
    (map (fun x : Row => timestamp_start x) rest).

Definition latest_end (r : Row) (rest : list Row) : Z :=
  foldl Z.max (timestamp_end r)
    (map (fun x : Row => timestamp_end x) rest).

(** Lines 68-110: [calculate_wip_by_step]. A table without rows has no
    column to take the minimum of. *)
Definition calculate_wip_by_step `{I : InstantLibrary} (cfg : Config)
    (fuel : nat) (event_log : list Row) (time_interval_minutes : Z)
  : result (list WipRow) :=
  match event_log with
  | [] => Raise KeyError
  | r :: rest =>
      points ← time_points fuel time_interval_minutes
                 (latest_end r rest) (earliest_start r rest);
      Ok (map (wip_at cfg event_log) points)
  end.

(** An instance for the examples: a library that counts an instant as
    the nanoseconds since 1970 in a signed 64-bit integer, and an
    interval as nanoseconds in such an integer. A positive interval can
    pass the last instant, a negative one the first. *)
Definition unix_epoch : Z := 719162 * 86400000000.
Definition ns_max : Z := 2 ^ 63 - 1.

Definition ns_add (t d : Z) : result Z :=
  if negb ((- ns_max <=? d * 1000) && (d * 1000 <=? ns_max))
  then Raise ValueError
  else if (0 <? d) && (ns_max <? (t + d - unix_epoch) * 1000)
  then Raise ValueError
  else if (d <? 0) && ((t + d - unix_epoch) * 1000 <? - ns_max)
  then Raise ValueError
  else Ok (t + d).

Lemma ns_add_sum t d r : ns_add t d = Ok r -> r = t + d.
Proof.
  unfold ns_add.
  repeat match goal with |- context [if ?b then _ else _] => destruct b end;
    intros H; inversion H; reflexivity.
Qed.

Lemma ns_add_zero t : ns_add t 0 = Ok t.
Proof. unfold ns_add. simpl. f_equal. lia. Qed.

Lemma ns_add_returns t d : ns_add t d <> OutOfFuel.
Proof.
  unfold ns_add.
  repeat match goal with |- context [if ?b then _ else _] => destruct b end;
    discriminate.
Qed.

Definition nanosecond_instants : InstantLibrary :=
  {| ts_add := ns_add; ts_add_sum := ns_add_sum;
     ts_add_zero := ns_add_zero; ts_add_returns := ns_add_returns |}.

(** A row of [identify_rework_sources]. *)
Record ReworkRow := {
  rr_operation_id : string;
  rr_operation_name : string;
  expected_defect_rate_pct : float;
  total_passes : Z;
  first_passes : Z;
  rework_passes : Z;
  actual_rework_rate_pct : float;
  rework_time_minutes : float;
  rework_time_hours : float
}.

Section Analyzer.

Context `{L : TableLibrary}.

(** Lines 229-250: the row of one stage. The three counts are integers,
    their quotient is the float nearest to it, and the rate, a float of
    the language, is rounded by the language; the rework time is a sum of
    the table library and is rounded by it. *)
Definition rework_row (op_id : string) (op : Operation) (event_log : list Row)
  : ReworkRow :=
  let op_events := filter (fun r : Row => operation_id r = op_id) event_log in
  let total := Z.of_nat (length op_events) in
  let first := Z.of_nat (length (filter (fun r : Row => rework_count r = 1)
                                   op_events)) in
  let reworked := filter (fun r : Row => is_rework r = true) op_events in
  let rework := Z.of_nat (length reworked) in
  let rework_rate :=
    if 0 <? first then fmul (div_Z rework first) (of_Z 100) else of_Z 0 in
  let rework_time :=
    series_sum (map (fun r : Row => total_time_minutes r) reworked) in
  {| rr_operation_id := op_id;
     rr_operation_name := name op;
     expected_defect_rate_pct := fmul (defect_rate op) (of_Z 100);
     total_passes := total;
     first_passes := first;
     rework_passes := rework;
     actual_rework_rate_pct := py_round2 rework_rate;
     rework_time_minutes := np_round 2 rework_time;
     rework_time_hours := np_round 2 (fdiv rework_time (of_Z 60)) |}.

(** Lines 221-252: [identify_rework_sources], one row per identifier
    of the sequence. The operation is looked up first; a table without
    rows has no column to select on. *)
Fixpoint rework_rows (cfg : Config) (ids : list string)
    (event_log : list Row) : result (list ReworkRow) :=
  match ids with
  | [] => Ok []
  | op_id :: rest =>
      op ← get_operation_by_id cfg op_id;
      match event_log with
      | [] => Raise KeyError
      | _ =>
          rows ← rework_rows cfg rest event_log;
          Ok (rework_row op_id op event_log :: rows)
      end
  end.

Definition identify_rework_sources (cfg : Config) (event_log : list Row)
  : result (list ReworkRow) :=
  rework_rows cfg (OPERATION_SEQUENCE cfg) event_log.

End Analyzer.

(** The running count of a case: every event records how many times the
    case has visited its stage, this visit included, and is flagged as
    rework from the second visit on. [base] holds the earlier events of
    the case. *)
Fixpoint counted (base seg : list Event) : Prop :=
  match seg with
  | [] => True
  | e :: rest =>
      rework_count e = visits (operation_id e) (base ++ [e])
      /\ is_rework e = (1 <? rework_count e)
      /\ counted (base ++ [e]) rest
  end.

(** ** Capacity of the stages *)

(** The event sits on one of the workstations its stage has. *)
Definition within_capacity (cfg : Config) (e : Event) : Prop :=
  exists op slot,
    get_operation_by_id cfg (operation_id e) = Ok op
    /\ (slot < workstation_count op)%nat
    /\ resource e = resource_label (operation_id e) slot.

(** The pool of a stage holds one instant per workstation. *)
Definition pools_sized (cfg : Config) (ws : gmap string (list Z)) : Prop :=
  forall op_id pool op,
    ws !! op_id = Some pool -> get_operation_by_id cfg op_id = Ok op ->
    length pool = workstation_count op.

(** No workstation is free, and no event starts, before the given
    instant. *)
Definition pools_not_before (t0 : Z) (ws : gmap string (list Z)) : Prop :=
  forall op_id pool i t,
    ws !! op_id = Some pool -> pool !! i = Some t -> t0 <= t.

(** The wait recorded by every event is the rounded gap, in minutes,
    between the cursor of its case (the arrival, then the end of the
    previous event of the case) and the start of the event. *)
Fixpoint waits_recorded (cursor : Z) (seg : list Event) : Prop :=
  match seg with
  | [] => True
  | e :: rest =>
      wait_time_minutes e
      = py_round2 (py_max_int 0 (minutes_between (timestamp_start e) cursor))
      /\ waits_recorded (timestamp_end e) rest
  end.

(** The latent defects of a case: every flagged stage was visited and is
    not the inspection stage. *)
Definition flags_visited (base : list Event) (defects : list (string * bool))
  : Prop :=
  forall k, (k, true) ∈ defects ->
    exists e, e ∈ base /\ operation_id e = k /\ k <> "OP5".

(** After a detection the case goes on, at the rework target of a stage
    other than the inspection stage that it has visited before. [base]
    holds the earlier events of the case. *)
Fixpoint targets_visited (cfg : Config) (base seg : list Event) : Prop :=
  match seg with
  | [] => True
  | a :: rest =>
      (defect_detected a = true ->
       match rest with
       | [] => False
       | b :: _ =>
           exists e, e ∈ base /\ operation_id e <> "OP5"
             /\ operation_id b
                = default (operation_id e)
                    (REWORK_ROUTES cfg !! operation_id e)
       end)
      /\ targets_visited cfg (base ++ [a]) rest
  end.

(** ** A table library for the examples: sums in row order, no rounding *)

Definition fsum (l : list float) : float := foldl fadd (of_Z 0) l.

Definition plain_library : TableLibrary := {|
  series_sum := fsum;
  np_round := fun _ x => x
|}.

(** * Properties *)

(** ** Tactics *)

(** Evaluation of the closed comparisons left by a case analysis. *)
Ltac eval_closed :=
  repeat match goal with
    | |- context [String.eqb ?a ?b] =>
        let v := eval vm_compute in (String.eqb a b) in
        change (String.eqb a b) with v
    | |- context [Z.leb ?a ?b] =>
        let v := eval vm_compute in (Z.leb a b) in
        change (Z.leb a b) with v
    | H : context [Z.leb ?a ?b] |- _ =>
        let v := eval vm_compute in (Z.leb a b) in
        change (Z.leb a b) with v in H
    end;
  cbn [Z.b2z andb] in *.


(** ** The error monad *)

Lemma bind_Ok {A B} (m : result A) (f : A -> result B) (b : B) :
  m ≫= f = Ok b -> exists a, m = Ok a /\ f a = Ok b.
Proof. destruct m as [a| |]; simpl; intros H; try discriminate; eauto. Qed.


(** Inversion of a successful bind. *)
Ltac inv_bind H :=
  let a := fresh "a" in
  let Ha := fresh "E" in
  apply bind_Ok in H; destruct H as (a & Ha & H).

(** ** Lookups *)

Lemma list_index_range l x i :
  list_index l x = Ok i -> 0 <= i < Z.of_nat (length l) /\ l !! Z.to_nat i = Some x.
Proof.
  revert i. induction l as [|y l IH]; simpl; intros i H; [discriminate|].
  destruct (String.eqb y x) eqn:E.
  - inversion H; subst. apply String.eqb_eq in E. subst. split; [lia|reflexivity].
  - inv_bind H. inversion H; subst. destruct (IH _ E0) as [Hr Hl].
    split; [lia|]. replace (Z.to_nat (a + 1)) with (S (Z.to_nat a)) by lia.
    exact Hl.
Qed.

Lemma seq_index_nonneg l i x :
  0 <= i -> seq_index l i = Ok x ->
  i < Z.of_nat (length l) /\ l !! Z.to_nat i = Some x.
Proof.
  unfold seq_index. intros Hi.
  destruct (i <? 0) eqn:E; [lia|].
  destruct ((0 <=? i) && (i <? Z.of_nat (length l))) eqn:E2; [|discriminate].
  destruct (l !! Z.to_nat i) eqn:E3; [|discriminate].
  intros H; inversion H; subst. split; [lia|reflexivity].
Qed.

Lemma find_operation_unknown ops op_id :
  (forall op, In op ops -> id op <> op_id) ->
  find_operation ops op_id = Raise ValueError.
Proof.
  induction ops as [|op ops IH]; simpl; intros H; [reflexivity|].
  destruct (String.eqb (id op) op_id) eqn:E.
  - apply String.eqb_eq in E. exfalso. apply (H op); auto.
  - apply IH. intros op' Hin. apply H. auto.
Qed.

Lemma find_operation_Ok ops op_id op :
  find_operation ops op_id = Ok op -> In op ops /\ id op = op_id.
Proof.
  induction ops as [|o ops IH]; simpl; [discriminate|].
  destruct (String.eqb (id o) op_id) eqn:E.
  - intros H; inversion H; subst. apply String.eqb_eq in E. auto.
  - intros H. destruct (IH H). auto.
Qed.

Lemma argmin_from_spec l bi b i :
  forall j t, argmin_from bi b i l = (j, t) ->
  (j = bi /\ t = b) \/ (exists k, j = (i + k)%nat /\ l !! k = Some t).
Proof.
  revert bi b i. induction l as [|x l IH]; simpl; intros bi b i j t H.
  - inversion H; auto.
  - destruct (x <? b).
    + apply IH in H. destruct H as [[-> ->]|(k & -> & Hk)].
      * right. exists 0%nat. split; [lia|reflexivity].
      * right. exists (S k). split; [lia|exact Hk].
    + apply IH in H. destruct H as [[-> ->]|(k & -> & Hk)]; [auto|].
      right. exists (S k). split; [lia|exact Hk].
Qed.

Lemma earliest_workstation_lookup l j t :
  earliest_workstation l = Ok (j, t) -> l !! j = Some t.
Proof.
  destruct l as [|x l]; simpl; [discriminate|].
  intros H. inversion H as [H'].
  apply argmin_from_spec in H'. destruct H' as [[-> ->]|(k & -> & Hk)]; auto.
Qed.

Section SimulatorFacts.

Context `{G : Generators}.

(** *** What one iteration does *)

Lemma scan_defects_Some items w prev w' :
  scan_defects items w = (Some prev, w') -> In (prev, true) items.
Proof.
  revert w. induction items as [|[k b] items IH]; simpl; intros w H.
  - discriminate.
  - destruct b.
    + destruct (draw_random w) as [u w1].
      destruct (fltb u detection_rate).
      * inversion H; subst. auto.
      * right. eapply IH; eauto.
    + right. eapply IH; eauto.
Qed.

Lemma handle_defects_inv cfg op op_id idx defects w detected idx' defects' w' :
  handle_defects cfg op op_id idx defects w = Ok (detected, idx', defects', w') ->
  (detected = false /\ idx' = idx)
  \/ (detected = true /\ op_id = "OP5"
      /\ 0 <= idx' + 1 < Z.of_nat (length (OPERATION_SEQUENCE cfg))
      /\ exists prev,
           In (prev, true) defects
           /\ get_operation_index cfg
                (default prev (REWORK_ROUTES cfg !! prev)) = Ok (idx' + 1)).
Proof.
  unfold handle_defects.
  destruct (String.eqb op_id "OP5") eqn:E.
  - apply String.eqb_eq in E.
    destruct (scan_defects defects w) as [[prev|] w1] eqn:Es.
    + intros H. inv_bind H. inversion H; subst. right.
      apply scan_defects_Some in Es.
      pose proof (list_index_range _ _ _ E0) as [Hr _].
      repeat split; try lia.
      exists prev. split; [exact Es|].
      replace (a - 1 + 1) with a by lia. exact E0.
    + intros H; inversion H; subst. auto.
  - destruct (draw_random w) as [u w1].
    destruct (fltb u (defect_rate op)); intros H; inversion H; subst; auto.
Qed.

Lemma step_inv cfg cid st c st' c' :
  step cfg cid st c = Ok (st', c') -> step_facts cfg cid st c st' c'.
Proof.
  unfold step. intros H.
  inv_bind H. rename a into op_id.
  inv_bind H. rename a into op.
  inv_bind H. rename a into count.
  inv_bind H. rename a into pool.
  inv_bind H. destruct a as [slot avail].
  inv_bind H. destruct a as [x w1].
  inv_bind H. rename a into d.
  inv_bind H. rename a into operation_end.
  inv_bind H. destruct a as [[[detected idx] defects] w2].
  inversion H; subst; clear H. simpl.
  unfold dict_get in E1, E2.
  destruct (operation_counts c !! op_id) eqn:Ec; [|discriminate].
  destruct (workstation_availability st !! op_id) eqn:Ew; [|discriminate].
  inversion E1; inversion E2; subst.
  econstructor; simpl; eauto.
  replace (idx + 1 - 1) with idx by lia. exact E7.
Qed.

End SimulatorFacts.


(** ** Signs of floating-point results *)


Lemma has_sign_signbit s x : has_sign s x -> signbit x = s.
Proof. destruct x; simpl; auto; contradiction. Qed.

Lemma has_sign_nonneg x : has_sign false x -> nonneg x.
Proof.
  unfold nonneg, fleb, SFleb. destruct x as [s|s| |s m e]; simpl;
    intros H; try contradiction; subst; reflexivity.
Qed.

Lemma shr_1_nonneg mrs : 0 <= shr_m mrs -> 0 <= shr_m (shr_1 mrs).
Proof.
  destruct mrs as [m r s]. simpl.
  destruct m as [|p|p]; simpl; [lia| |lia].
  destruct p; simpl; lia.
Qed.

Lemma iter_shr_1_nonneg p mrs :
  0 <= shr_m mrs -> 0 <= shr_m (SpecFloat.iter_pos shr_1 p mrs).
Proof.
  revert mrs. induction p as [p IH|p IH|]; simpl; intros mrs H.
  - apply IH, IH, shr_1_nonneg, H.
  - apply IH, IH, H.
  - apply shr_1_nonneg, H.
Qed.

Lemma shr_record_of_loc_m m l : shr_m (shr_record_of_loc m l) = m.
Proof. destruct l as [|[]]; reflexivity. Qed.

Lemma shr_fexp_nonneg m e l :
  0 <= m -> 0 <= shr_m (fst (shr_fexp prec emax m e l)).
Proof.
  intros H. unfold shr_fexp, shr.
  destruct (fexp prec emax (Zdigits2 m + e) - e) as [|p|p]; simpl;
    rewrite ?shr_record_of_loc_m; auto.
  apply iter_shr_1_nonneg. rewrite shr_record_of_loc_m. exact H.
Qed.

Lemma round_nearest_even_nonneg m l : 0 <= m -> 0 <= round_nearest_even m l.
Proof.
  intros H. destruct l as [|[]]; simpl; try lia.
  destruct (Z.even m); lia.
Qed.

(** Rounding a non-negative mantissa keeps the sign it is given and
    never yields a NaN. *)
Lemma binary_round_aux_sign s m e l :
  0 <= m -> has_sign s (binary_round_aux prec emax s m e l).
Proof.
  intros H. unfold binary_round_aux.
  pose proof (shr_fexp_nonneg m e l H) as H1.
  destruct (shr_fexp prec emax m e l) as [mrs' e'].
  simpl in H1.
  pose proof (shr_fexp_nonneg _ e' loc_Exact
                (round_nearest_even_nonneg _ (loc_of_shr_record mrs') H1)) as H2.
  destruct (shr_fexp prec emax
              (round_nearest_even (shr_m mrs') (loc_of_shr_record mrs')) e'
              loc_Exact) as [mrs'' e''].
  simpl in H2.
  destruct (shr_m mrs'') as [|p|p]; simpl; [reflexivity| |lia].
  destruct (e'' <=? emax - prec); reflexivity.
Qed.

Lemma binary_round_sign s m e : has_sign s (binary_round prec emax s m e).
Proof.
  unfold binary_round.
  destruct (shl_align m e (fexp prec emax (Z.pos (digits2_pos m) + e)))
    as [mz ez].
  apply binary_round_aux_sign. lia.
Qed.

Lemma fadd_sign x y :
  has_sign false x -> has_sign false y -> has_sign false (fadd x y).
Proof.
  unfold fadd, SFadd.
  destruct x as [sx|sx| |sx mx ex]; destruct y as [sy|sy| |sy my ey]; simpl;
    intros Hx Hy; try contradiction; subst; simpl; auto.
  unfold binary_normalize.
  destruct (Z.pos (fst (shl_align mx ex (Z.min ex ey)))
            + Z.pos (fst (shl_align my ey (Z.min ex ey)))) as [|p|p] eqn:E;
    try lia; simpl; auto.
  apply binary_round_sign.
Qed.

Lemma fmul_sign x y :
  has_sign false x -> has_sign false y ->
  signbit (fmul x y) = false.
Proof.
  unfold fmul, SFmul.
  destruct x as [sx|sx| |sx mx ex]; destruct y as [sy|sy| |sy my ey]; simpl;
    intros Hx Hy; try contradiction; subst; simpl; auto.
  apply has_sign_signbit, binary_round_aux_sign. lia.
Qed.

Lemma div_pos_sign s a b : 0 < a -> 0 < b -> has_sign s (div_pos s a b).
Proof.
  intros Ha Hb. unfold div_pos, SFdiv_core_binary.
  set (e' := Z.min _ _).
  set (m' := match 0 - 0 - e' with Z.pos _ => _ | 0 => _ | Z.neg _ => _ end).
  assert (Hm : 0 <= m').
  { subst m'. destruct (0 - 0 - e'); try lia.
    rewrite Z.shiftl_mul_pow2 by lia.
    apply Z.mul_nonneg_nonneg; [lia|]. apply Z.pow_nonneg. lia. }
  destruct (Z.div_eucl m' b) as [q r] eqn:E.
  apply binary_round_aux_sign.
  pose proof (Z.div_pos m' b Hm Hb) as Hq.
  unfold Z.div in Hq. rewrite E in Hq. exact Hq.
Qed.

Lemma fltb_of_pos k x :
  0 <= k -> fltb (of_Z k) x = true -> has_sign false x.
Proof.
  intros Hk. unfold fltb, SFltb, of_Z, binary_normalize.
  destruct k as [|p|p]; [| |lia].
  - destruct x as [s|[]| |[] m e]; simpl; auto; discriminate.
  - pose proof (binary_round_sign false p 0) as Hs.
    destruct (binary_round prec emax false p 0) as [s|s| |s m e];
      simpl in Hs; try contradiction; subst;
      destruct x as [s'|[]| |[] m' e']; simpl; auto; discriminate.
Qed.

Lemma of_Z_sign k : 0 <= k -> has_sign false (of_Z k).
Proof.
  intros Hk. unfold of_Z, binary_normalize.
  destruct k as [|p|p]; [reflexivity|apply binary_round_sign|lia].
Qed.

Lemma py_max_int_sign k x : 0 <= k -> has_sign false (py_max_int k x).
Proof.
  intros Hk. unfold py_max_int.
  destruct (fltb (of_Z k) x) eqn:E.
  - eapply fltb_of_pos; eauto.
  - apply of_Z_sign, Hk.
Qed.

Lemma rne_scaled_nonneg m e k : 0 <= m -> 0 <= k -> 0 <= rne_scaled m e k.
Proof.
  intros Hm Hk. unfold rne_scaled.
  destruct e as [|p|p].
  - simpl. nia.
  - apply Z.mul_nonneg_nonneg; [nia|]. apply Z.pow_nonneg. lia.
  - assert (Hd : 0 < Z.pow_pos 2 p).
    { rewrite Z.pow_pos_fold. apply Z.pow_pos_nonneg; lia. }
    assert (Hq : 0 <= m * k / Z.pow_pos 2 p).
    { apply Z.div_pos; [nia|exact Hd]. }
    destruct (2 * ((m * k) mod Z.pow_pos 2 p) ?= Z.pow_pos 2 p); try lia.
    destruct (Z.even _); lia.
Qed.

Lemma py_round2_sign x : has_sign false x -> has_sign false (py_round2 x).
Proof.
  destruct x as [s|s| |s m e]; simpl; auto.
  intros ->.
  pose proof (rne_scaled_nonneg (Z.pos m) e 100 ltac:(lia) ltac:(lia)) as H.
  destruct (rne_scaled (Z.pos m) e 100) as [|n|n]; simpl;
    [reflexivity|apply div_pos_sign; lia|lia].
Qed.

Lemma float_trunc_nonneg x : signbit x = false -> 0 <= float_trunc x.
Proof.
  destruct x as [s|s| |s m e]; simpl; try lia.
  intros ->. destruct e as [|p|p]; simpl; try lia.
  apply Z.div_pos; [lia|]. rewrite Z.pow_pos_fold. apply Z.pow_pos_nonneg; lia.
Qed.

Lemma float_frac_sign x :
  has_sign false x -> has_sign false (float_frac x).
Proof.
  destruct x as [s|s| |s m e]; simpl; auto.
  intros ->. destruct e as [|p|p]; simpl; auto.
  destruct (Z.pos m mod Z.pow_pos 2 p); simpl; auto.
  apply binary_round_sign.
Qed.

Lemma float_rne_nonneg x : signbit x = false -> 0 <= float_rne x.
Proof.
  destruct x as [s|s| |s m e]; simpl; try lia.
  intros ->. simpl. apply rne_scaled_nonneg; lia.
Qed.

(** A duration that is not negative converts to a non-negative number of
    microseconds. *)
Lemma td_of_minutes_nonneg x d :
  has_sign false x -> td_of_minutes x = Ok d -> 0 <= d.
Proof.
  intros Hx H.
  assert (Hu : 0 <= float_trunc x * us_per_minute
                    + float_rne (fmul (of_Z us_per_minute) (float_frac x))).
  { pose proof (float_trunc_nonneg x (has_sign_signbit _ _ Hx)).
    pose proof (float_rne_nonneg _
                  (fmul_sign _ _ (of_Z_sign us_per_minute ltac:(unfold us_per_minute; lia))
                     (float_frac_sign _ Hx))).
    unfold us_per_minute in *. lia. }
  unfold td_of_minutes in H.
  destruct x as [s|s| |s m e]; try discriminate;
    match type of H with
    | (if ?b then _ else _) = _ => destruct b; [|discriminate]
    end; inversion H; subst; exact Hu.
Qed.


(** ** Case identifiers *)

Lemma pretty_N_char_nonzero x :
  (0 < x < 10)%N -> pretty_N_char x <> "0"%char.
Proof.
  intros Hx. unfold pretty_N_char.
  destruct x as [|p]; [lia|].
  do 4 (destruct p as [p|p|]; try discriminate); lia.
Qed.

Lemma pretty_N_go_head x :
  forall s, (0 < x)%N ->
  exists c s', pretty_N_go x s = String c s' /\ c <> "0"%char.
Proof.
  induction x as [x IH] using (well_founded_induction N.lt_wf_0).
  intros s Hx. rewrite pretty_N_go_step by exact Hx.
  destruct (N.eq_dec (x `div` 10)%N 0%N) as [E|E].
  - rewrite E, pretty_N_go_0. eexists _, _. split; [reflexivity|].
    apply pretty_N_char_nonzero.
    apply N.div_small_iff in E; [|lia].
    rewrite N.mod_small by exact E. split; assumption.
  - apply IH; [|apply N.neq_0_lt_0; exact E]. apply N.div_lt; lia.
Qed.

Lemma pretty_positive_head (p : positive) :
  exists c s', pretty p = String c s' /\ c <> "0"%char.
Proof.
  unfold pretty, pretty_positive, pretty, pretty_N.
  destruct (decide (N.pos p = 0%N)) as [E|_]; [discriminate|].
  apply pretty_N_go_head. lia.
Qed.

Lemma zeros_app_inj ka kb (da db : string) ca cb sa sb :
  da = String ca sa -> ca <> "0"%char ->
  db = String cb sb -> cb <> "0"%char ->
  zeros ka +:+ da = zeros kb +:+ db -> da = db.
Proof.
  intros -> Ha -> Hb. revert kb.
  induction ka as [|ka IH]; intros [|kb]; simpl; intros H.
  - exact H.
  - inversion H; subst. contradiction.
  - inversion H; subst. contradiction.
  - inversion H. apply (IH kb). assumption.
Qed.

Lemma case_id_of_inj a b : case_id_of a = case_id_of b -> a = b.
Proof.
  unfold case_id_of. intros H.
  apply (inj (String.app "CASE-")) in H.
  destruct (pretty_positive_head a) as (ca & sa & Ea & Ha).
  destruct (pretty_positive_head b) as (cb & sb & Eb & Hb).
  apply (zeros_app_inj _ _ _ _ _ _ _ _ Ea Ha Eb Hb) in H.
  apply (inj pretty) in H. exact H.
Qed.

Lemma case_events_all c l :
  Forall (fun e => case_id e = c) l -> case_events c l = l.
Proof.
  unfold case_events. induction 1 as [|e l He _ IH]; [reflexivity|].
  rewrite filter_cons_True by exact He. rewrite IH. reflexivity.
Qed.

Lemma case_events_none c l :
  Forall (fun e => case_id e <> c) l -> case_events c l = [].
Proof.
  unfold case_events. induction 1 as [|e l He _ IH]; [reflexivity|].
  rewrite filter_cons_False by exact He. exact IH.
Qed.

Lemma case_events_concat (segs : list (list Event)) (j : nat) :
  (forall i seg, segs !! i = Some seg ->
     Forall (fun e => case_id e = case_id_of (Pos.of_succ_nat i)) seg) ->
  case_events (case_id_of (Pos.of_succ_nat j)) (concat segs)
  = default [] (segs !! j).
Proof.
  intros Hall.
  assert (Hgen : forall (k : nat) (segs : list (list Event)),
    (forall i seg, segs !! i = Some seg ->
       Forall (fun e => case_id e = case_id_of (Pos.of_succ_nat (k + i))) seg) ->
    forall j,
    case_events (case_id_of (Pos.of_succ_nat (k + j))) (concat segs)
    = default [] (segs !! j)).
  { clear. intros k segs. revert k.
    induction segs as [|seg segs IH]; intros k Hall j; [reflexivity|].
    simpl. unfold case_events. rewrite filter_app.
    fold (case_events (case_id_of (Pos.of_succ_nat (k + j))) seg).
    fold (case_events (case_id_of (Pos.of_succ_nat (k + j))) (concat segs)).
    pose proof (Hall 0%nat seg eq_refl) as Hseg.
    rewrite Nat.add_0_r in Hseg.
    assert (Hrest : forall i s, segs !! i = Some s ->
      Forall (fun e => case_id e = case_id_of (Pos.of_succ_nat (S k + i))) s).
    { intros i s Hs. specialize (Hall (S i) s Hs).
      replace (S k + i)%nat with (k + S i)%nat by lia. exact Hall. }
    destruct j as [|j]; simpl.
    - rewrite Nat.add_0_r. rewrite (case_events_all _ _ Hseg).
      rewrite (case_events_none _ (concat segs)); [apply app_nil_r|].
      apply Forall_concat. apply Forall_lookup. intros i s Hi.
      eapply Forall_impl; [exact (Hrest _ _ Hi)|].
      cbv beta. intros e -> Heq. apply case_id_of_inj in Heq.
      apply SuccNat2Pos.inj in Heq. lia.
    - rewrite (case_events_none _ seg).
      + simpl. replace (k + S j)%nat with (S k + j)%nat by lia.
        apply IH. exact Hrest.
      + eapply Forall_impl; [exact Hseg|].
        cbv beta. intros e -> Heq. apply case_id_of_inj in Heq.
        apply SuccNat2Pos.inj in Heq. lia. }
  apply (Hgen 0%nat segs Hall j).
Qed.

(** ** The trace of one case *)

Section Traces.

Context `{G : Generators}.
Variable cfg : Config.
Variable P : Event -> Prop.

(** [P] holds of every event a successful iteration appends. *)
Hypothesis step_P :
  forall cid st c st' c' e,
    step cfg cid st c = Ok (st', c') ->
    events st' = events st ++ [e] -> P e.

Local Abbreviation seq_len := (Z.of_nat (length (OPERATION_SEQUENCE cfg))).

Lemma step_trace cid st c st' c' :
  0 <= op_idx c ->
  step cfg cid st c = Ok (st', c') ->
  exists e,
    events st' = events st ++ [e]
    /\ op_idx c < seq_len
    /\ OPERATION_SEQUENCE cfg !! Z.to_nat (op_idx c) = Some (operation_id e)
    /\ case_id e = cid
    /\ P e
    /\ current_time c <= timestamp_start e
    /\ timestamp_end e = current_time c'
    /\ (if defect_detected e
        then operation_id e = "OP5" /\ 0 <= op_idx c' < seq_len
        else op_idx c' = op_idx c + 1).
Proof.
  intros Hidx Hstep.
  destruct (step_inv _ _ _ _ _ _ Hstep)
    as [op_id op count pool slot avail x w1 d detected
        Hi Hl Hc Hp He Hn Hd Hend Hdef Hev Hp' Hc'].
  destruct (seq_index_nonneg _ _ _ Hidx Hi) as [Hlt Hlk].
  eexists. split; [exact Hev|].
  split; [exact Hlt|]. split; [exact Hlk|]. split; [reflexivity|].
  split; [eapply step_P; eauto|].
  split; [simpl; lia|]. split; [reflexivity|]. simpl.
  apply handle_defects_inv in Hdef.
  destruct Hdef as [[-> Heq]|(-> & Hop & Hr & _)].
  - lia.
  - split; [exact Hop|]. lia.
Qed.

Lemma case_loop_trace cid fuel :
  forall st c st' c',
    0 <= op_idx c ->
    case_loop cfg cid fuel st c = Ok (st', c') ->
    seq_len <= op_idx c'
    /\ exists seg,
         events st' = events st ++ seg
         /\ case_trace cfg P cid (op_idx c) (current_time c) seg.
Proof.
  induction fuel as [|fuel IH]; intros st c st' c' Hidx H; simpl in H.
  - destruct (op_idx c <? seq_len) eqn:E; [discriminate|].
    inversion H; subst. split; [lia|].
    exists []. rewrite app_nil_r. split; [reflexivity|].
    apply trace_end. lia.
  - destruct (op_idx c <? seq_len) eqn:E.
    + inv_bind H. destruct a as [st1 c1].
      destruct (step_trace _ _ _ _ _ Hidx E0)
        as (e & Hev & Hlt & Hlk & Hcid & HP & Hstart & Hend & Hnext).
      assert (Hidx1 : 0 <= op_idx c1).
      { destruct (defect_detected e); lia. }
      destruct (IH _ _ _ _ Hidx1 H) as (Hfin & seg & Hseg & Htr).
      split; [exact Hfin|].
      exists (e :: seg). split.
      * rewrite Hseg, Hev, <- app_assoc. reflexivity.
      * eapply trace_step; eauto; try lia.
        rewrite Hend. exact Htr.
    + inversion H; subst. split; [lia|].
      exists []. rewrite app_nil_r. split; [reflexivity|].
      apply trace_end. lia.
Qed.

Lemma run_case_trace fuel k arrival st st' arrival' :
  run_case cfg fuel k arrival st = Ok (st', arrival') ->
  exists seg,
    events st' = events st ++ seg
    /\ case_trace cfg P (case_id_of k) 0 arrival' seg.
Proof.
  unfold run_case. intros H.
  destruct (draw_exponential (of_Z 30) (world st)) as [gap w].
  inv_bind H. inv_bind H. inv_bind H. destruct a1 as [st1 c1].
  inversion H; subst; clear H.
  apply case_loop_trace in E1; [|simpl; lia].
  destruct E1 as (_ & seg & Hseg & Htr). simpl in *.
  exists seg. auto.
Qed.

Lemma cases_loop_segments fuel n :
  forall k arrival st st',
    cases_loop cfg fuel n k arrival st = Ok st' ->
    exists segs,
      length segs = n
      /\ events st' = events st ++ concat segs
      /\ forall i seg, segs !! i = Some seg ->
           exists t,
             case_trace cfg P (case_id_of (Pos.of_nat (Pos.to_nat k + i))) 0 t seg.
Proof.
  induction n as [|n IH]; intros k arrival st st' H; simpl in H.
  - inversion H; subst. exists []. simpl. rewrite app_nil_r.
    repeat split; auto. intros i seg Hl. rewrite lookup_nil in Hl. discriminate.
  - inv_bind H. destruct a as [st1 arrival1].
    destruct (run_case_trace _ _ _ _ _ _ E) as (seg & Hseg & Htr).
    destruct (IH _ _ _ _ H) as (segs & Hlen & Hsegs & Hall).
    exists (seg :: segs). simpl. repeat split.
    + lia.
    + rewrite Hsegs, Hseg, <- app_assoc. reflexivity.
    + intros [|i] seg' Hl; simpl in Hl.
      * inversion Hl; subst. exists arrival1.
        rewrite Nat.add_0_r, Pos2Nat.id. exact Htr.
      * destruct (Hall _ _ Hl) as (t & Ht). exists t.
        replace (Pos.to_nat k + S i)%nat with (Pos.to_nat (Pos.succ k) + i)%nat
          by lia.
        exact Ht.
Qed.

(** The events of a simulation are the traces of its cases, one after
    the other. *)
Lemma simulate_segments fuel num_cases start_date seed w st :
  simulate cfg fuel num_cases start_date seed w = Ok st ->
  exists segs,
    length segs = Z.to_nat num_cases
    /\ events st = concat segs
    /\ forall i seg, segs !! i = Some seg ->
         exists t, case_trace cfg P (case_id_of (Pos.of_succ_nat i)) 0 t seg.
Proof.
  unfold simulate. intros H. inv_bind H.
  destruct (cases_loop_segments _ _ _ _ _ _ H) as (segs & Hlen & Hev & Hall).
  exists segs. simpl in Hev. repeat split; auto.
  intros i seg Hl. destruct (Hall _ _ Hl) as (t & Ht). exists t.
  replace (Pos.of_succ_nat i) with (Pos.of_nat (Pos.to_nat 1 + i)); [exact Ht|].
  rewrite Pos.of_nat_succ. reflexivity.
Qed.

End Traces.

(** *** What a trace implies *)

Section TraceFacts.

Variable cfg : Config.
Variable P : Event -> Prop.

Lemma case_trace_case_id cid idx t evs :
  case_trace cfg P cid idx t evs -> Forall (fun e => case_id e = cid) evs.
Proof. induction 1; constructor; auto. Qed.

Lemma case_trace_Forall cid idx t evs :
  case_trace cfg P cid idx t evs -> Forall P evs.
Proof. induction 1; constructor; auto. Qed.

Lemma case_trace_chained cid idx t evs :
  case_trace cfg P cid idx t evs ->
  chained evs /\ (forall e, head evs = Some e -> t <= timestamp_start e).
Proof.
  induction 1 as [|idx t e idx' rest Hr Hl Hc HP Hs Hn Ht [IH1 IH2]].
  - split; [exact I|]. discriminate.
  - split.
    + destruct rest as [|b rest]; [exact I|].
      split; [apply IH2; reflexivity|exact IH1].
    + intros e' He'. inversion He'; subst. exact Hs.
Qed.

End TraceFacts.

(** ** What every emitted event records *)

Section EventFacts.

Context `{G : Generators}.
Variable cfg : Config.

Lemma step_event_made cid st c st' c' e :
  step cfg cid st c = Ok (st', c') ->
  events st' = events st ++ [e] ->
  event_made cfg e.
Proof.
  intros Hstep Hev.
  destruct (step_inv _ _ _ _ _ _ Hstep)
    as [op_id op count pool slot avail x w1 d detected
        Hi Hl Hc Hp He Hn Hd Hend Hdef Hev' Hp' Hc'].
  rewrite Hev' in Hev. apply app_inj_tail in Hev. destruct Hev as [_ <-].
  exists op, x, (world st), w1, d. simpl.
  repeat split; auto.
  - unfold dt_add in Hend.
    destruct ((0 <=? Z.max (current_time c) avail + d)
              && (Z.max (current_time c) avail + d <=? dt_max));
      [|discriminate].
    inversion Hend. reflexivity.
  - apply has_sign_nonneg, py_round2_sign, py_max_int_sign. lia.
Qed.

Lemma event_made_ordered e :
  setups_nonneg cfg -> event_made cfg e ->
  timestamp_start e <= timestamp_end e.
Proof.
  intros Hcfg (op & x & w & w' & d & Hop & _ & _ & _ & _ & Hd & Hend & _).
  apply find_operation_Ok in Hop. destruct Hop as [Hin _].
  unfold setups_nonneg in Hcfg. rewrite Forall_forall in Hcfg.
  apply list_elem_of_In in Hin.
  pose proof (Hcfg _ Hin) as Hs.
  pose proof (td_of_minutes_nonneg _ _
                (fadd_sign _ _ (py_max_int_sign 5 x ltac:(lia)) Hs) Hd).
  lia.
Qed.

End EventFacts.

Lemma catalog_setups_nonneg : setups_nonneg catalog.
Proof.
  unfold setups_nonneg, catalog, catalog_operations. simpl.
  repeat constructor.
Qed.

(** ** The sort of the table *)

Lemma key_le_total a b : key_le a b = true \/ key_le b a = true.
Proof.
  unfold key_le.
  destruct (Z.ltb_spec (timestamp_start a) (timestamp_start b)); [auto|].
  destruct (Z.ltb_spec (timestamp_start b) (timestamp_start a)); [auto|].
  assert (E : timestamp_start a = timestamp_start b) by lia.
  rewrite E, Z.eqb_refl. simpl.
  destruct (String.leb_total (case_id a) (case_id b)) as [->| ->]; auto.
Qed.

Lemma string_leb_trans s1 s2 s3 :
  String.leb s1 s2 = true -> String.leb s2 s3 = true -> String.leb s1 s3 = true.
Proof.
  intros H1 H2. apply Is_true_true.
  apply Is_true_true in H1, H2.
  exact (transitivity (R := String.le) H1 H2).
Qed.

Lemma string_leb_refl s : String.leb s s = true.
Proof. apply Is_true_true. exact (reflexivity (R := String.le) s). Qed.

Lemma key_le_trans a b c :
  key_le a b = true -> key_le b c = true -> key_le a c = true.
Proof.
  unfold key_le. intros H1 H2.
  apply orb_true_iff in H1, H2. apply orb_true_iff.
  destruct H1 as [H1|H1], H2 as [H2|H2];
    rewrite ?andb_true_iff, ?Z.ltb_lt, ?Z.eqb_eq in *.
  - left. lia.
  - left. lia.
  - left. lia.
  - right. destruct H1 as [E1 L1], H2 as [E2 L2]. split; [lia|].
    eapply string_leb_trans; eauto.
Qed.

Lemma key_le_same_case a b :
  case_id a = case_id b -> timestamp_start a <= timestamp_start b ->
  key_le a b = true.
Proof.
  intros Hc Hs. unfold key_le. rewrite Hc, string_leb_refl.
  destruct (Z.ltb_spec (timestamp_start a) (timestamp_start b)); [reflexivity|].
  simpl. rewrite andb_true_r. apply Z.eqb_eq. lia.
Qed.

Lemma insert_sorted_elem (x y : Event) l :
  x ∈ insert_sorted y l <-> x = y \/ x ∈ l.
Proof.
  induction l as [|z l IH]; simpl.
  - rewrite list_elem_of_singleton, elem_of_nil. tauto.
  - destruct (key_le y z); rewrite !elem_of_cons; [tauto|].
    rewrite IH. tauto.
Qed.

Lemma sort_values_elem (x : Event) l : x ∈ sort_values l <-> x ∈ l.
Proof.
  induction l as [|y l IH]; simpl; [tauto|].
  rewrite insert_sorted_elem, elem_of_cons, IH. tauto.
Qed.

Lemma insert_sorted_sorted x l : key_sorted l -> key_sorted (insert_sorted x l).
Proof.
  unfold key_sorted. induction 1 as [|y l Hs IH Hy]; simpl.
  - constructor; constructor.
  - destruct (key_le x y) eqn:E.
    + constructor; [constructor; assumption|].
      constructor; [exact E|].
      eapply Forall_impl; [exact Hy|].
      intros z Hz. eapply key_le_trans; eauto.
    + constructor; [exact IH|].
      rewrite Forall_forall. intros z Hz.
      apply insert_sorted_elem in Hz. destruct Hz as [->|Hz].
      * destruct (key_le_total x y) as [H'|H']; [congruence|exact H'].
      * rewrite Forall_forall in Hy. auto.
Qed.

Lemma sort_values_sorted l : key_sorted (sort_values l).
Proof.
  induction l as [|x l IH]; simpl; [constructor|].
  apply insert_sorted_sorted, IH.
Qed.

(** Filtering commutes with inserting into a sorted list. *)
Lemma filter_insert_sorted (Q : Event -> Prop) `{!forall e, Decision (Q e)} x l :
  key_sorted l ->
  filter Q (insert_sorted x l)
  = if decide (Q x) then insert_sorted x (filter Q l) else filter Q l.
Proof.
  unfold key_sorted. induction 1 as [|y l Hs IH Hy]; simpl.
  - rewrite filter_cons, filter_nil. destruct (decide (Q x)); reflexivity.
  - destruct (key_le x y) eqn:E.
    + rewrite filter_cons. destruct (decide (Q x)) as [Hx|Hx]; [|reflexivity].
      destruct (filter Q (y :: l)) as [|z fl] eqn:Ef; [reflexivity|].
      simpl.
      assert (Hz : key_le x z = true).
      { assert (Hin : z ∈ y :: l).
        { apply (list_elem_of_filter Q). rewrite Ef. left. }
        apply elem_of_cons in Hin.
        destruct Hin as [->|Hin]; [exact E|].
        rewrite Forall_forall in Hy.
        eapply key_le_trans; [exact E|]. auto. }
      rewrite Hz. reflexivity.
    + rewrite (filter_cons _ y (insert_sorted x l)), IH.
      rewrite (filter_cons _ y l).
      destruct (decide (Q y)) as [Hqy|Hqy];
        destruct (decide (Q x)) as [Hqx|Hqx]; try reflexivity.
      simpl. rewrite E. reflexivity.
Qed.

Lemma filter_sort_values (Q : Event -> Prop) `{!forall e, Decision (Q e)} l :
  filter Q (sort_values l) = sort_values (filter Q l).
Proof.
  induction l as [|x l IH]; simpl; [reflexivity|].
  rewrite filter_insert_sorted by apply sort_values_sorted.
  rewrite filter_cons. destruct (decide (Q x)); simpl; rewrite IH; reflexivity.
Qed.

(** Sorting a list whose neighbours are already in order changes nothing. *)
Lemma sort_values_sorted_id l :
  (forall i a b, l !! i = Some a -> l !! S i = Some b -> key_le a b = true) ->
  sort_values l = l.
Proof.
  induction l as [|x l IH]; intros H; simpl; [reflexivity|].
  rewrite IH.
  - destruct l as [|y l]; [reflexivity|]. simpl.
    rewrite (H 0%nat x y eq_refl eq_refl). reflexivity.
  - intros i a b Ha Hb. exact (H (S i) a b Ha Hb).
Qed.

Lemma chained_lookup l i a b :
  chained l -> l !! i = Some a -> l !! S i = Some b ->
  timestamp_end a <= timestamp_start b.
Proof.
  revert i. induction l as [|x l IH]; intros i Hc Ha Hb; [discriminate|].
  destruct l as [|y l]; [discriminate|]. destruct Hc as [Hxy Hc].
  destruct i as [|i]; simpl in *.
  - inversion Ha; inversion Hb; subst. exact Hxy.
  - eapply IH; eauto.
Qed.

(** The events of one case keep their emission order in the sorted
    table, as soon as they are chained and each ends after it starts. *)
Lemma case_events_sort_values c evs :
  chained (case_events c evs) ->
  Forall (fun e => timestamp_start e <= timestamp_end e) evs ->
  case_events c (sort_values evs) = case_events c evs.
Proof.
  intros Hch Hord. unfold case_events.
  rewrite filter_sort_values. apply sort_values_sorted_id.
  intros i a b Ha Hb.
  pose proof (chained_lookup _ _ _ _ Hch Ha Hb) as Hab.
  assert (Hina : a ∈ filter (fun e => case_id e = c) evs)
    by (eapply list_elem_of_lookup_2; eauto).
  assert (Hinb : b ∈ filter (fun e => case_id e = c) evs)
    by (eapply list_elem_of_lookup_2; eauto).
  apply list_elem_of_filter in Hina, Hinb.
  destruct Hina as [Hca Hina], Hinb as [Hcb _].
  rewrite Forall_forall in Hord.
  pose proof (Hord _ Hina).
  apply key_le_same_case; [congruence|lia].
Qed.

(** ** The structure of a generated log *)

Lemma case_events_concat_cases (segs : list (list Event)) (k : nat) (c : string) :
  (forall i seg, segs !! i = Some seg ->
     Forall (fun e => case_id e = case_id_of (Pos.of_succ_nat (k + i))) seg) ->
  case_events c (concat segs) = []
  \/ exists i seg,
       segs !! i = Some seg
       /\ c = case_id_of (Pos.of_succ_nat (k + i))
       /\ case_events c (concat segs) = seg.
Proof.
  revert k. induction segs as [|seg segs IH]; intros k Hall; [left; reflexivity|].
  simpl. unfold case_events. rewrite filter_app.
  fold (case_events c seg). fold (case_events c (concat segs)).
  pose proof (Hall 0%nat seg eq_refl) as Hseg. rewrite Nat.add_0_r in Hseg.
  assert (Hrest : forall i s, segs !! i = Some s ->
    Forall (fun e => case_id e = case_id_of (Pos.of_succ_nat (S k + i))) s).
  { intros i s Hs. specialize (Hall (S i) s Hs).
    replace (S k + i)%nat with (k + S i)%nat by lia. exact Hall. }
  destruct (decide (c = case_id_of (Pos.of_succ_nat k))) as [->|Hne].
  - rewrite (case_events_all _ _ Hseg).
    rewrite (case_events_none _ (concat segs)).
    + rewrite app_nil_r. destruct seg as [|e seg]; [left; reflexivity|].
      right. exists 0%nat, (e :: seg). rewrite Nat.add_0_r. auto.
    + apply Forall_concat. apply Forall_lookup. intros i s Hi.
      eapply Forall_impl; [exact (Hrest _ _ Hi)|].
      cbv beta. intros e -> Heq. apply case_id_of_inj in Heq.
      apply SuccNat2Pos.inj in Heq. lia.
  - rewrite (case_events_none _ seg).
    + simpl. destruct (IH (S k) Hrest) as [E|(i & s & Hi & Hc & E)].
      * left. exact E.
      * right. exists (S i), s. simpl.
        replace (k + S i)%nat with (S k + i)%nat by lia. auto.
    + eapply Forall_impl; [exact Hseg|].
      cbv beta. intros e -> Heq. congruence.
Qed.

Lemma log_events_with_duration l : log_events (map with_duration l) = l.
Proof.
  unfold log_events. rewrite map_map. simpl. apply map_id.
Qed.

Section LogStructure.

Context `{G : Generators}.
Variable cfg : Config.
Hypothesis cfg_setups : setups_nonneg cfg.

Lemma generate_simulate fuel n start seed w log :
  generate_event_log cfg fuel n start seed w = Ok log ->
  exists st,
    simulate cfg fuel n start seed w = Ok st
    /\ log = map with_duration (sort_values (events st)).
Proof.
  unfold generate_event_log. intros H. inv_bind H.
  exists a. split; [exact E|].
  unfold finalize in H. destruct (events a); [discriminate|].
  inversion H. reflexivity.
Qed.

(** Every case of a generated log is one trace of the loop: its events
    appear in the table in the order they were emitted. *)
Lemma generated_log_structure fuel n start seed w log :
  generate_event_log cfg fuel n start seed w = Ok log ->
  exists st,
    simulate cfg fuel n start seed w = Ok st
    /\ log = map with_duration (sort_values (events st))
    /\ Forall (event_made cfg) (events st)
    /\ (forall k : positive, Z.pos k <= n ->
         exists t, case_trace cfg (event_made cfg) (case_id_of k) 0 t
                     (case_events (case_id_of k) (events st)))
    /\ forall c,
         case_events c (log_events log) = case_events c (events st)
         /\ (case_events c (events st) = []
             \/ exists i t,
                  (i < Z.to_nat n)%nat
                  /\ c = case_id_of (Pos.of_succ_nat i)
                  /\ case_trace cfg (event_made cfg) c 0 t
                       (case_events c (events st))).
Proof.
  intros H. destruct (generate_simulate _ _ _ _ _ _ H) as (st & Hsim & Hlog).
  exists st. split; [exact Hsim|]. split; [exact Hlog|].
  destruct (simulate_segments cfg (event_made cfg)
              (step_event_made cfg) _ _ _ _ _ _ Hsim)
    as (segs & Hlen & Hev & Hall).
  assert (Hmade : Forall (event_made cfg) (events st)).
  { rewrite Hev. apply Forall_concat. apply Forall_lookup. intros i seg Hi.
    destruct (Hall _ _ Hi) as (t & Ht).
    eapply case_trace_Forall; eauto. }
  split; [exact Hmade|].
  assert (Hids : forall i seg, segs !! i = Some seg ->
    Forall (fun e => case_id e = case_id_of (Pos.of_succ_nat (0 + i))) seg).
  { intros i seg Hi. destruct (Hall _ _ Hi) as (t & Ht).
    eapply case_trace_case_id; eauto. }
  split.
  { intros k Hk. rewrite Hev.
    assert (Hi : (Pos.to_nat k - 1 < length segs)%nat) by lia.
    apply lookup_lt_is_Some in Hi. destruct Hi as [seg Hi].
    destruct (Hall _ _ Hi) as (t & Ht). exists t.
    assert (Hk' : Pos.of_succ_nat (Pos.to_nat k - 1) = k) by lia.
    rewrite Hk' in Ht.
    pose proof (case_events_concat segs (Pos.to_nat k - 1) Hids) as Hc.
    rewrite Hk', Hi in Hc. rewrite Hc. exact Ht. }
  assert (Hcases : forall c,
    case_events c (events st) = []
    \/ exists i t,
         (i < Z.to_nat n)%nat
         /\ c = case_id_of (Pos.of_succ_nat i)
         /\ case_trace cfg (event_made cfg) c 0 t (case_events c (events st))).
  { intros c. rewrite Hev.
    destruct (case_events_concat_cases segs 0 c Hids)
      as [E|(i & seg & Hi & Hc & E)]; [left; exact E|].
    right. destruct (Hall _ _ Hi) as (t & Ht).
    exists i, t. simpl in Hc. rewrite E, Hc. repeat split; auto.
    rewrite <- Hlen. eapply lookup_lt_Some; eauto. }
  intros c. split; [|apply Hcases].
  rewrite Hlog, log_events_with_duration.
  apply case_events_sort_values.
  - destruct (Hcases c) as [-> |(i & t & _ & _ & Ht)]; [exact I|].
    eapply case_trace_chained; eauto.
  - eapply Forall_impl; [exact Hmade|].
    intros e He. eapply event_made_ordered; eauto.
Qed.

End LogStructure.

(** ** Invariants of the pools and of the emitted events *)

Section Invariant.

Context `{G : Generators}.
Variable cfg : Config.
Variable I : gmap string (list Z) -> list Event -> Prop.

Hypothesis step_I :
  forall cid st c st' c',
    I (workstation_availability st) (events st) ->
    step cfg cid st c = Ok (st', c') ->
    I (workstation_availability st') (events st').

Lemma case_loop_I cid fuel :
  forall st c st' c',
    I (workstation_availability st) (events st) ->
    case_loop cfg cid fuel st c = Ok (st', c') ->
    I (workstation_availability st') (events st').
Proof.
  induction fuel as [|fuel IH]; intros st c st' c' HI H; simpl in H;
    destruct (op_idx c <? Z.of_nat (length (OPERATION_SEQUENCE cfg)));
    try discriminate; try (inversion H; subst; exact HI).
  inv_bind H. destruct a as [st1 c1].
  eapply IH; [|exact H]. eapply step_I; eauto.
Qed.

Lemma cases_loop_I fuel n :
  forall k arrival st st',
    I (workstation_availability st) (events st) ->
    cases_loop cfg fuel n k arrival st = Ok st' ->
    I (workstation_availability st') (events st').
Proof.
  induction n as [|n IH]; intros k arrival st st' HI H; simpl in H.
  - inversion H; subst. exact HI.
  - inv_bind H. destruct a as [st1 arrival1].
    eapply IH; [|exact H].
    unfold run_case in E.
    destruct (draw_exponential (of_Z 30) (world st)) as [gap w].
    inv_bind E. inv_bind E. inv_bind E. destruct a1 as [st2 c2].
    inversion E; subst.
    eapply case_loop_I; [|exact E2]. exact HI.
Qed.

Lemma simulate_I fuel n start seed w st :
  I (initial_pools cfg start) [] ->
  simulate cfg fuel n start seed w = Ok st ->
  I (workstation_availability st) (events st).
Proof.
  unfold simulate. intros HI H. inv_bind H.
  eapply cases_loop_I; [|exact H]. exact HI.
Qed.

End Invariant.

Lemma resource_label_inj op_id a b :
  resource_label op_id a = resource_label op_id b -> a = b.
Proof.
  unfold resource_label. intros H.
  apply (inj (String.app op_id)) in H.
  apply (inj (String.app "_WS")) in H.
  apply (inj pretty) in H. lia.
Qed.

Lemma chained_snoc l x :
  chained l ->
  (forall e, last l = Some e -> timestamp_end e <= timestamp_start x) ->
  chained (l ++ [x]).
Proof.
  induction l as [|a l IH]; intros Hc Hl; [exact I|].
  destruct l as [|b l]; simpl.
  - split; [|exact I]. apply Hl. reflexivity.
  - destruct Hc as [Hab Hc]. split; [exact Hab|].
    apply IH; [exact Hc|]. intros e He. apply Hl. exact He.
Qed.

Lemma step_slots_chained `{G : Generators} cfg cid st c st' c' :
  slots_chained (workstation_availability st) (events st) ->
  step cfg cid st c = Ok (st', c') ->
  slots_chained (workstation_availability st') (events st').
Proof.
  intros HI Hstep.
  destruct (step_inv _ _ _ _ _ _ Hstep)
    as [op0 op count pool0 slot0 avail x w1 d detected
        Hi Hl Hc Hp He Hn Hd Hend Hdef Hev Hp' Hc'].
  pose proof (earliest_workstation_lookup _ _ _ He) as Hslot.
  set (ev := make_event cid op op0 slot0 (Z.max (current_time c) avail)
               (current_time c') (count + 1)
               (py_max_int 0 (minutes_between avail (current_time c)))
               (py_max_int 5 x)
               (fadd (py_max_int 5 x) (setup_time_minutes op)) detected) in *.
  intros op_id slot. rewrite Hev, Hp'.
  unfold slot_events. rewrite filter_app.
  fold (slot_events op_id slot (events st)).
  destruct (HI op_id slot) as [Hch Hlast].
  destruct (decide (op_id = op0 /\ slot = slot0)) as [[-> ->]|Hne].
  - rewrite filter_cons_True, filter_nil by (split; reflexivity).
    split.
    + apply chained_snoc; [exact Hch|].
      intros e Hle. specialize (Hlast _ _ _ Hp Hslot Hle). simpl. lia.
    + intros pool t e Hpool' Ht Hle.
      rewrite lookup_insert_eq in Hpool'. inversion Hpool'; subst pool.
      rewrite list_lookup_insert_eq in Ht
        by (eapply lookup_lt_Some; exact Hslot).
      inversion Ht; subst t.
      rewrite last_snoc in Hle. inversion Hle; subst e. simpl. lia.
  - rewrite filter_cons_False, filter_nil, app_nil_r.
    + split; [exact Hch|].
      intros pool t e Hpool' Ht Hle.
      destruct (decide (op_id = op0)) as [->|Hop].
      * rewrite lookup_insert_eq in Hpool'. inversion Hpool'; subst pool.
        rewrite list_lookup_insert_ne in Ht by (intros ->; apply Hne; auto).
        eapply Hlast; eauto.
      * rewrite lookup_insert_ne in Hpool' by congruence.
        eapply Hlast; eauto.
    + simpl. intros [Hop Hres]. subst op_id.
      apply resource_label_inj in Hres. apply Hne. auto.
Qed.

(** * The claims *)

(** C1 — Determinism. For every seed and case count, the generation does
    not depend on the state the ambient generators are in when it is
    called: two runs, started from any two states of the world, return
    the same result, that is the same rows with the same fields in the
    same order (or the same exception). *)
Theorem generation_is_deterministic `{G : Generators} (cfg : Config)
    (fuel : nat) (num_cases start_date seed : Z) (w1 w2 : World) :
  generate_event_log cfg fuel num_cases start_date seed w1
  = generate_event_log cfg fuel num_cases start_date seed w2.
Proof.
  unfold generate_event_log, simulate, seed_generators. simpl. reflexivity.
Qed.

(** C2 — Monotonic resource occupancy. In any generated log, for every
    stage and every workstation slot, the events assigned to that slot,
    taken in the order the simulator assigned them, never overlap: each
    one starts no earlier than the previous one ends. *)
Theorem slots_never_overlap `{G : Generators} (cfg : Config)
    (fuel : nat) (num_cases start_date seed : Z) (w : World) (log : list Row) :
  generate_event_log cfg fuel num_cases start_date seed w = Ok log ->
  exists st,
    simulate cfg fuel num_cases start_date seed w = Ok st
    /\ log = map with_duration (sort_values (events st))
    /\ forall op_id slot, chained (slot_events op_id slot (events st)).
Proof.
  intros H. destruct (generate_simulate cfg _ _ _ _ _ _ H) as (st & E & Hlog).
  exists st. split; [exact E|]. split; [exact Hlog|].
  intros op_id slot.
  apply (simulate_I cfg slots_chained (step_slots_chained cfg)
           _ _ _ _ _ _) with (op_id := op_id) (slot := slot) in E.
  - apply E.
  - intros o s. split; [exact I|]. intros pool t e _ _ Hl. discriminate.
Qed.

Lemma slots_never_overlap_witness :
  exists log,
    @generate_event_log quiet_generators catalog 6 2 default_start_date 42
      quiet_world = Ok log
    /\ exists st,
         @simulate quiet_generators catalog 6 2 default_start_date 42
           quiet_world = Ok st
         /\ log = map with_duration (sort_values (events st))
         /\ forall op_id slot, chained (slot_events op_id slot (events st)).
Proof.
  eexists. split.
  - vm_compute. reflexivity.
  - apply (@slots_never_overlap quiet_generators catalog 6 2
             default_start_date 42 quiet_world).
    vm_compute. reflexivity.
Defined.

(** C3 — Causality. In any generated log every event starts no later than
    it ends and records a wait that is not negative; and for every case,
    the events of the case, in emission order (which is also their order
    in the log), are chained: each one ends no later than the next one
    starts. *)
Theorem causality `{G : Generators}
    (fuel : nat) (num_cases start_date seed : Z) (w : World) (log : list Row) :
  generate_event_log catalog fuel num_cases start_date seed w = Ok log ->
  (forall r : Row, r ∈ log ->
     timestamp_start r <= timestamp_end r /\ nonneg (wait_time_minutes r))
  /\ exists st,
       simulate catalog fuel num_cases start_date seed w = Ok st
       /\ forall c,
            chained (case_events c (events st))
            /\ case_events c (log_events log) = case_events c (events st).
Proof.
  intros H.
  destruct (generated_log_structure catalog catalog_setups_nonneg
              _ _ _ _ _ _ H) as (st & Hsim & Hlog & Hmade & _ & Hcases).
  split.
  - intros r Hr. rewrite Hlog in Hr.
    apply list_elem_of_fmap in Hr. destruct Hr as (e & -> & He).
    apply (proj1 (sort_values_elem _ _)) in He.
    rewrite Forall_forall in Hmade. specialize (Hmade _ He). simpl.
    split.
    + eapply event_made_ordered; eauto. exact catalog_setups_nonneg.
    + destruct Hmade as (op & x & w0 & w' & d & _ & _ & _ & _ & _ & _ & _ & Hw).
      exact Hw.
  - exists st. split; [exact Hsim|]. intros c.
    destruct (Hcases c) as [Hsame Hc]. split; [|exact Hsame].
    destruct Hc as [-> |(i & t & _ & _ & Ht)]; [exact I|].
    eapply case_trace_chained; eauto.
Qed.

Lemma causality_witness :
  exists log,
    @generate_event_log quiet_generators catalog 6 2 default_start_date 42
      quiet_world = Ok log
    /\ (forall r : Row, r ∈ log ->
          timestamp_start r <= timestamp_end r /\ nonneg (wait_time_minutes r))
    /\ exists st,
         @simulate quiet_generators catalog 6 2 default_start_date 42
           quiet_world = Ok st
         /\ forall c,
              chained (case_events c (events st))
              /\ case_events c (log_events log) = case_events c (events st).
Proof.
  eexists. split.
  - vm_compute. reflexivity.
  - apply (@causality quiet_generators 6 2 default_start_date 42 quiet_world).
    vm_compute. reflexivity.
Defined.

(** ** Traces over the catalog *)

Lemma catalog_stage idx op_id :
  0 <= idx < 6 ->
  OPERATION_SEQUENCE catalog !! Z.to_nat idx = Some op_id ->
  (idx = 0 /\ op_id = "OP1") \/ (idx = 1 /\ op_id = "OP2")
  \/ (idx = 2 /\ op_id = "OP3") \/ (idx = 3 /\ op_id = "OP4")
  \/ (idx = 4 /\ op_id = "OP5") \/ (idx = 5 /\ op_id = "OP6").
Proof.
  intros Hr H.
  assert (Hc : idx = 0 \/ idx = 1 \/ idx = 2 \/ idx = 3 \/ idx = 4 \/ idx = 5)
    by lia.
  destruct Hc as [->|[->|[->|[->|[->| ->]]]]]; simpl in H; inversion H; tauto.
Qed.

Lemma case_trace_detected cfg P cid idx t evs :
  case_trace cfg P cid idx t evs ->
  Forall (fun e => defect_detected e = true -> operation_id e = "OP5") evs.
Proof.
  induction 1 as [|idx t e idx' rest Hr Hl Hc HP Hs Hn Ht IH]; constructor; auto.
  intros Hd. rewrite Hd in Hn. apply Hn.
Qed.

(** A visit to the last stage is not followed by anything. *)
Lemma catalog_trace_final P cid pre :
  forall idx t e post,
    case_trace catalog P cid idx t (pre ++ e :: post) ->
    operation_id e = "OP6" ->
    defect_detected e = false /\ post = [].
Proof.
  induction pre as [|a pre IH]; intros idx t e post H Hop; simpl in H.
  - inversion H as [|? ? ? idx' ? Hr Hl Hc HP Hs Hn Ht]; subst.
    simpl in Hr. rewrite Hop in Hl.
    destruct (catalog_stage _ _ Hr Hl) as
      [[_ E]|[[_ E]|[[_ E]|[[_ E]|[[_ E]|[-> _]]]]]]; try discriminate.
    destruct (defect_detected e).
    + destruct Hn as [Hn _]. rewrite Hop in Hn. discriminate.
    + split; [reflexivity|]. subst idx'.
      inversion Ht as [|? ? ? ? ? Hr' _ _ _ _ _ _]; [reflexivity|].
      simpl in Hr'. lia.
  - inversion H; subst. eapply IH; eauto.
Qed.

Lemma catalog_trace_last P cid idx t evs :
  case_trace catalog P cid idx t evs ->
  0 <= idx < 6 ->
  exists e, last evs = Some e /\ operation_id e = "OP6"
            /\ defect_detected e = false.
Proof.
  induction 1 as [|idx t e idx' rest Hr Hl Hc HP Hs Hn Ht IH]; intros Hidx.
  - simpl in H. lia.
  - simpl in Hr.
    assert (Hcase : 0 <= idx' < 6 \/ (defect_detected e = false /\ idx = 5)).
    { destruct (defect_detected e); simpl in Hn; lia. }
    destruct Hcase as [Hin|[Hd ->]].
    + destruct (IH Hin) as (e' & Hlast & He').
      exists e'. split; [|exact He'].
      destruct rest as [|b rest]; [discriminate|]. exact Hlast.
    + rewrite Hd in Hn. subst idx'.
      inversion Ht as [|? ? ? ? ? Hr' _ _ _ _ _ _]; subst.
      * exists e. split; [reflexivity|]. split; [|exact Hd].
        destruct (catalog_stage _ _ Hr Hl) as
          [[E _]|[[E _]|[[E _]|[[E _]|[[E _]|[_ E]]]]]]; try lia. exact E.
      * simpl in Hr'. lia.
Qed.

Lemma visits_cons s e l :
  visits s (e :: l) = Z.b2z (String.eqb (operation_id e) s) + visits s l.
Proof.
  unfold visits. rewrite filter_cons.
  destruct (decide (operation_id e = s)) as [E|E].
  - apply String.eqb_eq in E. rewrite E. simpl length. simpl Z.b2z. lia.
  - apply String.eqb_neq in E. rewrite E. simpl. lia.
Qed.

Lemma redirects_to_cons s e l :
  redirects_to s (e :: l)
  = match l with
    | b :: _ => Z.b2z (defect_detected e && String.eqb (operation_id b) s)
    | [] => 0
    end + redirects_to s l.
Proof.
  destruct l as [|b l]; [reflexivity|].
  simpl. destruct (defect_detected e && String.eqb (operation_id b) s);
    reflexivity.
Qed.

(** Visits along a trace: a stage up to the inspection stage is visited
    once if the trace starts at or before it, plus once for every
    redirect that targets it or an earlier stage; the last stage is
    visited once. *)
Lemma catalog_trace_visits P cid idx t evs :
  case_trace catalog P cid idx t evs ->
  0 <= idx ->
  let R := fun s => redirects_to s evs in
  visits "OP1" evs = Z.b2z (idx <=? 0) + R "OP1"
  /\ visits "OP2" evs = Z.b2z (idx <=? 1) + (R "OP1" + R "OP2")
  /\ visits "OP3" evs = Z.b2z (idx <=? 2) + (R "OP1" + R "OP2" + R "OP3")
  /\ visits "OP4" evs
     = Z.b2z (idx <=? 3) + (R "OP1" + R "OP2" + R "OP3" + R "OP4")
  /\ visits "OP5" evs
     = Z.b2z (idx <=? 4)
       + (R "OP1" + R "OP2" + R "OP3" + R "OP4" + R "OP5")
  /\ visits "OP6" evs = Z.b2z (idx <=? 5).
Proof.
  induction 1 as [|idx t e idx' rest Hr Hl Hc HP Hs Hn Ht IH]; intros Hidx.
  - change (Z.of_nat (length (OPERATION_SEQUENCE catalog))) with 6 in H.
    cbv zeta. change (visits _ []) with 0. change (redirects_to _ []) with 0.
    repeat match goal with
      | |- context [Z.leb idx ?j] =>
          destruct (Z.leb_spec idx j); [lia|]
      end.
    cbn [Z.b2z]. lia.
  - cbv zeta in *.
    change (Z.of_nat (length (OPERATION_SEQUENCE catalog))) with 6 in *.
    rewrite !visits_cons, !redirects_to_cons.
    destruct (defect_detected e) eqn:Hd.
    + destruct Hn as [Hop Hr'].
      rewrite Hop in Hl.
      destruct (catalog_stage _ _ Hr Hl) as
        [[_ E]|[[_ E]|[[_ E]|[[_ E]|[[-> _]|[_ E]]]]]]; try discriminate.
      specialize (IH ltac:(lia)).
      inversion Ht as [|? ? b ? rest' Hrb Hlb _ _ _ _ _]; subst;
        [change (Z.of_nat (length (OPERATION_SEQUENCE catalog))) with 6 in *;
         lia|].
      change (Z.of_nat (length (OPERATION_SEQUENCE catalog))) with 6 in Hrb.
      rewrite Hop.
      destruct (catalog_stage _ _ Hrb Hlb) as
        [[-> Eb]|[[-> Eb]|[[-> Eb]|[[-> Eb]|[[-> Eb]|[-> Eb]]]]]];
        rewrite Eb; eval_closed; lia.
    + subst idx'. specialize (IH ltac:(lia)).
      assert (Hz : forall s, match rest with
                             | b :: _ => Z.b2z (false && String.eqb (operation_id b) s)
                             | [] => 0
                             end = 0).
      { intros s. destruct rest; reflexivity. }
      rewrite !Hz.
      destruct (catalog_stage _ _ Hr Hl) as
        [[-> E]|[[-> E]|[[-> E]|[[-> E]|[[-> E]|[-> E]]]]]];
        rewrite E; eval_closed; lia.
Qed.

(** C6 — Degenerate case counts. For every zero or negative case count
    the generation raises an exception and returns no log; and nothing
    was simulated before it: no event was emitted, no pool slot was
    assigned and no draw was taken from the freshly seeded generators. *)
Theorem nonpositive_case_count_rejected `{G : Generators} (cfg : Config)
    (fuel : nat) (num_cases start_date seed : Z) (w : World) :
  num_cases <= 0 ->
  (exists e, generate_event_log cfg fuel num_cases start_date seed w = Raise e)
  /\ forall st,
       simulate cfg fuel num_cases start_date seed w = Ok st ->
       events st = []
       /\ workstation_availability st = initial_pools cfg start_date
       /\ world st = {| py_state := py_seed seed; np_state := np_seed seed |}.
Proof.
  intros Hn. unfold generate_event_log, simulate, seed_generators.
  replace (Z.to_nat num_cases) with 0%nat by lia.
  destruct ((0 <=? seed) && (seed <? 2 ^ 32)); simpl.
  - split; [exists KeyError; reflexivity|].
    intros st H. inversion H; subst. simpl. auto.
  - split; [exists ValueError; reflexivity|].
    intros st H. discriminate.
Qed.

Lemma nonpositive_case_count_rejected_witness :
  -3 <= 0
  /\ (exists e,
        @generate_event_log quiet_generators catalog 6 (-3)
          default_start_date 42 quiet_world = Raise e)
  /\ forall st,
       @simulate quiet_generators catalog 6 (-3) default_start_date 42
         quiet_world = Ok st ->
       events st = []
       /\ workstation_availability st = initial_pools catalog default_start_date
       /\ world st = @Build_World quiet_generators
                       (@py_seed quiet_generators 42)
                       (@np_seed quiet_generators 42).
Proof.
  split; [lia|].
  apply (@nonpositive_case_count_rejected quiet_generators catalog 6 (-3)
           default_start_date 42 quiet_world).
  lia.
Defined.

(** C10 — Defects after the inspection stage. In any generated log an
    event of a stage other than the inspection stage never has its
    defect-detected flag set; and a visit to the final stage is the last
    event of its case: its flag is false and nothing follows it, so a
    latent defect recorded there is never inspected and never causes
    rework. *)
Theorem defects_after_inspection_never_detected `{G : Generators}
    (fuel : nat) (num_cases start_date seed : Z) (w : World) (log : list Row) :
  generate_event_log catalog fuel num_cases start_date seed w = Ok log ->
  (forall r : Row, r ∈ log ->
     operation_id r <> "OP5" -> defect_detected r = false)
  /\ forall c pre e post,
       case_events c (log_events log) = pre ++ e :: post ->
       operation_id e = "OP6" ->
       defect_detected e = false /\ post = [].
Proof.
  intros H.
  destruct (generated_log_structure catalog catalog_setups_nonneg
              _ _ _ _ _ _ H) as (st & Hsim & Hlog & Hmade & _ & Hcases).
  split.
  - intros r Hr Hop.
    assert (Hin : row_event r ∈ case_events (case_id r) (log_events log)).
    { unfold case_events. apply list_elem_of_filter. split; [reflexivity|].
      unfold log_events. apply list_elem_of_In, in_map.
      apply list_elem_of_In. exact Hr. }
    destruct (Hcases (case_id r)) as [Hsame Hc]. rewrite Hsame in Hin.
    destruct Hc as [E|(i & t & _ & _ & Ht)].
    + rewrite E in Hin. apply elem_of_nil in Hin. contradiction.
    + apply case_trace_detected in Ht. rewrite Forall_forall in Ht.
      specialize (Ht _ Hin).
      destruct (defect_detected r); [|reflexivity].
      exfalso. apply Hop. apply Ht. reflexivity.
  - intros c pre e post Hsplit Hop.
    destruct (Hcases c) as [Hsame Hc]. rewrite Hsame in Hsplit.
    destruct Hc as [E|(i & t & _ & _ & Ht)].
    + rewrite E in Hsplit. destruct pre; discriminate.
    + rewrite Hsplit in Ht. eapply catalog_trace_final; eauto.
Qed.

Lemma defects_after_inspection_never_detected_witness :
  exists log,
    @generate_event_log quiet_generators catalog 6 2 default_start_date 42
      quiet_world = Ok log
    /\ (forall r : Row, r ∈ log ->
          operation_id r <> "OP5" -> defect_detected r = false)
    /\ forall c pre e post,
         case_events c (log_events log) = pre ++ e :: post ->
         operation_id e = "OP6" ->
         defect_detected e = false /\ post = [].
Proof.
  eexists. split.
  - vm_compute. reflexivity.
  - apply (@defects_after_inspection_never_detected quiet_generators 6 2
             default_start_date 42 quiet_world).
    vm_compute. reflexivity.
Defined.

(** C7, as stated, fails: after the redirect to OP2 the case walks
    through OP3 again, which no redirect targets. *)
Lemma revisits_without_redirect_counterexample :
  exists log,
    @generate_event_log rework_generators catalog 10 1 default_start_date 42
      rework_world = Ok log
    /\ visits "OP3" (case_events "CASE-0001" (log_events log))
       <> 1 + redirects_to "OP3" (case_events "CASE-0001" (log_events log)).
Proof.
  eexists. split.
  - vm_compute. reflexivity.
  - vm_compute. discriminate.
Qed.

(** C7 (amended) — Rework bound. For every case of a generated log, a
    stage up to and including the inspection stage is visited once plus
    once for every redirect that targets it or a stage before it in the
    sequence (a redirected case walks on from its target through the
    following stages); the final stage is visited exactly once, and that
    visit is the last event of the case, after which the sequence index
    is past the last index. *)
Theorem rework_bound `{G : Generators}
    (fuel : nat) (num_cases start_date seed : Z) (w : World) (log : list Row)
    (k : positive) :
  generate_event_log catalog fuel num_cases start_date seed w = Ok log ->
  Z.pos k <= num_cases ->
  let evs := case_events (case_id_of k) (log_events log) in
  let R := fun s => redirects_to s evs in
  visits "OP1" evs = 1 + R "OP1"
  /\ visits "OP2" evs = 1 + (R "OP1" + R "OP2")
  /\ visits "OP3" evs = 1 + (R "OP1" + R "OP2" + R "OP3")
  /\ visits "OP4" evs = 1 + (R "OP1" + R "OP2" + R "OP3" + R "OP4")
  /\ visits "OP5" evs = 1 + (R "OP1" + R "OP2" + R "OP3" + R "OP4" + R "OP5")
  /\ visits "OP6" evs = 1
  /\ exists e, last evs = Some e /\ operation_id e = "OP6".
Proof.
  intros H Hk.
  destruct (generated_log_structure catalog catalog_setups_nonneg
              _ _ _ _ _ _ H) as (st & Hsim & Hlog & Hmade & Hnum & Hcases).
  destruct (Hnum k Hk) as (t & Ht).
  destruct (Hcases (case_id_of k)) as [Hsame _].
  cbv zeta. rewrite Hsame.
  pose proof (catalog_trace_visits _ _ _ _ _ Ht ltac:(lia)) as Hv.
  cbv zeta in Hv. simpl Z.b2z in Hv.
  destruct Hv as (H1 & H2 & H3 & H4 & H5 & H6).
  repeat (split; [assumption|]).
  destruct (catalog_trace_last _ _ _ _ _ Ht ltac:(lia)) as (e & He & Hop & _).
  exists e. auto.
Qed.

Lemma rework_bound_witness :
  exists log,
    @generate_event_log rework_generators catalog 10 1 default_start_date 42
      rework_world = Ok log
    /\ Z.pos 1 <= 1
    /\ let evs := case_events (case_id_of 1) (log_events log) in
       let R := fun s => redirects_to s evs in
       visits "OP1" evs = 1 + R "OP1"
       /\ visits "OP2" evs = 1 + (R "OP1" + R "OP2")
       /\ visits "OP3" evs = 1 + (R "OP1" + R "OP2" + R "OP3")
       /\ visits "OP4" evs = 1 + (R "OP1" + R "OP2" + R "OP3" + R "OP4")
       /\ visits "OP5" evs
          = 1 + (R "OP1" + R "OP2" + R "OP3" + R "OP4" + R "OP5")
       /\ visits "OP6" evs = 1
       /\ exists e, last evs = Some e /\ operation_id e = "OP6".
Proof.
  eexists. split; [vm_compute; reflexivity|]. split; [lia|].
  apply (@rework_bound rework_generators 10 1 default_start_date 42
           rework_world).
  - vm_compute. reflexivity.
  - lia.
Defined.

(** C8, as stated, fails: the first event records a cycle of 15.01, a
    setup of 5.0 and a total of 20.01, but 15.01 + 5.0 is not 20.01,
    neither as a floating-point sum nor as an exact sum. *)
Lemma conservation_counterexample :
  exists log r,
    @generate_event_log rounding_generators catalog 6 1 default_start_date 42
      rounding_world = Ok log
    /\ head log = Some r
    /\ total_time_minutes r
       <> fadd (cycle_time_minutes r) (setup_time_minutes_rec r)
    /\ ~ exact_sum (total_time_minutes r) (cycle_time_minutes r)
           (setup_time_minutes_rec r).
Proof.
  eexists. eexists. split; [vm_compute; reflexivity|].
  split; [reflexivity|]. split.
  - vm_compute. discriminate.
  - vm_compute. discriminate.
Qed.

(** C8 (amended) — Conservation before rounding. Every event of a
    generated log comes from one normal draw [x] with the mean and
    standard deviation of its stage: with the cycle duration
    [max(5, x)] and the total duration [max(5, x) + setup], the event
    records the cycle, the setup and the total each rounded to two
    decimals on its own, and its end instant is its start instant plus
    the unrounded total converted to microseconds. *)
Theorem durations_recorded `{G : Generators} (cfg : Config)
    (fuel : nat) (num_cases start_date seed : Z) (w : World) (log : list Row)
    (r : Row) :
  generate_event_log cfg fuel num_cases start_date seed w = Ok log ->
  r ∈ log ->
  exists (op : Operation) (x : float) (w0 w1 : World) (d : Z),
    get_operation_by_id cfg (operation_id r) = Ok op
    /\ draw_normal (avg_duration_minutes op) (std_deviation_minutes op) w0
       = Ok (x, w1)
    /\ cycle_time_minutes r = py_round2 (py_max_int 5 x)
    /\ setup_time_minutes_rec r = py_round2 (setup_time_minutes op)
    /\ total_time_minutes r
       = py_round2 (fadd (py_max_int 5 x) (setup_time_minutes op))
    /\ td_of_minutes (fadd (py_max_int 5 x) (setup_time_minutes op)) = Ok d
    /\ timestamp_end r = timestamp_start r + d.
Proof.
  intros H Hr.
  destruct (generate_simulate cfg _ _ _ _ _ _ H) as (st & Hsim & ->).
  apply list_elem_of_fmap in Hr. destruct Hr as (e & -> & He).
  apply (proj1 (sort_values_elem _ _)) in He.
  destruct (simulate_segments cfg (event_made cfg)
              (step_event_made cfg) _ _ _ _ _ _ Hsim)
    as (segs & Hlen & Hsegs & Hall).
  assert (Hmade : Forall (event_made cfg) (events st)).
  { rewrite Hsegs. apply Forall_concat. apply Forall_lookup. intros i seg Hi.
    destruct (Hall _ _ Hi) as (t & Ht).
    eapply case_trace_Forall; eauto. }
  rewrite Forall_forall in Hmade. specialize (Hmade _ He).
  destruct Hmade as (op & x & w0 & w1 & d & H1 & H2 & H3 & H4 & H5 & H6 & H7 & _).
  exists op, x, w0, w1, d. simpl. auto 10.
Qed.

Lemma durations_recorded_witness :
  exists (log : list Row) (r : Row),
    @generate_event_log rounding_generators catalog 6 1 default_start_date 42
      rounding_world = Ok log
    /\ r ∈ log
    /\ exists (op : Operation) (x : float)
         (w0 w1 : @World rounding_generators) (d : Z),
         get_operation_by_id catalog (operation_id r) = Ok op
         /\ @draw_normal rounding_generators (avg_duration_minutes op)
              (std_deviation_minutes op) w0
            = Ok (x, w1)
         /\ cycle_time_minutes r = py_round2 (py_max_int 5 x)
         /\ setup_time_minutes_rec r = py_round2 (setup_time_minutes op)
         /\ total_time_minutes r
            = py_round2 (fadd (py_max_int 5 x) (setup_time_minutes op))
         /\ td_of_minutes (fadd (py_max_int 5 x) (setup_time_minutes op)) = Ok d
         /\ timestamp_end r = timestamp_start r + d.
Proof.
  eexists. eexists. split; [vm_compute; reflexivity|].
  split; [left|].
  eapply (@durations_recorded rounding_generators catalog 6 1
            default_start_date 42 rounding_world).
  - vm_compute. reflexivity.
  - left.
Defined.

(** ** The aggregator *)

Lemma group_rows_events c rows :
  log_events (group_rows c rows) = case_events c (log_events rows).
Proof.
  unfold log_events, group_rows, case_events.
  induction rows as [|r rows IH]; [reflexivity|].
  simpl map. rewrite !filter_cons.
  destruct (decide (case_id r = c)); simpl; rewrite IH; reflexivity.
Qed.

Lemma insert_key_elem (x k : string) l : x ∈ insert_key k l <-> x = k \/ x ∈ l.
Proof.
  induction l as [|y l IH]; simpl.
  - rewrite list_elem_of_singleton, elem_of_nil. tauto.
  - destruct (String.eqb k y) eqn:E.
    + apply String.eqb_eq in E. subst. rewrite elem_of_cons. tauto.
    + destruct (String.leb k y); rewrite !elem_of_cons; [tauto|].
      rewrite IH. tauto.
Qed.

Lemma group_keys_elem c rows :
  c ∈ group_keys rows <-> exists r : Row, r ∈ rows /\ case_id r = c.
Proof.
  unfold group_keys. induction rows as [|r rows IH]; simpl.
  - rewrite elem_of_nil. split; [tauto|].
    intros (r & Hr & _). apply elem_of_nil in Hr. exact Hr.
  - rewrite insert_key_elem, IH. split.
    + intros [->|(r' & Hr' & Hc)].
      * exists r. split; [left|reflexivity].
      * exists r'. split; [right; exact Hr'|exact Hc].
    + intros (r' & Hr' & Hc). apply elem_of_cons in Hr'.
      destruct Hr' as [->|Hr']; [left; congruence|right; eauto].
Qed.

Lemma count_true_filter {A} (f : A -> bool) (l : list A) :
  count_true (map f l) = Z.of_nat (length (filter (fun x => f x = true) l)).
Proof.
  unfold count_true.
  assert (Hgen : forall n,
    foldl (fun n (b : bool) => if b then n + 1 else n) n (map f l)
    = n + Z.of_nat (length (filter (fun x => f x = true) l))).
  { induction l as [|x l IH]; intros n; simpl; [lia|].
    rewrite IH, filter_cons.
    destruct (f x) eqn:E; destruct (decide _) as [D|D]; simpl length;
      try congruence; lia. }
  rewrite Hgen. lia.
Qed.

Lemma rows_start_first (r : Row) (rest : list Row) :
  chained (log_events (r :: rest)) ->
  Forall (fun x => timestamp_start x <= timestamp_end x)
    (log_events (r :: rest)) ->
  Forall (fun x : Row => timestamp_start r <= timestamp_start x) rest.
Proof.
  unfold log_events. revert r.
  induction rest as [|x rest IH]; intros r Hc Ho; constructor.
  - destruct Hc as [Hex _]. inversion Ho; subst. lia.
  - destruct Hc as [Hex Hc]. inversion Ho as [|? ? He Ho']; subst.
    inversion Ho' as [|? ? Hx _]; subst.
    eapply Forall_impl; [exact (IH x Hc Ho')|].
    cbv beta. intros y Hy. lia.
Qed.

Lemma foldl_min_first (a : Z) (l : list Z) :
  Forall (fun x => a <= x) l -> foldl Z.min a l = a.
Proof.
  induction 1 as [|x l Hx _ IH]; simpl; [reflexivity|].
  rewrite Z.min_l by exact Hx. exact IH.
Qed.

Lemma rows_end_last (r : Row) (rest : list Row) :
  chained (log_events (r :: rest)) ->
  Forall (fun x => timestamp_start x <= timestamp_end x)
    (log_events (r :: rest)) ->
  foldl Z.max (timestamp_end r) (map (fun x : Row => timestamp_end x) rest)
  = timestamp_end (default r (last (r :: rest))).
Proof.
  unfold log_events. revert r.
  induction rest as [|x rest IH]; intros r Hc Ho; [reflexivity|].
  destruct Hc as [Hex Hc]. inversion Ho as [|? ? He Ho']; subst.
  inversion Ho' as [|? ? Hx _]; subst.
  cbn [map foldl]. rewrite Z.max_r by lia.
  rewrite (IH x Hc Ho').
  change (last (r :: x :: rest)) with (last (x :: rest)).
  destruct (last (x :: rest)) eqn:El; [reflexivity|].
  apply last_None in El. discriminate.
Qed.

Lemma group_sum_compensated l :
  forall s c, compensated_sum s c l (fst (foldl kahan_step (s, c) l)).
Proof.
  induction l as [|x l IH]; intros s c; [apply sum_done|].
  cbn [foldl]. unfold kahan_step at 2. cbn [fst snd].
  destruct x as [sx|sx| |sx mx ex];
    try (cbn [is_nan]; eapply sum_add;
         [discriminate|reflexivity|reflexivity|];
         match goal with
         | |- compensated_sum _ ?c0 _ (fst (foldl _ (_, ?c1) _)) =>
             replace c1 with c0; [apply IH|]
         end;
         match goal with
         | |- context [is_nan ?v] => destruct v; reflexivity
         end).
  cbn [is_nan]. apply sum_skip, IH.
Qed.

(** The compensation at work: the group sum of 0.1, 0.2 and 0.3 is 0.6,
    where adding them from left to right gives 0.6000000000000001. *)
Lemma group_sum_compensates :
  group_sum [div_Z 1 10; div_Z 2 10; div_Z 3 10] = div_Z 6 10
  /\ fadd (fadd (div_Z 1 10) (div_Z 2 10)) (div_Z 3 10) <> div_Z 6 10.
Proof. split; [vm_compute; reflexivity|vm_compute; discriminate]. Qed.

(** C9 — Lead-time aggregation. On a generated log the aggregator
    returns, for every case with at least one event, a summary of that
    case; and every summary it returns satisfies: the lead time is the
    end instant of the case's last event minus the start instant of its
    first event (in minutes), the total wait and cycle times are the
    sums of the case's wait and cycle durations (floating-point sums, as
    the table library accumulates them: in row order, from zero, with
    compensation), the number of stage visits is the case's event count
    and the number of rework visits is the count of its events flagged
    as rework. The summaries are a function of the log alone. *)
Theorem lead_times_aggregate `{G : Generators}
    (fuel : nat) (num_cases start_date seed : Z) (w : World) (log : list Row) :
  generate_event_log catalog fuel num_cases start_date seed w = Ok log ->
  (forall c, filter (fun r : Row => case_id r = c) log <> [] ->
     exists s, s ∈ calculate_case_lead_times log /\ lt_case_id s = c)
  /\ forall s, s ∈ calculate_case_lead_times log ->
       let g := filter (fun r : Row => case_id r = lt_case_id s) log in
       exists first lst : Row,
         head g = Some first /\ last g = Some lst
         /\ lead_time_minutes s
            = minutes_between (timestamp_end lst) (timestamp_start first)
         /\ compensated_sum (S754_zero false) (S754_zero false)
              (map (fun r : Row => wait_time_minutes r) g) (total_wait_time s)
         /\ compensated_sum (S754_zero false) (S754_zero false)
              (map (fun r : Row => cycle_time_minutes r) g)
              (total_cycle_time s)
         /\ total_operations s = Z.of_nat (length g)
         /\ total_reworks s
            = Z.of_nat (length (filter (fun r : Row => is_rework r = true) g)).
Proof.
  intros H.
  destruct (generated_log_structure catalog catalog_setups_nonneg
              _ _ _ _ _ _ H) as (st & Hsim & Hlog & Hmade & _ & Hcases).
  split.
  - intros c Hne. fold (group_rows c log) in Hne.
    unfold calculate_case_lead_times.
    destruct (group_rows c log) as [|r rest] eqn:Eg; [contradiction|].
    eexists. split.
    + apply list_elem_of_omap. exists c. split.
      * apply group_keys_elem. exists r.
        assert (Hr : r ∈ group_rows c log) by (rewrite Eg; left).
        unfold group_rows in Hr. apply list_elem_of_filter in Hr.
        destruct Hr as [Hc Hr]. auto.
      * rewrite Eg. simpl. reflexivity.
    + reflexivity.
  - intros s Hs. unfold calculate_case_lead_times in Hs.
    apply list_elem_of_omap in Hs. destruct Hs as (c & _ & Hagg).
    unfold aggregate in Hagg.
    destruct (group_rows c log) as [|r rest] eqn:Eg; [discriminate|].
    inversion Hagg; subst s; clear Hagg. cbv zeta. simpl lt_case_id.
    fold (group_rows c log). rewrite Eg.
    pose proof (group_rows_events c log) as Hge. rewrite Eg in Hge.
    destruct (Hcases c) as [Hsame Hc]. rewrite Hsame in Hge.
    assert (Hch : chained (log_events (r :: rest))).
    { rewrite Hge. destruct Hc as [-> |(i & t & _ & _ & Ht)]; [exact I|].
      eapply case_trace_chained; eauto. }
    assert (Hord : Forall (fun x => timestamp_start x <= timestamp_end x)
                     (log_events (r :: rest))).
    { rewrite Hge. apply Forall_forall. intros e He.
      unfold case_events in He. apply list_elem_of_filter in He.
      destruct He as [_ He]. rewrite Forall_forall in Hmade.
      eapply event_made_ordered; [exact catalog_setups_nonneg|]. auto. }
    exists r, (default r (last (r :: rest))).
    split; [reflexivity|]. split.
    { destruct (last (r :: rest)) eqn:El; [reflexivity|].
      apply last_None in El. discriminate. }
    split.
    { cbn [lead_time_minutes]. f_equal.
      - apply rows_end_last; assumption.
      - apply foldl_min_first. rewrite Forall_map.
        apply rows_start_first; assumption. }
    cbn [total_wait_time total_cycle_time total_operations total_reworks].
    split; [apply group_sum_compensated|].
    split; [apply group_sum_compensated|].
    split; [reflexivity|].
    exact (count_true_filter (fun x : Row => is_rework x) (r :: rest)).
Qed.

Lemma lead_times_aggregate_witness :
  exists log,
    @generate_event_log quiet_generators catalog 6 2 default_start_date 42
      quiet_world = Ok log
    /\ map (fun s => (lt_case_id s, lead_time_minutes s,
                      total_wait_time s, total_cycle_time s,
                      total_operations s, total_reworks s))
         (calculate_case_lead_times log)
       = [("CASE-0001", of_Z 166, of_Z 0, of_Z 120, 6, 0);
          ("CASE-0002", of_Z 181, of_Z 15, of_Z 120, 6, 0)]
    /\ (forall c, filter (fun r : Row => case_id r = c) log <> [] ->
          exists s, s ∈ calculate_case_lead_times log /\ lt_case_id s = c)
    /\ forall s, s ∈ calculate_case_lead_times log ->
         let g := filter (fun r : Row => case_id r = lt_case_id s) log in
         exists first lst : Row,
           head g = Some first /\ last g = Some lst
           /\ lead_time_minutes s
              = minutes_between (timestamp_end lst) (timestamp_start first)
           /\ compensated_sum (S754_zero false) (S754_zero false)
                (map (fun r : Row => wait_time_minutes r) g)
                (total_wait_time s)
           /\ compensated_sum (S754_zero false) (S754_zero false)
                (map (fun r : Row => cycle_time_minutes r) g)
                (total_cycle_time s)
           /\ total_operations s = Z.of_nat (length g)
           /\ total_reworks s
              = Z.of_nat
                  (length (filter (fun r : Row => is_rework r = true) g)).
Proof.
  eexists. split; [vm_compute; reflexivity|].
  split; [vm_compute; reflexivity|].
  apply (@lead_times_aggregate quiet_generators 6 2 default_start_date 42
           quiet_world).
  vm_compute. reflexivity.
Defined.

(** ** Iterations and redirects *)



Lemma list_index_absent l x : x ∉ l -> list_index l x = Raise ValueError.
Proof.
  induction l as [|y l IH]; simpl; intros H; [reflexivity|].
  apply not_elem_of_cons in H. destruct H as [Hne H].
  destruct (String.eqb y x) eqn:E.
  - apply String.eqb_eq in E. congruence.
  - rewrite (IH H). reflexivity.
Qed.

Lemma known_false cfg op_id :
  known cfg op_id = false -> get_operation_by_id cfg op_id = Raise ValueError.
Proof.
  unfold known, get_operation_by_id. intros H.
  apply find_operation_unknown. intros op Hin Heq.
  assert (Ht : existsb (fun op => String.eqb (id op) op_id) (OPERATIONS cfg) = true).
  { apply existsb_exists. exists op. split; [exact Hin|].
    apply String.eqb_eq. exact Heq. }
  congruence.
Qed.

Section Iterations.

Context `{G : Generators}.
Variable cfg : Config.

Local Abbreviation seq_len := (Z.of_nat (length (OPERATION_SEQUENCE cfg))).



Lemma detections_cons e l :
  detections (e :: l) = Z.b2z (defect_detected e) + detections l.
Proof.
  unfold detections. rewrite filter_cons.
  destruct (defect_detected e); destruct (decide _); simpl length; simpl Z.b2z;
    try congruence; lia.
Qed.

Lemma detections_nonneg l : 0 <= detections l.
Proof. unfold detections. lia. Qed.


End Iterations.

(** ** Where the rework map is consulted *)

Lemma bind_transfer {A B} (m : result A) (f f' : A -> result B) (b : B) :
  m ≫= f = Ok b ->
  (forall a, m = Ok a -> f a = Ok b -> f' a = Ok b) ->
  m ≫= f' = Ok b.
Proof.
  destruct m as [a|e|]; simpl; intros H Hf; try discriminate.
  apply (Hf a eq_refl H).
Qed.

Section Prefix.

Context `{G : Generators}.
Variable cfg : Config.

Lemma case_loop_prefix cid fuel :
  forall st c st' c',
    case_loop cfg cid fuel st c = Ok (st', c') ->
    exists seg, events st' = events st ++ seg.
Proof.
  induction fuel as [|fuel IH]; intros st c st' c' H; simpl in H;
    destruct (op_idx c <? Z.of_nat (length (OPERATION_SEQUENCE cfg)));
    try discriminate;
    try (inversion H; subst; exists []; rewrite app_nil_r; reflexivity).
  inv_bind H. destruct a as [st1 c1].
  destruct (step_inv _ _ _ _ _ _ E)
    as [op_id op count pool slot avail x w1 d detected
        Hi Hl Hc Hp He Hn Hd Hend Hdef Hev Hp' Hc'].
  destruct (IH _ _ _ _ H) as (seg & Hseg).
  eexists. rewrite Hseg, Hev, <- app_assoc. reflexivity.
Qed.

Lemma run_case_prefix fuel k arrival st st' arrival' :
  run_case cfg fuel k arrival st = Ok (st', arrival') ->
  exists seg, events st' = events st ++ seg.
Proof.
  unfold run_case. intros H.
  destruct (draw_exponential (of_Z 30) (world st)) as [gap w].
  inv_bind H. inv_bind H. inv_bind H. destruct a1 as [st1 c1].
  inversion H; subst; clear H.
  apply case_loop_prefix in E1. exact E1.
Qed.

Lemma cases_loop_prefix fuel n :
  forall k arrival st st',
    cases_loop cfg fuel n k arrival st = Ok st' ->
    exists seg, events st' = events st ++ seg.
Proof.
  induction n as [|n IH]; intros k arrival st st' H; simpl in H.
  - inversion H; subst. exists []. rewrite app_nil_r. reflexivity.
  - inv_bind H. destruct a as [st1 arrival1].
    destruct (run_case_prefix _ _ _ _ _ _ E) as (seg1 & H1).
    destruct (IH _ _ _ _ H) as (seg2 & H2).
    exists (seg1 ++ seg2). rewrite H2, H1, <- app_assoc. reflexivity.
Qed.

End Prefix.

Section Routes.

Context `{G : Generators}.
Variables cfg cfg' : Config.
Hypothesis same_operations : OPERATIONS cfg' = OPERATIONS cfg.
Hypothesis same_sequence : OPERATION_SEQUENCE cfg' = OPERATION_SEQUENCE cfg.

Local Abbreviation undetected :=
  (Forall (fun e : Event => defect_detected e = false)).

Lemma handle_defects_routes op op_id idx defects w idx' defects' w' :
  handle_defects cfg op op_id idx defects w = Ok (false, idx', defects', w') ->
  handle_defects cfg' op op_id idx defects w = Ok (false, idx', defects', w').
Proof.
  unfold handle_defects. destruct (String.eqb op_id "OP5").
  - destruct (scan_defects defects w) as [[prev|] w1]; [|intros H; exact H].
    intros H. inv_bind H. inversion H.
  - intros H; exact H.
Qed.

Lemma step_routes cid st c st' c' :
  step cfg cid st c = Ok (st', c') ->
  undetected (events st') ->
  step cfg' cid st c = Ok (st', c').
Proof.
  unfold step, get_operation_by_id.
  rewrite same_operations, same_sequence. intros H Hund.
  eapply bind_transfer; [exact H|]; clear H; intros op_id _ H.
  eapply bind_transfer; [exact H|]; clear H; intros op _ H.
  eapply bind_transfer; [exact H|]; clear H; intros count _ H.
  lazy zeta in H |- *.
  eapply bind_transfer; [exact H|]; clear H; intros pool _ H.
  eapply bind_transfer; [exact H|]; clear H; intros [slot avail] _ H.
  lazy beta iota zeta in H |- *.
  eapply bind_transfer; [exact H|]; clear H; intros [x w1] _ H.
  lazy beta iota zeta in H |- *.
  eapply bind_transfer; [exact H|]; clear H; intros d _ H.
  eapply bind_transfer; [exact H|]; clear H; intros operation_end _ H.
  lazy zeta in H |- *.
  destruct (handle_defects cfg op op_id (op_idx c) (defects_by_op c) w1)
    as [[[[detected idx] defects] w2]|e|] eqn:Eh; try discriminate H.
  change (Ok ({| world := w2;
                 workstation_availability :=
                   <[op_id := <[slot := operation_end]> pool]>
                     (workstation_availability st);
                 events := events st ++
                   [make_event cid op op_id slot
                      (Z.max (current_time c) avail) operation_end (count + 1)
                      (py_max_int 0 (minutes_between avail (current_time c)))
                      (py_max_int 5 x)
                      (fadd (py_max_int 5 x) (setup_time_minutes op))
                      detected] |},
              {| op_idx := idx + 1; current_time := operation_end;
                 operation_counts := <[op_id := count + 1]> (operation_counts c);
                 defects_by_op := defects |}) = Ok (st', c')) in H.
  inversion H; subst st' c'; clear H. cbn [events] in Hund.
  apply Forall_app in Hund. destruct Hund as [_ Hund].
  inversion Hund as [|? ? Hdet _]; subst. cbn [defect_detected make_event] in Hdet.
  subst detected.
  rewrite (handle_defects_routes _ _ _ _ _ _ _ _ Eh). reflexivity.
Qed.

Lemma case_loop_routes cid fuel :
  forall st c st' c',
    case_loop cfg cid fuel st c = Ok (st', c') ->
    undetected (events st') ->
    case_loop cfg' cid fuel st c = Ok (st', c').
Proof.
  induction fuel as [|fuel IH]; intros st c st' c' H Hund; simpl in *;
    rewrite same_sequence;
    destruct (op_idx c <? Z.of_nat (length (OPERATION_SEQUENCE cfg)));
    try discriminate; try exact H.
  inv_bind H. destruct a as [st1 c1].
  destruct (case_loop_prefix cfg _ _ _ _ _ _ H) as (seg & Hseg).
  rewrite (step_routes _ _ _ _ _ E).
  - simpl. apply IH; assumption.
  - rewrite Hseg in Hund. apply Forall_app in Hund. apply Hund.
Qed.

Lemma run_case_routes fuel k arrival st st' arrival' :
  run_case cfg fuel k arrival st = Ok (st', arrival') ->
  undetected (events st') ->
  run_case cfg' fuel k arrival st = Ok (st', arrival').
Proof.
  unfold run_case, initial_counts. rewrite same_sequence. intros H Hund.
  destruct (draw_exponential (of_Z 30) (world st)) as [gap w].
  eapply bind_transfer; [exact H|]; clear H; intros d _ H.
  eapply bind_transfer; [exact H|]; clear H; intros arrival1 _ H.
  lazy zeta in H |- *.
  inv_bind H. destruct a as [st1 c1]. inversion H; subst; clear H.
  rewrite (case_loop_routes _ _ _ _ _ _ E Hund). reflexivity.
Qed.

Lemma cases_loop_routes fuel n :
  forall k arrival st st',
    cases_loop cfg fuel n k arrival st = Ok st' ->
    undetected (events st') ->
    cases_loop cfg' fuel n k arrival st = Ok st'.
Proof.
  induction n as [|n IH]; intros k arrival st st' H Hund; simpl in *;
    [exact H|].
  inv_bind H. destruct a as [st1 arrival1].
  destruct (cases_loop_prefix cfg _ _ _ _ _ _ H) as (seg & Hseg).
  rewrite (run_case_routes _ _ _ _ _ _ E).
  - simpl. apply IH; assumption.
  - rewrite Hseg in Hund. apply Forall_app in Hund. apply Hund.
Qed.

Lemma generate_routes fuel n start seed w log :
  generate_event_log cfg fuel n start seed w = Ok log ->
  Forall (fun r : Row => defect_detected r = false) log ->
  generate_event_log cfg' fuel n start seed w = Ok log.
Proof.
  intros H Hund.
  destruct (generate_simulate cfg _ _ _ _ _ _ H) as (st & Hsim & Hlog).
  assert (Hevs : undetected (events st)).
  { apply Forall_forall. intros e He. rewrite Forall_forall in Hund.
    apply (Hund (with_duration e)). rewrite Hlog.
    apply list_elem_of_fmap. exists e. split; [reflexivity|].
    apply sort_values_elem. exact He. }
  unfold generate_event_log in *. rewrite Hsim in H. simpl in H.
  assert (Hsim' : simulate cfg' fuel n start seed w = Ok st).
  { unfold simulate, initial_pools in *. rewrite same_operations.
    eapply bind_transfer; [exact Hsim|]. intros w' _ Hc.
    apply cases_loop_routes; assumption. }
  rewrite Hsim'. exact H.
Qed.

End Routes.

(** ** Unknown stage identifiers *)

Lemma seq_index_lookup l i x :
  0 <= i -> l !! Z.to_nat i = Some x -> seq_index l i = Ok x.
Proof.
  intros Hi Hl. unfold seq_index.
  pose proof (lookup_lt_Some _ _ _ Hl) as Hlt.
  destruct (Z.ltb_spec i 0); [lia|].
  destruct (Z.leb_spec 0 i); [|lia].
  destruct (Z.ltb_spec i (Z.of_nat (length l))); [|lia].
  simpl. rewrite Hl. reflexivity.
Qed.

(** C5, as stated, fails: the rework map of [misrouted_config] names an
    unknown stage, and yet a run in which no defect is detected returns
    a log. *)
Lemma configuration_error_counterexample :
  references_unknown misrouted_config = true
  /\ exists log,
       @generate_event_log quiet_generators misrouted_config 6 1
         default_start_date 42 quiet_world = Ok log.
Proof.
  split; [vm_compute; reflexivity|].
  eexists. vm_compute. reflexivity.
Qed.

Lemma list_index_raise l x e :
  list_index l x = Raise e -> e = ValueError /\ x ∉ l.
Proof.
  induction l as [|y l IH]; simpl; intros H.
  - inversion H. split; [reflexivity|apply not_elem_of_nil].
  - destruct (String.eqb y x) eqn:E; [discriminate|].
    apply String.eqb_neq in E.
    destruct (list_index l x) as [i|e'|] eqn:El; simpl in H; try discriminate.
    inversion H; subst e'. destruct (IH eq_refl) as [-> Hn].
    split; [reflexivity|]. apply not_elem_of_cons. auto.
Qed.

(** C5 (amended) — Unknown stage identifiers. Nothing is checked before
    the simulation begins. An unknown identifier of the sequence makes
    the iteration that reaches it raise the lookup error ([ValueError]),
    whatever was emitted before. The rework map is consulted only by an
    inspection visit that detects a defect: the defect handling of a
    visit raises exactly when the visit is an inspection whose detected
    defect is routed to an identifier that is not in the sequence, and
    then it raises [ValueError]; and a run that returns a log without
    any detected defect returns the same log with any other rework
    map. *)
Theorem unknown_stage_raises_when_reached `{G : Generators} (cfg : Config) :
  (forall cid st c op_id,
     0 <= op_idx c ->
     OPERATION_SEQUENCE cfg !! Z.to_nat (op_idx c) = Some op_id ->
     known cfg op_id = false ->
     step cfg cid st c = Raise ValueError)
  /\ (forall op op_id idx defects w e,
        handle_defects cfg op op_id idx defects w = Raise e
        <-> op_id = "OP5" /\ e = ValueError
            /\ exists prev w',
                 scan_defects defects w = (Some prev, w')
                 /\ default prev (REWORK_ROUTES cfg !! prev)
                      ∉ OPERATION_SEQUENCE cfg)
  /\ (forall cfg' fuel num_cases start_date seed w log,
        OPERATIONS cfg' = OPERATIONS cfg ->
        OPERATION_SEQUENCE cfg' = OPERATION_SEQUENCE cfg ->
        generate_event_log cfg fuel num_cases start_date seed w = Ok log ->
        Forall (fun r : Row => defect_detected r = false) log ->
        generate_event_log cfg' fuel num_cases start_date seed w = Ok log).
Proof.
  split; [|split].
  - intros cid st c op_id Hidx Hl Hk. unfold step.
    rewrite (seq_index_lookup _ _ _ Hidx Hl). simpl.
    rewrite (known_false _ _ Hk). reflexivity.
  - intros op op_id idx defects w e. unfold handle_defects. split.
    + destruct (String.eqb op_id "OP5") eqn:E.
      * apply String.eqb_eq in E.
        destruct (scan_defects defects w) as [[prev|] w1] eqn:Es;
          [|discriminate].
        intros H. unfold get_operation_index in H.
        destruct (list_index (OPERATION_SEQUENCE cfg)
                    (default prev (REWORK_ROUTES cfg !! prev)))
          as [i|e'|] eqn:El; simpl in H; try discriminate.
        inversion H; subst e'. destruct (list_index_raise _ _ _ El) as [-> Hn].
        split; [exact E|]. split; [reflexivity|]. exists prev, w1. auto.
      * destruct (draw_random w) as [u w1].
        destruct (fltb u (defect_rate op)); discriminate.
    + intros (-> & -> & prev & w' & Hs & Hn). simpl. rewrite Hs.
      unfold get_operation_index. rewrite (list_index_absent _ _ Hn).
      reflexivity.
  - intros cfg' fuel num_cases start_date seed w log Hops Hseq H Hund.
    exact (generate_routes cfg cfg' Hops Hseq _ _ _ _ _ _ H Hund).
Qed.

Lemma unknown_stage_raises_when_reached_witness :
  (0 <= op_idx second_stage
   /\ OPERATION_SEQUENCE unknown_stage_config
        !! Z.to_nat (op_idx second_stage) = Some "OP7"
   /\ known unknown_stage_config "OP7" = false
   /\ @step quiet_generators unknown_stage_config "CASE-0001" quiet_sim
        second_stage = Raise ValueError)
  /\ (@scan_defects rework_generators [("OP2", true)] detecting_world
      = (Some "OP2", tape_world
           [div_Z 5 10; div_Z 1 100; div_Z 5 10; div_Z 5 10; div_Z 1 10]
           (div_Z 9 10) [] (of_Z 20) [] [])
      /\ (default "OP2" (REWORK_ROUTES misrouted_config !! "OP2")
           ∉ OPERATION_SEQUENCE misrouted_config)
      /\ forall op,
           @handle_defects rework_generators misrouted_config op "OP5" 4
             [("OP2", true)] detecting_world = Raise ValueError)
  /\ exists log,
       OPERATIONS catalog = OPERATIONS misrouted_config
       /\ OPERATION_SEQUENCE catalog = OPERATION_SEQUENCE misrouted_config
       /\ @generate_event_log quiet_generators misrouted_config 6 2
            default_start_date 42 quiet_world = Ok log
       /\ Forall (fun r : Row => defect_detected r = false) log
       /\ @generate_event_log quiet_generators catalog 6 2
            default_start_date 42 quiet_world = Ok log.
Proof.
  assert (H1 : 0 <= op_idx second_stage) by (simpl; lia).
  assert (H2 : OPERATION_SEQUENCE unknown_stage_config
                 !! Z.to_nat (op_idx second_stage) = Some "OP7")
    by reflexivity.
  assert (H3 : known unknown_stage_config "OP7" = false) by reflexivity.
  assert (H4 : @scan_defects rework_generators [("OP2", true)] detecting_world
               = (Some "OP2", tape_world
                    [div_Z 5 10; div_Z 1 100; div_Z 5 10; div_Z 5 10; div_Z 1 10]
                    (div_Z 9 10) [] (of_Z 20) [] []))
    by (vm_compute; reflexivity).
  assert (H5 : default "OP2" (REWORK_ROUTES misrouted_config !! "OP2")
                 ∉ OPERATION_SEQUENCE misrouted_config).
  { vm_compute. intros H. repeat (apply elem_of_cons in H; destruct H as [H|H];
      [discriminate|]). apply elem_of_nil in H. exact H. }
  split; [|split].
  - split; [exact H1|]. split; [exact H2|]. split; [exact H3|].
    exact (proj1 (@unknown_stage_raises_when_reached quiet_generators
                    unknown_stage_config)
             "CASE-0001" quiet_sim second_stage "OP7" H1 H2 H3).
  - split; [exact H4|]. split; [exact H5|]. intros op.
    apply (proj1 (proj2 (@unknown_stage_raises_when_reached rework_generators
                           misrouted_config))
             op "OP5" 4 [("OP2", true)] detecting_world ValueError).
    split; [reflexivity|]. split; [reflexivity|]. eexists. eexists.
    split; [exact H4|exact H5].
  - eexists. split; [reflexivity|]. split; [reflexivity|].
    split; [vm_compute; reflexivity|].
    assert (Hund : forall l (P : Row -> bool),
              forallb P l = true -> Forall (fun r => P r = true) l).
    { intros l P. induction l as [|r l IH]; simpl; [constructor|].
      intros Hb. apply andb_true_iff in Hb. destruct Hb. constructor; auto. }
    match goal with
    | |- Forall _ ?l /\ _ =>
        assert (Hu : Forall (fun r : Row => defect_detected r = false) l)
    end.
    { eapply Forall_impl;
        [apply (Hund _ (fun r : Row => negb (defect_detected r)));
         vm_compute; reflexivity|].
      intros r Hr. simpl in Hr. destruct (defect_detected r);
        [discriminate|reflexivity]. }
    split; [exact Hu|].
    apply (proj2 (proj2 (@unknown_stage_raises_when_reached quiet_generators
                           misrouted_config))
             catalog 6%nat 2 default_start_date 42 quiet_world).
    + reflexivity.
    + reflexivity.
    + vm_compute. reflexivity.
    + exact Hu.
Defined.

(** * Further properties of the code *)

(** ** The catalogue lookups ([operations.py]) *)

(** X1 — [get_operation_by_id] returns the first operation of the
    catalogue that carries the identifier, and raises [ValueError]
    exactly when no operation carries it. *)
Theorem get_operation_by_id_first_match (cfg : Config) (op_id : string) :
  match get_operation_by_id cfg op_id with
  | Ok op =>
      exists pre post, OPERATIONS cfg = pre ++ op :: post /\ id op = op_id
        /\ Forall (fun o => id o <> op_id) pre
  | Raise e =>
      e = ValueError /\ Forall (fun o => id o <> op_id) (OPERATIONS cfg)
  | OutOfFuel => False
  end.
Proof.
  unfold get_operation_by_id.
  induction (OPERATIONS cfg) as [|o ops IH]; simpl.
  - split; [reflexivity|constructor].
  - destruct (String.eqb (id o) op_id) eqn:E.
    + apply String.eqb_eq in E. exists [], ops.
      split; [reflexivity|]. split; [exact E|constructor].
    + apply String.eqb_neq in E.
      destruct (find_operation ops op_id) as [op|e|]; [| |exact IH].
      * destruct IH as (pre & post & -> & Hid & Hpre).
        exists (o :: pre), post.
        split; [reflexivity|]. split; [exact Hid|constructor; auto].
      * destruct IH as [-> Hall]. split; [reflexivity|]. constructor; auto.
Qed.

Lemma list_index_first l x :
  match list_index l x with
  | Ok i =>
      0 <= i /\ l !! Z.to_nat i = Some x
      /\ forall j, (j < Z.to_nat i)%nat -> l !! j <> Some x
  | Raise e => e = ValueError /\ x ∉ l
  | OutOfFuel => False
  end.
Proof.
  induction l as [|y l IH]; simpl.
  - split; [reflexivity|]. apply not_elem_of_nil.
  - destruct (String.eqb y x) eqn:E.
    + apply String.eqb_eq in E. subst.
      split; [lia|]. split; [reflexivity|]. intros j Hj. simpl in Hj. lia.
    + apply String.eqb_neq in E.
      destruct (list_index l x) as [i|e|]; simpl; [| |exact IH].
      * destruct IH as (Hi & Hl & Hfirst). split; [lia|].
        replace (Z.to_nat (i + 1)) with (S (Z.to_nat i)) by lia.
        split; [exact Hl|].
        intros [|j] Hj; simpl; [congruence|]. apply Hfirst. lia.
      * destruct IH as [-> Hn]. split; [reflexivity|].
        rewrite elem_of_cons. intros [->|H]; [congruence|auto].
Qed.

(** X2 — [get_operation_index] returns the position of the first
    occurrence of the identifier in the sequence, and raises
    [ValueError] exactly when the identifier is not in the sequence. *)
Theorem get_operation_index_first_occurrence (cfg : Config) (op_id : string) :
  match get_operation_index cfg op_id with
  | Ok i =>
      0 <= i /\ OPERATION_SEQUENCE cfg !! Z.to_nat i = Some op_id
      /\ forall j, (j < Z.to_nat i)%nat ->
           OPERATION_SEQUENCE cfg !! j <> Some op_id
  | Raise e => e = ValueError /\ op_id ∉ OPERATION_SEQUENCE cfg
  | OutOfFuel => False
  end.
Proof. exact (list_index_first (OPERATION_SEQUENCE cfg) op_id). Qed.

(** X3 — in a sequence without repetition, the index of the stage at
    position [i] is [i]: [get_operation_index] inverts indexing. *)
Theorem get_operation_index_inverts_lookup
    (cfg : Config) (i : nat) (op_id : string) :
  NoDup (OPERATION_SEQUENCE cfg) ->
  OPERATION_SEQUENCE cfg !! i = Some op_id ->
  get_operation_index cfg op_id = Ok (Z.of_nat i).
Proof.
  intros Hnd Hl. unfold get_operation_index.
  pose proof (list_index_first (OPERATION_SEQUENCE cfg) op_id) as H.
  destruct (list_index (OPERATION_SEQUENCE cfg) op_id) as [j|e|];
    [| |contradiction].
  - destruct H as (Hj & Hlj & _).
    pose proof (NoDup_lookup _ _ _ _ Hnd Hlj Hl) as Heq.
    f_equal. lia.
  - destruct H as [_ Hn]. exfalso. apply Hn.
    apply (list_elem_of_lookup_2 _ i op_id Hl).
Qed.

Lemma catalog_sequence_NoDup : NoDup (OPERATION_SEQUENCE catalog).
Proof.
  change (OPERATION_SEQUENCE catalog)
    with ["OP1"; "OP2"; "OP3"; "OP4"; "OP5"; "OP6"].
  repeat (apply NoDup_cons_2;
          [rewrite ?elem_of_cons; rewrite elem_of_nil;
           intros H; repeat (destruct H as [H|H]; [discriminate H|]);
           exact H|]).
  apply NoDup_nil_2.
Qed.

Lemma get_operation_index_inverts_lookup_witness :
  NoDup (OPERATION_SEQUENCE catalog)
  /\ OPERATION_SEQUENCE catalog !! 2%nat = Some "OP3"
  /\ get_operation_index catalog "OP3" = Ok (Z.of_nat 2).
Proof.
  split; [exact catalog_sequence_NoDup|]. split; [reflexivity|].
  apply (get_operation_index_inverts_lookup catalog 2 "OP3").
  - exact catalog_sequence_NoDup.
  - reflexivity.
Defined.

(** X4 — [get_next_operation] returns the stage that follows the first
    occurrence of the identifier, nothing when that occurrence is the
    last position, and raises [ValueError] exactly when the identifier
    is not in the sequence. *)
Theorem get_next_operation_successor (cfg : Config) (op_id : string) :
  match get_next_operation cfg op_id with
  | Ok next =>
      exists i : nat,
        OPERATION_SEQUENCE cfg !! i = Some op_id
        /\ (forall j, (j < i)%nat -> OPERATION_SEQUENCE cfg !! j <> Some op_id)
        /\ next = OPERATION_SEQUENCE cfg !! S i
  | Raise e => e = ValueError /\ op_id ∉ OPERATION_SEQUENCE cfg
  | OutOfFuel => False
  end.
Proof.
  unfold get_next_operation, get_operation_index.
  pose proof (list_index_first (OPERATION_SEQUENCE cfg) op_id) as H.
  destruct (list_index (OPERATION_SEQUENCE cfg) op_id) as [i|e|]; simpl;
    [|exact H|exact H].
  destruct H as (Hi & Hl & Hfirst).
  destruct (i <? Z.of_nat (length (OPERATION_SEQUENCE cfg)) - 1) eqn:E.
  - exists (Z.to_nat i). repeat split; auto.
    f_equal. lia.
  - exists (Z.to_nat i). repeat split; auto.
    symmetry. apply lookup_ge_None. apply Z.ltb_ge in E. lia.
Qed.

(** ** The choice of a workstation *)

Lemma argmin_from_least l :
  forall bi b i j t, argmin_from bi b i l = (j, t) ->
  t <= b /\ Forall (fun x => t <= x) l
  /\ ((j = bi /\ t = b)
      \/ exists k, j = (i + k)%nat /\ l !! k = Some t /\ t < b
           /\ forall k' x, (k' < k)%nat -> l !! k' = Some x -> t < x).
Proof.
  induction l as [|x l IH]; simpl; intros bi b i j t H.
  - inversion H; subst. split; [lia|]. split; [constructor|auto].
  - destruct (x <? b) eqn:E.
    + apply Z.ltb_lt in E. apply IH in H.
      destruct H as (Hle & Hall & Hcase).
      split; [lia|]. split; [constructor; auto|].
      right. destruct Hcase as [[-> ->]|(k & -> & Hk & Hlt & Hfirst)].
      * exists 0%nat. split; [lia|]. split; [reflexivity|]. split; [exact E|].
        intros k' y Hk'. lia.
      * exists (S k). split; [lia|]. split; [exact Hk|]. split; [lia|].
        intros [|k'] y Hk' Hy; simpl in Hy.
        -- inversion Hy; subst. exact Hlt.
        -- apply (Hfirst k'); [lia|exact Hy].
    + apply Z.ltb_ge in E. apply IH in H.
      destruct H as (Hle & Hall & Hcase).
      split; [lia|]. split; [constructor; [lia|auto]|].
      destruct Hcase as [[-> ->]|(k & -> & Hk & Hlt & Hfirst)]; [auto|].
      right. exists (S k). split; [lia|]. split; [exact Hk|]. split; [exact Hlt|].
      intros [|k'] y Hk' Hy; simpl in Hy.
      * inversion Hy; subst. lia.
      * apply (Hfirst k'); [lia|exact Hy].
Qed.

(** X5 — the workstation chosen for an event is the one that is free
    first, the lowest-numbered one among those free at the same
    instant; an empty pool raises [ValueError]. *)
Theorem earliest_workstation_least (pool : list Z) :
  match earliest_workstation pool with
  | Ok (j, t) =>
      pool !! j = Some t
      /\ Forall (fun x => t <= x) pool
      /\ forall k x, (k < j)%nat -> pool !! k = Some x -> t < x
  | Raise e => e = ValueError /\ pool = []
  | OutOfFuel => False
  end.
Proof.
  destruct pool as [|x l]; simpl; [auto|].
  destruct (argmin_from 0 x 1 l) as [j t] eqn:E.
  apply argmin_from_least in E. destruct E as (Hle & Hall & Hcase).
  destruct Hcase as [[-> ->]|(k & -> & Hk & Hlt & Hfirst)].
  - split; [reflexivity|]. split; [constructor; [lia|auto]|].
    intros k y Hk. lia.
  - split; [exact Hk|]. split; [constructor; [lia|auto]|].
    intros [|k'] y Hk' Hy; simpl in Hy.
    + inversion Hy; subst. exact Hlt.
    + apply (Hfirst k'); [lia|exact Hy].
Qed.

(** ** The pools of workstations *)

Lemma initial_pools_lookup (start : Z) ops :
  NoDup (map id ops) ->
  forall (m : gmap string (list Z)) k,
    foldl (fun m op => <[id op := replicate (workstation_count op) start]> m)
      m ops !! k
    = match find_operation ops k with
      | Ok op => Some (replicate (workstation_count op) start)
      | _ => m !! k
      end.
Proof.
  induction ops as [|o ops IH]; intros Hnd m k; simpl; [reflexivity|].
  apply NoDup_cons in Hnd. destruct Hnd as [Hno Hnd].
  rewrite (IH Hnd).
  destruct (String.eqb (id o) k) eqn:E.
  - apply String.eqb_eq in E. subst k.
    destruct (find_operation ops (id o)) as [op|e|] eqn:F.
    + apply find_operation_Ok in F. destruct F as [Hin Hid]. exfalso.
      assert (Hm : id op ∈ map id ops).
      { apply list_elem_of_fmap. exists op. split; [reflexivity|].
        apply list_elem_of_In. exact Hin. }
      rewrite Hid in Hm. exact (Hno Hm).
    + apply lookup_insert_eq.
    + apply lookup_insert_eq.
  - apply String.eqb_neq in E.
    destruct (find_operation ops k); try reflexivity;
      apply lookup_insert_ne; exact E.
Qed.

Lemma initial_pools_sized cfg start :
  NoDup (map id (OPERATIONS cfg)) -> pools_sized cfg (initial_pools cfg start).
Proof.
  intros Hnd op_id pool op Hp Hop. unfold initial_pools in Hp.
  rewrite (initial_pools_lookup start _ Hnd) in Hp.
  unfold get_operation_by_id in Hop. rewrite Hop in Hp.
  inversion Hp. apply length_replicate.
Qed.

Lemma initial_pools_replicate cfg start op_id pool :
  initial_pools cfg start !! op_id = Some pool ->
  exists n, pool = replicate n start.
Proof.
  unfold initial_pools.
  assert (Hgen : forall ops (m : gmap string (list Z)),
    (forall k p, m !! k = Some p -> exists n, p = replicate n start) ->
    forall k p,
      foldl (fun m op => <[id op := replicate (workstation_count op) start]> m)
        m ops !! k = Some p ->
      exists n, p = replicate n start).
  { induction ops as [|o ops IH]; intros m Hm k p; simpl; [apply Hm|].
    apply IH. intros k' p' Hk'.
    destruct (decide (id o = k')) as [<-|Hne].
    - rewrite lookup_insert_eq in Hk'. inversion Hk'. eauto.
    - rewrite lookup_insert_ne in Hk' by exact Hne. eapply Hm; eauto. }
  apply Hgen. intros k p Hk. rewrite lookup_empty in Hk. discriminate.
Qed.

Lemma step_within_capacity `{G : Generators} cfg cid st c st' c' :
  pools_sized cfg (workstation_availability st)
  /\ Forall (within_capacity cfg) (events st) ->
  step cfg cid st c = Ok (st', c') ->
  pools_sized cfg (workstation_availability st')
  /\ Forall (within_capacity cfg) (events st').
Proof.
  intros [Hsz Hall] Hstep.
  destruct (step_inv _ _ _ _ _ _ Hstep)
    as [op_id op count pool slot avail x w1 d detected
        Hi Hl Hc Hp He Hn Hd Hend Hdef Hev Hp' Hc'].
  pose proof (earliest_workstation_lookup _ _ _ He) as Hslot.
  split.
  - rewrite Hp'. intros op_id' pool' op' Hlk Hop'.
    destruct (decide (op_id = op_id')) as [<-|Hne].
    + rewrite lookup_insert_eq in Hlk. inversion Hlk; subst pool'.
      rewrite length_insert. eapply Hsz; eauto.
    + rewrite lookup_insert_ne in Hlk by exact Hne. eapply Hsz; eauto.
  - rewrite Hev. apply Forall_app. split; [exact Hall|].
    constructor; [|constructor].
    exists op, slot. simpl. split; [exact Hl|]. split; [|reflexivity].
    rewrite <- (Hsz _ _ _ Hp Hl). eapply lookup_lt_Some; exact Hslot.
Qed.

Lemma step_not_before `{G : Generators} cfg t0 cid st c st' c' :
  setups_nonneg cfg ->
  pools_not_before t0 (workstation_availability st)
  /\ Forall (fun e => t0 <= timestamp_start e) (events st) ->
  step cfg cid st c = Ok (st', c') ->
  pools_not_before t0 (workstation_availability st')
  /\ Forall (fun e => t0 <= timestamp_start e) (events st').
Proof.
  intros Hcfg [Hnb Hall] Hstep.
  destruct (step_inv _ _ _ _ _ _ Hstep)
    as [op_id op count pool slot avail x w1 d detected
        Hi Hl Hc Hp He Hn Hd Hend Hdef Hev Hp' Hc'].
  pose proof (earliest_workstation_lookup _ _ _ He) as Hslot.
  pose proof (Hnb _ _ _ _ Hp Hslot) as Havail.
  pose proof (event_made_ordered cfg _ Hcfg
                (step_event_made cfg _ _ _ _ _ _ Hstep Hev)) as Hord.
  simpl in Hord.
  split.
  - rewrite Hp'. intros op_id' pool' i t Hlk Ht.
    destruct (decide (op_id = op_id')) as [<-|Hne].
    + rewrite lookup_insert_eq in Hlk. inversion Hlk; subst pool'.
      apply list_lookup_insert_Some in Ht.
      destruct Ht as [(_ & <- & _)|(_ & Ht)]; [lia|].
      eapply Hnb; eauto.
    + rewrite lookup_insert_ne in Hlk by exact Hne. eapply Hnb; eauto.
  - rewrite Hev. apply Forall_app. split; [exact Hall|].
    constructor; [|constructor]. simpl. lia.
Qed.

(** ** Counting the events in progress *)

Lemma chained_tail a l : chained (a :: l) -> chained l.
Proof. destruct l as [|b l]; simpl; tauto. Qed.

Lemma chained_after l :
  forall a,
    chained (a :: l) ->
    Forall (fun e => timestamp_start e <= timestamp_end e) l ->
    Forall (fun b => timestamp_end a <= timestamp_start b) l.
Proof.
  induction l as [|b l IH]; intros a Hc Hord; [constructor|].
  destruct Hc as [Hab Hc]. inversion Hord as [|? ? Hb Hord']; subst.
  constructor; [exact Hab|].
  eapply Forall_impl; [exact (IH b Hc Hord')|].
  intros e He. simpl in He. lia.
Qed.

Lemma chained_running_once l (t : Z) :
  chained l ->
  Forall (fun e => timestamp_start e <= timestamp_end e) l ->
  Z.of_nat (length (filter (fun e => timestamp_start e <= t
                                     /\ t < timestamp_end e) l)) <= 1.
Proof.
  induction l as [|a l IH]; intros Hc Hord; [simpl; lia|].
  inversion Hord as [|? ? Ha Hord']; subst.
  rewrite filter_cons.
  destruct (decide (timestamp_start a <= t /\ t < timestamp_end a))
    as [[_ Hlt]|_].
  - pose proof (chained_after l a Hc Hord') as Hafter.
    assert (Hnil : filter (fun e => timestamp_start e <= t
                                    /\ t < timestamp_end e) l = []).
    { clear -Hafter Hlt. induction Hafter as [|b l Hb Hafter IHl];
        [reflexivity|].
      rewrite filter_cons_False by lia. exact IHl. }
    rewrite Hnil. simpl. lia.
  - apply IH; [eapply chained_tail; exact Hc|exact Hord'].
Qed.

Lemma filter_filter_length {A} (P Q : A -> Prop)
    `{!forall x, Decision (P x)} `{!forall x, Decision (Q x)} (l : list A) :
  (length (filter P (filter Q l)) <= length (filter P l))%nat.
Proof.
  induction l as [|x l IH]; [simpl; lia|].
  rewrite (filter_cons Q). destruct (decide (Q x)).
  - rewrite !(filter_cons P). destruct (decide (P x)); simpl; lia.
  - rewrite (filter_cons P). destruct (decide (P x)); simpl; lia.
Qed.

(** Events spread over [n] slots, no two on the same slot, are at most
    [n]. *)
Lemma slots_cover (op_id : string) (n : nat) :
  forall l : list Event,
    (forall e, e ∈ l ->
       exists k, (k < n)%nat /\ resource e = resource_label op_id k) ->
    (forall k,
       (length (filter (fun e => resource e = resource_label op_id k) l)
        <= 1)%nat) ->
    (length l <= n)%nat.
Proof.
  induction n as [|n IH]; intros l Hslot Hone.
  - destruct l as [|e l]; [simpl; lia|].
    destruct (Hslot e) as (k & Hk & _); [left|lia].
  - pose proof (filter_app_complement
                  (fun e => resource e = resource_label op_id n) l) as Hperm.
    apply Permutation_length in Hperm. rewrite length_app in Hperm.
    pose proof (Hone n) as Hn.
    assert (Hrest :
      (length (filter (fun e => ~ resource e = resource_label op_id n) l)
       <= n)%nat).
    { apply IH.
      - intros e He. apply list_elem_of_filter in He. destruct He as [Hne He].
        destruct (Hslot e He) as (k & Hk & Hr). exists k. split; [|exact Hr].
        destruct (decide (k = n)) as [->|Hkn]; [contradiction|lia].
      - intros k. etransitivity; [apply filter_filter_length|apply Hone]. }
    lia.
Qed.

Lemma insert_sorted_length x l :
  length (insert_sorted x l) = S (length l).
Proof.
  induction l as [|y l IH]; simpl; [reflexivity|].
  destruct (key_le x y); simpl; [reflexivity|]. rewrite IH. reflexivity.
Qed.

Lemma sort_values_length l : length (sort_values l) = length l.
Proof.
  induction l as [|x l IH]; simpl; [reflexivity|].
  rewrite insert_sorted_length, IH. reflexivity.
Qed.

(** A filter on the event of a row is a filter on the events. *)
Lemma filter_rows_length (Q : Event -> Prop) `{!forall e, Decision (Q e)} l :
  length (filter (fun r : Row => Q (row_event r)) (map with_duration l))
  = length (filter Q l).
Proof.
  induction l as [|e l IH]; [reflexivity|].
  change (map with_duration (e :: l))
    with (with_duration e :: map with_duration l).
  destruct (decide (Q e)) as [Hq|Hq].
  - rewrite (filter_cons_True Q) by exact Hq.
    rewrite (filter_cons_True (fun r : Row => Q (row_event r))) by exact Hq.
    simpl. rewrite IH. reflexivity.
  - rewrite (filter_cons_False Q) by exact Hq.
    rewrite (filter_cons_False (fun r : Row => Q (row_event r))) by exact Hq.
    exact IH.
Qed.

Lemma filter_log_length `{G : Generators} (Q : Event -> Prop)
    `{!forall e, Decision (Q e)} (evs : list Event) :
  length (filter (fun r : Row => Q (row_event r))
            (map with_duration (sort_values evs)))
  = length (filter Q evs).
Proof.
  rewrite filter_rows_length, filter_sort_values. apply sort_values_length.
Qed.

Lemma catalog_ids_NoDup : NoDup (map id (OPERATIONS catalog)).
Proof.
  change (map id (OPERATIONS catalog))
    with ["OP1"; "OP2"; "OP3"; "OP4"; "OP5"; "OP6"].
  repeat (apply NoDup_cons_2;
          [rewrite ?elem_of_cons; rewrite elem_of_nil;
           intros H; repeat (destruct H as [H|H]; [discriminate H|]);
           exact H|]).
  apply NoDup_nil_2.
Qed.

(** X6 — every event of a generated log sits on a workstation its stage
    has: its resource label is the label of slot [k] of its stage for
    some [k] below the stage's workstation count (identifiers of the
    catalogue being distinct). *)
Theorem events_on_existing_workstations `{G : Generators} (cfg : Config)
    (fuel : nat) (num_cases start_date seed : Z) (w : World) (log : list Row) :
  NoDup (map id (OPERATIONS cfg)) ->
  generate_event_log cfg fuel num_cases start_date seed w = Ok log ->
  Forall (within_capacity cfg) (log_events log).
Proof.
  intros Hnd H.
  destruct (generate_simulate cfg _ _ _ _ _ _ H) as (st & Hsim & ->).
  rewrite log_events_with_duration.
  apply (simulate_I cfg
           (fun ws evs => pools_sized cfg ws /\ Forall (within_capacity cfg) evs)
           (fun cid st c st' c' => step_within_capacity cfg cid st c st' c'))
    in Hsim.
  - destruct Hsim as [_ Hall]. rewrite Forall_forall in Hall.
    apply Forall_forall. intros e He. apply Hall.
    apply (proj1 (sort_values_elem _ _)). exact He.
  - split; [apply initial_pools_sized; exact Hnd|constructor].
Qed.

Lemma events_on_existing_workstations_witness :
  exists log,
    NoDup (map id (OPERATIONS catalog))
    /\ @generate_event_log quiet_generators catalog 6 2 default_start_date 42
         quiet_world = Ok log
    /\ Forall (within_capacity catalog) (log_events log).
Proof.
  eexists. split; [exact catalog_ids_NoDup|]. split.
  - vm_compute. reflexivity.
  - apply (@events_on_existing_workstations quiet_generators catalog 6 2
             default_start_date 42 quiet_world).
    + exact catalog_ids_NoDup.
    + vm_compute. reflexivity.
Defined.

Lemma in_progress_within_capacity `{G : Generators} (cfg : Config)
    (fuel : nat) (num_cases start_date seed : Z) (w : World) (log : list Row)
    (op_id : string) (op : Operation) (t : Z) :
  NoDup (map id (OPERATIONS cfg)) ->
  setups_nonneg cfg ->
  generate_event_log cfg fuel num_cases start_date seed w = Ok log ->
  get_operation_by_id cfg op_id = Ok op ->
  in_progress op_id t log <= Z.of_nat (workstation_count op).
Proof.
  intros Hnd Hcfg H Hop.
  destruct (generated_log_structure cfg Hcfg _ _ _ _ _ _ H)
    as (st & Hsim & -> & Hmade & _).
  assert (Hord : Forall (fun e => timestamp_start e <= timestamp_end e)
                   (events st)).
  { eapply Forall_impl; [exact Hmade|].
    intros e He. eapply event_made_ordered; eauto. }
  pose proof Hsim as Hcap.
  apply (simulate_I cfg
           (fun ws evs => pools_sized cfg ws /\ Forall (within_capacity cfg) evs)
           (fun cid st c st' c' => step_within_capacity cfg cid st c st' c'))
    in Hcap; [|split; [apply initial_pools_sized; exact Hnd|constructor]].
  destruct Hcap as [_ Hcap].
  pose proof Hsim as Hch.
  apply (simulate_I cfg slots_chained (step_slots_chained cfg)) in Hch;
    [|intros o s; split; [exact I|]; intros pool t' e _ _ Hl; discriminate].
  unfold in_progress.
  pose proof (filter_log_length
                (fun e => operation_id e = op_id
                          /\ timestamp_start e <= t /\ t < timestamp_end e)
                (events st)) as Hlen.
  apply inj_le. etransitivity; [apply Nat.eq_le_incl; exact Hlen|].
  apply (slots_cover op_id).
  - intros e He. apply list_elem_of_filter in He.
    destruct He as [[Hid _] He].
    rewrite Forall_forall in Hcap.
    destruct (Hcap e He) as (op' & slot & Hop' & Hslot & Hres).
    rewrite Hid in Hop', Hres. rewrite Hop in Hop'. inversion Hop'; subst op'.
    exists slot. auto.
  - intros k. rewrite list_filter_filter.
    rewrite (list_filter_iff _
               (fun e => (timestamp_start e <= t /\ t < timestamp_end e)
                         /\ (operation_id e = op_id
                             /\ resource e = resource_label op_id k)))
      by (intros e; tauto).
    rewrite <- list_filter_filter. fold (slot_events op_id k (events st)).
    apply Nat2Z.inj_le. change (Z.of_nat 1) with 1.
    apply chained_running_once.
    + apply Hch.
    + apply Forall_forall. intros e He. unfold slot_events in He.
      apply list_elem_of_filter in He. destruct He as [_ He].
      rewrite Forall_forall in Hord. auto.
Qed.

(** X7 — no stage is ever over capacity: at any instant, the number of
    rows of a generated log that are in progress at a stage (started,
    not yet ended) is at most the stage's workstation count. *)
Theorem stage_never_over_capacity `{G : Generators} (cfg : Config)
    (fuel : nat) (num_cases start_date seed : Z) (w : World) (log : list Row)
    (op_id : string) (op : Operation) (t : Z) :
  NoDup (map id (OPERATIONS cfg)) ->
  setups_nonneg cfg ->
  generate_event_log cfg fuel num_cases start_date seed w = Ok log ->
  get_operation_by_id cfg op_id = Ok op ->
  in_progress op_id t log <= Z.of_nat (workstation_count op).
Proof. apply in_progress_within_capacity. Qed.

Lemma stage_never_over_capacity_witness :
  exists log op,
    NoDup (map id (OPERATIONS catalog))
    /\ setups_nonneg catalog
    /\ @generate_event_log quiet_generators catalog 6 2 default_start_date 42
         quiet_world = Ok log
    /\ get_operation_by_id catalog "OP3" = Ok op
    /\ in_progress "OP3" (default_start_date + 6000000000) log
       <= Z.of_nat (workstation_count op).
Proof.
  eexists. eexists. split; [exact catalog_ids_NoDup|].
  split; [exact catalog_setups_nonneg|].
  split; [vm_compute; reflexivity|].
  split; [vm_compute; reflexivity|].
  apply (@stage_never_over_capacity quiet_generators catalog 6 2
           default_start_date 42 quiet_world).
  - exact catalog_ids_NoDup.
  - exact catalog_setups_nonneg.
  - vm_compute. reflexivity.
  - vm_compute. reflexivity.
Defined.

(** X8 — no event of a generated log starts before the start date of
    the simulation (setup times of the catalogue not being negative). *)
Theorem no_event_before_start_date `{G : Generators} (cfg : Config)
    (fuel : nat) (num_cases start_date seed : Z) (w : World) (log : list Row) :
  setups_nonneg cfg ->
  generate_event_log cfg fuel num_cases start_date seed w = Ok log ->
  Forall (fun r : Row => start_date <= timestamp_start r) log.
Proof.
  intros Hcfg H.
  destruct (generate_simulate cfg _ _ _ _ _ _ H) as (st & Hsim & ->).
  apply (simulate_I cfg
           (fun ws evs => pools_not_before start_date ws
                          /\ Forall (fun e => start_date <= timestamp_start e) evs)
           (fun cid st c st' c' =>
              step_not_before cfg start_date cid st c st' c' Hcfg))
    in Hsim.
  - destruct Hsim as [_ Hall]. rewrite Forall_forall in Hall.
    apply Forall_forall. intros r Hr.
    apply list_elem_of_fmap in Hr. destruct Hr as (e & -> & He).
    apply (proj1 (sort_values_elem _ _)) in He. simpl. auto.
  - split; [|constructor].
    intros op_id pool i t Hp Ht.
    destruct (initial_pools_replicate _ _ _ _ Hp) as (n & ->).
    apply lookup_replicate in Ht. destruct Ht as [-> _]. lia.
Qed.

Lemma no_event_before_start_date_witness :
  exists log,
    setups_nonneg catalog
    /\ @generate_event_log quiet_generators catalog 6 2 default_start_date 42
         quiet_world = Ok log
    /\ Forall (fun r : Row => default_start_date <= timestamp_start r) log.
Proof.
  eexists. split; [exact catalog_setups_nonneg|]. split.
  - vm_compute. reflexivity.
  - apply (@no_event_before_start_date quiet_generators catalog 6 2
             default_start_date 42 quiet_world).
    + exact catalog_setups_nonneg.
    + vm_compute. reflexivity.
Defined.

(** ** The cases of a generated log, one by one *)

Section CaseSegments.

Context `{G : Generators}.
Variable cfg : Config.
Variable Q : string -> list Event -> Prop.

(** [Q] holds of what the loop of a fresh case emits. *)
Hypothesis case_Q :
  forall cid fuel st c st' c',
    op_idx c = 0 ->
    operation_counts c = initial_counts cfg ->
    defects_by_op c = [] ->
    case_loop cfg cid fuel st c = Ok (st', c') ->
    exists seg,
      events st' = events st ++ seg
      /\ Forall (fun e => case_id e = cid) seg
      /\ Q cid seg.

Lemma cases_loop_Q fuel n :
  forall k arrival st st',
    cases_loop cfg fuel n k arrival st = Ok st' ->
    exists segs,
      events st' = events st ++ concat segs
      /\ forall i seg, segs !! i = Some seg ->
           Forall (fun e => case_id e
                            = case_id_of (Pos.of_nat (Pos.to_nat k + i))) seg
           /\ Q (case_id_of (Pos.of_nat (Pos.to_nat k + i))) seg.
Proof.
  induction n as [|n IH]; intros k arrival st st' H; simpl in H.
  - inversion H; subst. exists []. simpl. rewrite app_nil_r.
    split; [reflexivity|].
    intros i seg Hl. rewrite lookup_nil in Hl. discriminate.
  - inv_bind H. destruct a as [st1 arrival1].
    unfold run_case in E.
    destruct (draw_exponential (of_Z 30) (world st)) as [gap w0].
    inv_bind E. inv_bind E. inv_bind E. destruct a1 as [st2 c2].
    inversion E; subst; clear E.
    apply case_Q in E2; [|reflexivity|reflexivity|reflexivity].
    destruct E2 as (seg & Hseg & Hids & HQ). simpl in Hseg.
    destruct (IH _ _ _ _ H) as (segs & Hsegs & Hall).
    exists (seg :: segs). simpl. split.
    + rewrite Hsegs, Hseg, <- app_assoc. reflexivity.
    + intros [|i] seg' Hl; simpl in Hl.
      * inversion Hl; subst. rewrite Nat.add_0_r, Pos2Nat.id. auto.
      * replace (Pos.to_nat k + S i)%nat
          with (Pos.to_nat (Pos.succ k) + i)%nat by lia.
        apply Hall. exact Hl.
Qed.

Lemma simulate_Q fuel num_cases start_date seed w st c :
  simulate cfg fuel num_cases start_date seed w = Ok st ->
  case_events c (events st) = [] \/ Q c (case_events c (events st)).
Proof.
  unfold simulate. intros H. inv_bind H.
  destruct (cases_loop_Q _ _ _ _ _ _ H) as (segs & Hev & Hall).
  simpl in Hev. rewrite Hev.
  assert (Hidx : forall i, Pos.of_nat (Pos.to_nat 1 + i) = Pos.of_succ_nat (0 + i)).
  { intros i. rewrite Pos.of_nat_succ. reflexivity. }
  destruct (case_events_concat_cases segs 0 c)
    as [E'|(i & seg & Hi & Hc & E')].
  - intros i seg Hi. rewrite <- Hidx. apply (Hall _ _ Hi).
  - left. exact E'.
  - right. rewrite E', Hc, <- Hidx. apply (Hall _ _ Hi).
Qed.

End CaseSegments.

Lemma generated_cases `{G : Generators} (cfg : Config)
    (Q : string -> list Event -> Prop)
    fuel num_cases start_date seed w log c :
  setups_nonneg cfg ->
  (forall cid fuel st c st' c',
     op_idx c = 0 ->
     operation_counts c = initial_counts cfg ->
     defects_by_op c = [] ->
     case_loop cfg cid fuel st c = Ok (st', c') ->
     exists seg,
       events st' = events st ++ seg
       /\ Forall (fun e => case_id e = cid) seg
       /\ Q cid seg) ->
  generate_event_log cfg fuel num_cases start_date seed w = Ok log ->
  case_events c (log_events log) = [] \/ Q c (case_events c (log_events log)).
Proof.
  intros Hcfg HQ H.
  destruct (generated_log_structure cfg Hcfg _ _ _ _ _ _ H)
    as (st & Hsim & _ & _ & _ & Hcases).
  destruct (Hcases c) as [-> _].
  eapply simulate_Q; eauto.
Qed.

(** *** The running count of visits *)

Lemma visits_snoc s l e :
  visits s (l ++ [e]) = visits s l + Z.b2z (String.eqb (operation_id e) s).
Proof.
  induction l as [|a l IH].
  - change ([] ++ [e]) with [e]. rewrite visits_cons.
    unfold visits. simpl. lia.
  - change ((a :: l) ++ [e]) with (a :: (l ++ [e])).
    rewrite !visits_cons, IH. lia.
Qed.

Lemma initial_counts_zero cfg op n :
  initial_counts cfg !! op = Some n -> n = 0.
Proof.
  unfold initial_counts.
  assert (Hgen : forall ids (m : gmap string Z),
    (forall k v, m !! k = Some v -> v = 0) ->
    forall k v,
      foldl (fun m op_id => <[op_id := 0]> m) m ids !! k = Some v -> v = 0).
  { induction ids as [|x ids IH]; intros m Hm k v; simpl; [apply Hm|].
    apply IH. intros k' v' Hk'.
    destruct (decide (x = k')) as [<-|Hne].
    - rewrite lookup_insert_eq in Hk'. inversion Hk'. reflexivity.
    - rewrite lookup_insert_ne in Hk' by exact Hne. eapply Hm; eauto. }
  apply Hgen. intros k v Hk. rewrite lookup_empty in Hk. discriminate.
Qed.

Lemma case_loop_counted `{G : Generators} cfg cid fuel :
  forall st c st' c' base,
    (forall op n, operation_counts c !! op = Some n -> n = visits op base) ->
    case_loop cfg cid fuel st c = Ok (st', c') ->
    exists seg,
      events st' = events st ++ seg
      /\ Forall (fun e => case_id e = cid) seg
      /\ counted base seg.
Proof.
  induction fuel as [|fuel IH]; intros st c st' c' base Hcnt H; simpl in H;
    destruct (op_idx c <? Z.of_nat (length (OPERATION_SEQUENCE cfg)));
    try discriminate;
    try (inversion H; subst; exists []; rewrite app_nil_r;
         split; [reflexivity|]; split; [constructor|exact I]).
  inv_bind H. destruct a as [st1 c1].
  destruct (step_inv _ _ _ _ _ _ E)
    as [op_id op count pool slot avail x w1 d detected
        Hi Hl Hc Hp He Hn Hd Hend Hdef Hev Hp' Hc'].
  set (ev := make_event cid op op_id slot (Z.max (current_time c) avail)
               (current_time c1) (count + 1)
               (py_max_int 0 (minutes_between avail (current_time c)))
               (py_max_int 5 x)
               (fadd (py_max_int 5 x) (setup_time_minutes op)) detected) in *.
  assert (Hcnt1 : forall o n, operation_counts c1 !! o = Some n ->
                              n = visits o (base ++ [ev])).
  { intros o n Ho. rewrite Hc' in Ho. rewrite visits_snoc.
    change (operation_id ev) with op_id.
    destruct (decide (op_id = o)) as [<-|Hne].
    - rewrite lookup_insert_eq in Ho. inversion Ho.
      rewrite (Hcnt _ _ Hc), String.eqb_refl. reflexivity.
    - rewrite lookup_insert_ne in Ho by exact Hne.
      apply String.eqb_neq in Hne. rewrite Hne, (Hcnt _ _ Ho).
      simpl. lia. }
  destruct (IH _ _ _ _ _ Hcnt1 H) as (seg & Hseg & Hids & Hcounted).
  exists (ev :: seg). split; [|split].
  - rewrite Hseg, Hev, <- app_assoc. reflexivity.
  - constructor; [reflexivity|exact Hids].
  - simpl. split; [|split; [reflexivity|exact Hcounted]].
    change (operation_id ev) with op_id.
    rewrite visits_snoc. change (operation_id ev) with op_id.
    rewrite (Hcnt _ _ Hc), String.eqb_refl. reflexivity.
Qed.

Lemma counted_lookup seg :
  forall base i e,
    counted base seg -> seg !! i = Some e ->
    rework_count e = visits (operation_id e) (base ++ take (S i) seg)
    /\ is_rework e = (1 <? rework_count e).
Proof.
  induction seg as [|a seg IH]; intros base i e Hc Hl; [discriminate|].
  destruct Hc as (Hv & Hr & Hc).
  destruct i as [|i]; simpl in Hl.
  - inversion Hl; subst. change (take 1 (e :: seg)) with [e]. auto.
  - destruct (IH _ _ _ Hc Hl) as [Hv' Hr']. split; [|exact Hr'].
    change (take (S (S i)) (a :: seg)) with (a :: take (S i) seg).
    rewrite Hv'. rewrite <- app_assoc. reflexivity.
Qed.

(** X9 — [rework_count] is a running count: the [i]-th event of a case
    records how many of the first [i + 1] events of the case are at its
    stage, and is flagged [is_rework] exactly when that number exceeds
    one. *)
Theorem rework_count_is_visit_number `{G : Generators} (cfg : Config)
    (fuel : nat) (num_cases start_date seed : Z) (w : World) (log : list Row)
    (c : string) (i : nat) (e : Event) :
  setups_nonneg cfg ->
  generate_event_log cfg fuel num_cases start_date seed w = Ok log ->
  case_events c (log_events log) !! i = Some e ->
  rework_count e
  = visits (operation_id e) (take (S i) (case_events c (log_events log)))
  /\ is_rework e = (1 <? rework_count e).
Proof.
  intros Hcfg H Hi.
  assert (HQ : forall cid fuel st c st' c',
     op_idx c = 0 ->
     operation_counts c = initial_counts cfg ->
     defects_by_op c = [] ->
     case_loop cfg cid fuel st c = Ok (st', c') ->
     exists seg,
       events st' = events st ++ seg
       /\ Forall (fun e => case_id e = cid) seg
       /\ counted [] seg).
  { intros cid fuel' st c0 st' c' _ Hcounts _.
    apply case_loop_counted. intros op n Hn. rewrite Hcounts in Hn.
    apply initial_counts_zero in Hn. subst n. reflexivity. }
  destruct (generated_cases cfg (fun _ seg => counted [] seg)
              fuel num_cases start_date seed w log c Hcfg HQ H) as [E|Hc].
  - rewrite E in Hi. discriminate.
  - exact (counted_lookup _ [] _ _ Hc Hi).
Qed.

Lemma rework_count_is_visit_number_witness :
  exists log e,
    setups_nonneg catalog
    /\ @generate_event_log rework_generators catalog 20 1 default_start_date 42
         rework_world = Ok log
    /\ case_events "CASE-0001" (log_events log) !! 5%nat = Some e
    /\ rework_count e
       = visits (operation_id e)
           (take 6 (case_events "CASE-0001" (log_events log)))
    /\ is_rework e = (1 <? rework_count e).
Proof.
  eexists. eexists. split; [exact catalog_setups_nonneg|].
  split; [vm_compute; reflexivity|].
  split; [vm_compute; reflexivity|].
  apply (@rework_count_is_visit_number rework_generators catalog 20 1
           default_start_date 42 rework_world).
  - exact catalog_setups_nonneg.
  - vm_compute. reflexivity.
  - vm_compute. reflexivity.
Defined.

(** *** The standard flow *)

Lemma case_trace_no_detection cfg P cid idx t seg :
  case_trace cfg P cid idx t seg ->
  0 <= idx ->
  detections seg = 0 ->
  map operation_id seg = drop (Z.to_nat idx) (OPERATION_SEQUENCE cfg).
Proof.
  induction 1 as [idx t Hlen|idx t e idx' rest Hr Hl Hc HP Hs Hn Ht IH];
    intros Hidx Hdet.
  - symmetry. apply drop_ge. lia.
  - rewrite detections_cons in Hdet. pose proof (detections_nonneg rest).
    destruct (defect_detected e); simpl Z.b2z in Hdet; [lia|].
    subst idx'. rewrite (drop_S _ _ _ Hl). simpl. f_equal.
    replace (S (Z.to_nat idx)) with (Z.to_nat (idx + 1)) by lia.
    apply IH; lia.
Qed.

(** X10 — a case without a detected defect follows the standard flow:
    its events, in the order of the log, visit the stages of the
    sequence one after the other, each once. *)
Theorem undetected_case_follows_sequence `{G : Generators} (cfg : Config)
    (fuel : nat) (num_cases start_date seed : Z) (w : World) (log : list Row)
    (c : string) :
  setups_nonneg cfg ->
  generate_event_log cfg fuel num_cases start_date seed w = Ok log ->
  case_events c (log_events log) <> [] ->
  detections (case_events c (log_events log)) = 0 ->
  map operation_id (case_events c (log_events log)) = OPERATION_SEQUENCE cfg.
Proof.
  intros Hcfg H Hne Hdet.
  destruct (generated_log_structure cfg Hcfg _ _ _ _ _ _ H)
    as (st & _ & _ & _ & _ & Hcases).
  destruct (Hcases c) as [Hsame Hc]. rewrite Hsame in *.
  destruct Hc as [E|(i & t & _ & _ & Ht)]; [contradiction|].
  apply case_trace_no_detection in Ht; [exact Ht|lia|exact Hdet].
Qed.

Lemma undetected_case_follows_sequence_witness :
  exists log,
    setups_nonneg catalog
    /\ @generate_event_log quiet_generators catalog 6 2 default_start_date 42
         quiet_world = Ok log
    /\ case_events "CASE-0002" (log_events log) <> []
    /\ detections (case_events "CASE-0002" (log_events log)) = 0
    /\ map operation_id (case_events "CASE-0002" (log_events log))
       = OPERATION_SEQUENCE catalog.
Proof.
  eexists. split; [exact catalog_setups_nonneg|].
  split; [vm_compute; reflexivity|].
  split; [vm_compute; discriminate|].
  split; [vm_compute; reflexivity|].
  apply (@undetected_case_follows_sequence quiet_generators catalog 6 2
           default_start_date 42 quiet_world).
  - exact catalog_setups_nonneg.
  - vm_compute. reflexivity.
  - vm_compute. discriminate.
  - vm_compute. reflexivity.
Defined.

(** ** The order of the returned table *)

Lemma insert_sorted_perm x l : insert_sorted x l ≡ₚ x :: l.
Proof.
  induction l as [|y l IH]; simpl; [reflexivity|].
  destruct (key_le x y); [reflexivity|].
  rewrite IH. apply perm_swap.
Qed.

Lemma sort_values_perm l : sort_values l ≡ₚ l.
Proof.
  induction l as [|x l IH]; simpl; [reflexivity|].
  rewrite insert_sorted_perm, IH. reflexivity.
Qed.

Lemma strongly_sorted_lookup {A} (R : A -> A -> Prop) (l : list A) :
  StronglySorted R l ->
  forall i j a b, (i < j)%nat -> l !! i = Some a -> l !! j = Some b -> R a b.
Proof.
  induction 1 as [|x l Hs IH Hx]; intros i j a b Hij Ha Hb; [discriminate|].
  destruct j as [|j]; [lia|]. simpl in Hb.
  destruct i as [|i]; simpl in Ha.
  - inversion Ha; subst. rewrite Forall_forall in Hx. apply Hx.
    eapply list_elem_of_lookup_2; exact Hb.
  - apply (IH i j); [lia|exact Ha|exact Hb].
Qed.

(** X11 — the returned table holds exactly the emitted events, sorted:
    its rows are a permutation of the events in emission order, and of
    two rows the earlier one starts first or, at equal starts, has the
    case identifier that comes first. *)
Theorem log_is_sorted_emission `{G : Generators} (cfg : Config)
    (fuel : nat) (num_cases start_date seed : Z) (w : World) (log : list Row) :
  generate_event_log cfg fuel num_cases start_date seed w = Ok log ->
  exists st,
    simulate cfg fuel num_cases start_date seed w = Ok st
    /\ log_events log ≡ₚ events st
    /\ forall (i j : nat) (a b : Row),
         (i < j)%nat -> log !! i = Some a -> log !! j = Some b ->
         timestamp_start a < timestamp_start b
         \/ (timestamp_start a = timestamp_start b
             /\ String.leb (case_id a) (case_id b) = true).
Proof.
  intros H.
  destruct (generate_simulate cfg _ _ _ _ _ _ H) as (st & Hsim & ->).
  exists st. split; [exact Hsim|]. split.
  - rewrite log_events_with_duration. apply sort_values_perm.
  - intros i j a b Hij Ha Hb.
    rewrite list_lookup_fmap in Ha, Hb.
    destruct (sort_values (events st) !! i) as [ea|] eqn:Ea; [|discriminate].
    destruct (sort_values (events st) !! j) as [eb|] eqn:Eb; [|discriminate].
    inversion Ha; inversion Hb; subst a b. simpl.
    pose proof (strongly_sorted_lookup _ _ (sort_values_sorted (events st))
                  i j ea eb Hij Ea Eb) as Hk.
    unfold key_le in Hk. apply orb_true_iff in Hk.
    destruct Hk as [Hk|Hk].
    + left. apply Z.ltb_lt. exact Hk.
    + right. apply andb_true_iff in Hk. destruct Hk as [Hk1 Hk2].
      apply Z.eqb_eq in Hk1. auto.
Qed.

Lemma log_is_sorted_emission_witness :
  exists log,
    @generate_event_log quiet_generators catalog 6 2 default_start_date 42
      quiet_world = Ok log
    /\ exists st,
         @simulate quiet_generators catalog 6 2 default_start_date 42
           quiet_world = Ok st
         /\ log_events log ≡ₚ events st
         /\ forall (i j : nat) (a b : Row),
              (i < j)%nat -> log !! i = Some a -> log !! j = Some b ->
              timestamp_start a < timestamp_start b
              \/ (timestamp_start a = timestamp_start b
                  /\ String.leb (case_id a) (case_id b) = true).
Proof.
  eexists. split.
  - vm_compute. reflexivity.
  - apply (@log_is_sorted_emission quiet_generators catalog 6 2
             default_start_date 42 quiet_world).
    vm_compute. reflexivity.
Defined.

(** ** The aggregator on any table *)

Lemma string_leb_antisym a b :
  String.leb a b = true -> String.leb b a = true -> a = b.
Proof.
  intros H1 H2. apply Is_true_true in H1, H2.
  exact (anti_symm String.le a b H1 H2).
Qed.

Lemma insert_key_sorted k l :
  StronglySorted (fun a b => String.leb a b = true /\ a <> b) l ->
  StronglySorted (fun a b => String.leb a b = true /\ a <> b) (insert_key k l).
Proof.
  induction 1 as [|y l Hs IH Hy]; simpl.
  - constructor; constructor.
  - destruct (String.eqb k y) eqn:E; [constructor; assumption|].
    apply String.eqb_neq in E.
    destruct (String.leb k y) eqn:L.
    + constructor; [constructor; assumption|].
      constructor; [auto|].
      eapply Forall_impl; [exact Hy|].
      intros z [Hyz Hne]. simpl. split.
      * eapply string_leb_trans; eauto.
      * intros ->. apply E. apply string_leb_antisym; assumption.
    + constructor; [exact IH|].
      apply Forall_forall. intros z Hz.
      apply insert_key_elem in Hz. destruct Hz as [->|Hz].
      * split; [|congruence].
        destruct (String.leb_total k y) as [H'|H']; [congruence|exact H'].
      * rewrite Forall_forall in Hy. auto.
Qed.

Lemma group_keys_sorted rows :
  StronglySorted (fun a b => String.leb a b = true /\ a <> b) (group_keys rows).
Proof.
  unfold group_keys. induction rows as [|r rows IH]; simpl; [constructor|].
  apply insert_key_sorted, IH.
Qed.

Lemma strictly_sorted_NoDup (l : list string) :
  StronglySorted (fun a b => String.leb a b = true /\ a <> b) l -> NoDup l.
Proof.
  induction 1 as [|x l Hs IH Hx]; [apply NoDup_nil_2|].
  apply NoDup_cons_2; [|exact IH].
  intros Hin. rewrite Forall_forall in Hx. destruct (Hx _ Hin) as [_ Hne].
  congruence.
Qed.

Lemma group_rows_nonempty c rows :
  c ∈ group_keys rows -> group_rows c rows <> [].
Proof.
  intros Hc. apply group_keys_elem in Hc. destruct Hc as (r & Hr & Hid).
  assert (Hin : r ∈ group_rows c rows).
  { unfold group_rows. apply list_elem_of_filter. auto. }
  intros E. rewrite E in Hin. apply elem_of_nil in Hin. exact Hin.
Qed.

(** The summaries, column by column, for keys whose groups are not
    empty. *)
Lemma summaries_columns rows keys :
  (forall c, c ∈ keys -> group_rows c rows <> []) ->
  map lt_case_id (omap (fun c => aggregate c (group_rows c rows)) keys) = keys
  /\ map total_operations
       (omap (fun c => aggregate c (group_rows c rows)) keys)
     = map (fun c => Z.of_nat (length (group_rows c rows))) keys
  /\ map total_reworks
       (omap (fun c => aggregate c (group_rows c rows)) keys)
     = map (fun c => Z.of_nat (length (filter (fun r : Row => is_rework r = true)
                                         (group_rows c rows)))) keys.
Proof.
  induction keys as [|c keys IH]; intros Hne; [auto|].
  destruct IH as (IH1 & IH2 & IH3).
  { intros c' Hc'. apply Hne. right. exact Hc'. }
  assert (Hc : group_rows c rows <> []) by (apply Hne; left).
  change (omap (fun c => aggregate c (group_rows c rows)) (c :: keys))
    with (match aggregate c (group_rows c rows) with
          | Some s => s :: omap (fun c => aggregate c (group_rows c rows)) keys
          | None => omap (fun c => aggregate c (group_rows c rows)) keys
          end).
  unfold aggregate at 1 4 7.
  destruct (group_rows c rows) as [|r rest] eqn:Eg; [contradiction|].
  cbn [map lt_case_id total_operations total_reworks].
  rewrite IH1, IH2, IH3, Eg.
  split; [reflexivity|]. split; [reflexivity|].
  f_equal. apply (count_true_filter (fun x : Row => is_rework x) (r :: rest)).
Qed.

(** X12 — on any table, [calculate_case_lead_times] returns one summary
    per case identifier: the identifiers of the summaries are pairwise
    distinct, come in increasing order, and are exactly the case
    identifiers of the rows. *)
Theorem one_summary_per_case (event_log : list Row) :
  NoDup (map lt_case_id (calculate_case_lead_times event_log))
  /\ (forall (i j : nat) a b,
        (i < j)%nat ->
        map lt_case_id (calculate_case_lead_times event_log) !! i = Some a ->
        map lt_case_id (calculate_case_lead_times event_log) !! j = Some b ->
        String.leb a b = true)
  /\ forall c,
       c ∈ map lt_case_id (calculate_case_lead_times event_log)
       <-> exists r : Row, r ∈ event_log /\ case_id r = c.
Proof.
  unfold calculate_case_lead_times.
  destruct (summaries_columns event_log (group_keys event_log)
              (fun c => group_rows_nonempty c event_log)) as (-> & _ & _).
  split; [apply strictly_sorted_NoDup, group_keys_sorted|]. split.
  - intros i j a b Hij Ha Hb.
    exact (proj1 (strongly_sorted_lookup _ _ (group_keys_sorted event_log)
                    i j a b Hij Ha Hb)).
  - intros c. apply group_keys_elem.
Qed.

Lemma foldl_min_spec (l : list Z) :
  forall a,
    foldl Z.min a l <= a
    /\ Forall (fun x => foldl Z.min a l <= x) l
    /\ (foldl Z.min a l = a \/ foldl Z.min a l ∈ l).
Proof.
  induction l as [|x l IH]; intros a; simpl.
  - split; [lia|]. split; [constructor|auto].
  - destruct (IH (Z.min a x)) as (Hle & Hall & Hin).
    split; [lia|]. split; [constructor; [lia|exact Hall]|].
    destruct Hin as [E|Hin]; [|right; right; exact Hin].
    destruct (Z.min_spec a x) as [[_ Hm]|[_ Hm]].
    + left. rewrite E. exact Hm.
    + right. rewrite E, Hm. left.
Qed.

Lemma foldl_max_spec (l : list Z) :
  forall a,
    a <= foldl Z.max a l
    /\ Forall (fun x => x <= foldl Z.max a l) l
    /\ (foldl Z.max a l = a \/ foldl Z.max a l ∈ l).
Proof.
  induction l as [|x l IH]; intros a; simpl.
  - split; [lia|]. split; [constructor|auto].
  - destruct (IH (Z.max a x)) as (Hle & Hall & Hin).
    split; [lia|]. split; [constructor; [lia|exact Hall]|].
    destruct Hin as [E|Hin]; [|right; right; exact Hin].
    destruct (Z.max_spec a x) as [[_ Hm]|[_ Hm]].
    + right. rewrite E, Hm. left.
    + left. rewrite E. exact Hm.
Qed.

(** X13 — on any table, the start and end instants of a summary span
    its case: no row of the case starts before [start_time] or ends
    after [end_time], and both instants are those of rows of the case. *)
Theorem summary_spans_its_case (event_log : list Row) :
  Forall (fun s =>
    (forall r : Row, r ∈ event_log -> case_id r = lt_case_id s ->
       start_time s <= timestamp_start r /\ timestamp_end r <= end_time s)
    /\ (exists r : Row, r ∈ event_log /\ case_id r = lt_case_id s
                        /\ timestamp_start r = start_time s)
    /\ (exists r : Row, r ∈ event_log /\ case_id r = lt_case_id s
                        /\ timestamp_end r = end_time s))
    (calculate_case_lead_times event_log).
Proof.
  apply Forall_forall. intros s Hs. unfold calculate_case_lead_times in Hs.
  apply list_elem_of_omap in Hs. destruct Hs as (c & _ & Hagg).
  unfold aggregate in Hagg.
  destruct (group_rows c event_log) as [|r0 rest] eqn:Eg; [discriminate|].
  inversion Hagg; subst s; clear Hagg. cbn [lt_case_id start_time end_time].
  assert (Hgroup : forall r : Row,
            r ∈ r0 :: rest <-> case_id r = c /\ r ∈ event_log).
  { intros r. rewrite <- Eg. unfold group_rows.
    apply (list_elem_of_filter (fun x : Row => case_id x = c)). }
  destruct (foldl_min_spec (map (fun x : Row => timestamp_start x) rest)
              (timestamp_start r0)) as (Hmin0 & Hmin & Hmin_in).
  destruct (foldl_max_spec (map (fun x : Row => timestamp_end x) rest)
              (timestamp_end r0)) as (Hmax0 & Hmax & Hmax_in).
  rewrite Forall_forall in Hmin, Hmax.
  split; [|split].
  - intros r Hr Hc. assert (Hin : r ∈ r0 :: rest) by (apply Hgroup; auto).
    apply elem_of_cons in Hin. destruct Hin as [->|Hin]; [lia|].
    split.
    + apply Hmin. apply list_elem_of_fmap. exists r. auto.
    + apply Hmax. apply list_elem_of_fmap. exists r. auto.
  - destruct Hmin_in as [E|Hin].
    + exists r0. destruct (proj1 (Hgroup r0)) as [Hc Hr]; [left|]. auto.
    + apply list_elem_of_fmap in Hin. destruct Hin as (r & E & Hr).
      exists r. destruct (proj1 (Hgroup r)) as [Hc Hr']; [right; exact Hr|].
      auto.
  - destruct Hmax_in as [E|Hin].
    + exists r0. destruct (proj1 (Hgroup r0)) as [Hc Hr]; [left|]. auto.
    + apply list_elem_of_fmap in Hin. destruct Hin as (r & E & Hr).
      exists r. destruct (proj1 (Hgroup r)) as [Hc Hr']; [right; exact Hr|].
      auto.
Qed.

(** *** Nothing is counted twice *)

Section Partition.

Variable P : Row -> Prop.
Context `{!forall r, Decision (P r)}.

Local Abbreviation per_key rows keys :=
  (foldr Z.add 0
     (map (fun c => Z.of_nat (length (filter P (group_rows c rows)))) keys)).

Lemma per_key_cons_notin (r : Row) rows keys :
  case_id r ∉ keys -> per_key (r :: rows) keys = per_key rows keys.
Proof.
  induction keys as [|c keys IH]; intros Hn; [reflexivity|].
  apply not_elem_of_cons in Hn. destruct Hn as [Hne Hn].
  simpl. rewrite (IH Hn). unfold group_rows at 1.
  rewrite filter_cons_False by exact Hne. reflexivity.
Qed.

Lemma per_key_cons_in (r : Row) rows keys :
  NoDup keys -> case_id r ∈ keys ->
  per_key (r :: rows) keys
  = per_key rows keys + (if decide (P r) then 1 else 0).
Proof.
  induction keys as [|c keys IH]; intros Hnd Hin.
  - apply elem_of_nil in Hin. contradiction.
  - apply NoDup_cons in Hnd. destruct Hnd as [Hc Hnd]. simpl.
    destruct (decide (case_id r = c)) as [E|E].
    + subst c. rewrite (per_key_cons_notin _ _ _ Hc).
      unfold group_rows at 1. rewrite filter_cons_True by reflexivity.
      fold (group_rows (case_id r) rows). rewrite filter_cons.
      destruct (decide (P r)); simpl length; lia.
    + apply elem_of_cons in Hin. destruct Hin as [Hin|Hin]; [congruence|].
      rewrite (IH Hnd Hin). unfold group_rows at 1.
      rewrite filter_cons_False by exact E.
      fold (group_rows c rows). lia.
Qed.

Lemma per_key_total rows keys :
  NoDup keys ->
  (forall r : Row, r ∈ rows -> case_id r ∈ keys) ->
  per_key rows keys = Z.of_nat (length (filter P rows)).
Proof.
  intros Hnd. induction rows as [|r rows IH]; intros Hall.
  - clear. induction keys as [|c keys IH]; simpl; [reflexivity|].
    simpl in IH. rewrite IH. reflexivity.
  - rewrite per_key_cons_in; [|exact Hnd|apply Hall; left].
    rewrite IH by (intros r' Hr'; apply Hall; right; exact Hr').
    rewrite filter_cons. destruct (decide (P r)); simpl length; lia.
Qed.

End Partition.

Lemma filter_True_length {A} (l : list A) :
  length (filter (fun _ => True) l) = length l.
Proof.
  induction l as [|x l IH]; [reflexivity|].
  rewrite filter_cons_True by exact I. simpl. rewrite IH. reflexivity.
Qed.

(** X14 — on any table, the summaries count every row once: the
    operation counts of the summaries add up to the number of rows, and
    their rework counts to the number of rows flagged as rework. *)
Theorem summaries_count_every_row_once (event_log : list Row) :
  foldr Z.add 0 (map total_operations (calculate_case_lead_times event_log))
  = Z.of_nat (length event_log)
  /\ foldr Z.add 0 (map total_reworks (calculate_case_lead_times event_log))
     = Z.of_nat (length (filter (fun r : Row => is_rework r = true) event_log)).
Proof.
  unfold calculate_case_lead_times.
  destruct (summaries_columns event_log (group_keys event_log)
              (fun c => group_rows_nonempty c event_log)) as (_ & -> & ->).
  assert (Hnd : NoDup (group_keys event_log))
    by apply strictly_sorted_NoDup, group_keys_sorted.
  assert (Hall : forall r : Row, r ∈ event_log ->
                   case_id r ∈ group_keys event_log).
  { intros r Hr. apply group_keys_elem. exists r. auto. }
  split.
  - rewrite <- (filter_True_length event_log).
    rewrite <- (per_key_total (fun _ => True) event_log _ Hnd Hall).
    f_equal. apply map_ext. intros c. rewrite filter_True_length. reflexivity.
  - exact (per_key_total (fun r : Row => is_rework r = true)
             event_log _ Hnd Hall).
Qed.

(** *** On a generated log *)

Lemma generate_positive `{G : Generators} cfg fuel n start seed w log :
  generate_event_log cfg fuel n start seed w = Ok log -> 1 <= n.
Proof.
  intros H. destruct (Z_lt_le_dec n 1) as [Hn|Hn]; [exfalso|exact Hn].
  unfold generate_event_log, simulate in H.
  replace (Z.to_nat n) with 0%nat in H by lia.
  inv_bind H. inv_bind E. simpl in E. inversion E; subst a.
  simpl in H. discriminate.
Qed.

Lemma generated_case_count `{G : Generators} (cfg : Config)
    (fuel : nat) (num_cases start_date seed : Z) (w : World) (log : list Row) :
  setups_nonneg cfg ->
  OPERATION_SEQUENCE cfg <> [] ->
  generate_event_log cfg fuel num_cases start_date seed w = Ok log ->
  Z.of_nat (length (group_keys log)) = num_cases.
Proof.
  intros Hcfg Hseq H.
  pose proof (generate_positive _ _ _ _ _ _ _ H) as Hn.
  destruct (generated_log_structure cfg Hcfg _ _ _ _ _ _ H)
    as (st & Hsim & Hlog & Hmade & Htraces & Hcases).
  assert (Hperm : group_keys log
            ≡ₚ map (fun i => case_id_of (Pos.of_succ_nat i))
                 (seq 0 (Z.to_nat num_cases))).
  { apply NoDup_Permutation.
    - apply strictly_sorted_NoDup, group_keys_sorted.
    - apply NoDup_fmap_2; [|apply NoDup_seq].
      intros a b Hab. apply case_id_of_inj in Hab.
      apply SuccNat2Pos.inj in Hab. exact Hab.
    - intros c. rewrite group_keys_elem, list_elem_of_fmap. split.
      + intros (r & Hr & Hc).
        destruct (Hcases c) as [Hsame Hdisj].
        assert (Hin : row_event r ∈ case_events c (log_events log)).
        { unfold case_events. apply list_elem_of_filter. split; [exact Hc|].
          unfold log_events. apply list_elem_of_fmap. exists r. auto. }
        rewrite Hsame in Hin.
        destruct Hdisj as [E|(i & t & Hi & Hci & _)].
        * rewrite E in Hin. apply elem_of_nil in Hin. contradiction.
        * exists i. split; [exact Hci|]. apply elem_of_seq. lia.
      + intros (i & -> & Hi). apply elem_of_seq in Hi.
        destruct (Htraces (Pos.of_succ_nat i)) as (t & Ht); [lia|].
        destruct (Hcases (case_id_of (Pos.of_succ_nat i))) as [Hsame _].
        rewrite <- Hsame in Ht.
        inversion Ht as [idx t' Hlen|idx t' e idx' rest Hr Hl Hc HP Hs Hnx Hrest].
        * exfalso. destruct (OPERATION_SEQUENCE cfg); [contradiction|].
          simpl in Hlen. lia.
        * assert (Hin : e ∈ case_events (case_id_of (Pos.of_succ_nat i))
                            (log_events log)).
          { match goal with Heq : _ = case_events _ _ |- _ =>
              rewrite <- Heq end. left. }
          unfold case_events in Hin. apply list_elem_of_filter in Hin.
          destruct Hin as [Hce Hin]. unfold log_events in Hin.
          apply list_elem_of_fmap in Hin. destruct Hin as (r & -> & Hr').
          exists r. auto. }
  apply Permutation_length in Hperm. rewrite Hperm.
  rewrite length_map, length_seq. lia.
Qed.

(** X15 — on a generated log the aggregator returns exactly one summary
    per simulated case: [num_cases] summaries (the sequence not being
    empty, setup times not being negative). *)
Theorem one_summary_per_simulated_case `{G : Generators} (cfg : Config)
    (fuel : nat) (num_cases start_date seed : Z) (w : World) (log : list Row) :
  setups_nonneg cfg ->
  OPERATION_SEQUENCE cfg <> [] ->
  generate_event_log cfg fuel num_cases start_date seed w = Ok log ->
  Z.of_nat (length (calculate_case_lead_times log)) = num_cases.
Proof.
  intros Hcfg Hseq H.
  rewrite <- (length_map lt_case_id).
  unfold calculate_case_lead_times.
  destruct (summaries_columns log (group_keys log)
              (fun c => group_rows_nonempty c log)) as (-> & _ & _).
  eapply generated_case_count; eauto.
Qed.

Lemma one_summary_per_simulated_case_witness :
  exists log,
    setups_nonneg catalog
    /\ OPERATION_SEQUENCE catalog <> []
    /\ @generate_event_log quiet_generators catalog 6 2 default_start_date 42
         quiet_world = Ok log
    /\ Z.of_nat (length (calculate_case_lead_times log)) = 2.
Proof.
  eexists. split; [exact catalog_setups_nonneg|].
  split; [discriminate|]. split.
  - vm_compute. reflexivity.
  - apply (@one_summary_per_simulated_case quiet_generators catalog 6 2
             default_start_date 42 quiet_world).
    + exact catalog_setups_nonneg.
    + discriminate.
    + vm_compute. reflexivity.
Defined.

(** ** The snapshots of work in progress ([calculate_wip_by_step]) *)

Lemma td_of_int_minutes_Ok n d :
  td_of_int_minutes n = Ok d -> d = n * us_per_minute.
Proof.
  unfold td_of_int_minutes.
  destruct ((td_min <=? n * us_per_minute) && (n * us_per_minute <=? td_max));
    intros H; inversion H. reflexivity.
Qed.

Lemma td_of_int_minutes_range n :
  td_min <= n * us_per_minute <= td_max ->
  td_of_int_minutes n = Ok (n * us_per_minute).
Proof.
  intros [H1 H2]. unfold td_of_int_minutes.
  apply Z.leb_le in H1, H2. rewrite H1, H2. reflexivity.
Qed.

Section Instants.

Context `{I : InstantLibrary}.

Lemma time_points_S fuel n e cur :
  time_points (S fuel) n e cur
  = if cur <=? e then
      d ← td_of_int_minutes n;
      next ← ts_add cur d;
      rest ← time_points fuel n e next;
      Ok (cur :: rest)
    else Ok [].
Proof. reflexivity. Qed.

Lemma time_points_0 n e cur :
  time_points 0 n e cur = if cur <=? e then OutOfFuel else Ok [].
Proof. reflexivity. Qed.

Lemma time_points_past fuel n e cur :
  e < cur -> time_points fuel n e cur = Ok [].
Proof.
  intros H. assert (E : (cur <=? e) = false) by (apply Z.leb_gt; exact H).
  destruct fuel; [rewrite time_points_0|rewrite time_points_S];
    rewrite E; reflexivity.
Qed.

Lemma time_points_spec n e :
  forall fuel cur pts,
    time_points fuel n e cur = Ok pts ->
    forall (i : nat) t, pts !! i = Some t ->
      t = cur + Z.of_nat i * (n * us_per_minute) /\ t <= e.
Proof.
  induction fuel as [|fuel IH]; intros cur pts H i t Hi.
  - rewrite time_points_0 in H. destruct (cur <=? e); [discriminate|].
    inversion H; subst. discriminate.
  - rewrite time_points_S in H. destruct (cur <=? e) eqn:E.
    + inv_bind H. inv_bind H. inv_bind H. inversion H; subst pts; clear H.
      apply td_of_int_minutes_Ok in E0. subst a.
      apply ts_add_sum in E1. subst a0.
      destruct i as [|i]; simpl in Hi.
      * inversion Hi; subst. apply Z.leb_le in E. lia.
      * destruct (IH _ _ E2 _ _ Hi) as [Ht Hle]. split; [lia|exact Hle].
    + inversion H; subst. discriminate.
Qed.

(** The loop ends within the quotient of the span by the interval, plus
    one, iterations; it raises only when the interval cannot be built
    or the library's addition raises at an instant of the grid. *)
Lemma time_points_grid n e :
  0 < n * us_per_minute ->
  forall fuel cur,
    cur <= e ->
    (e - cur) / (n * us_per_minute) < Z.of_nat fuel ->
    match time_points fuel n e cur with
    | Ok pts => Z.of_nat (length pts) = (e - cur) / (n * us_per_minute) + 1
    | Raise _ =>
        td_max < n * us_per_minute
        \/ exists i x,
             0 <= i <= (e - cur) / (n * us_per_minute)
             /\ ts_add (cur + i * (n * us_per_minute)) (n * us_per_minute)
                = Raise x
    | OutOfFuel => False
    end.
Proof.
  intros Hstep.
  induction fuel as [|fuel IH]; intros cur Hcur Hfuel.
  - exfalso. assert (0 <= (e - cur) / (n * us_per_minute))
      by (apply Z.div_pos; lia). lia.
  - assert (Hq : 0 <= (e - cur) / (n * us_per_minute))
      by (apply Z.div_pos; lia).
    rewrite time_points_S.
    assert (E : (cur <=? e) = true) by (apply Z.leb_le; exact Hcur).
    rewrite E. unfold td_of_int_minutes.
    destruct ((td_min <=? n * us_per_minute) && (n * us_per_minute <=? td_max))
      eqn:Etd.
    2:{ simpl. left. apply andb_false_iff in Etd. unfold td_min in *.
        destruct Etd as [Htd|Htd]; [apply Z.leb_gt in Htd; lia|].
        apply Z.leb_gt in Htd. exact Htd. }
    simpl.
    destruct (ts_add cur (n * us_per_minute)) as [next|x|] eqn:Ea; simpl.
    + apply ts_add_sum in Ea. subst next.
      destruct (Z_le_gt_dec (cur + n * us_per_minute) e) as [Hnext|Hnext].
      * assert (Hdiv : (e - (cur + n * us_per_minute)) / (n * us_per_minute)
                       = (e - cur) / (n * us_per_minute) - 1).
        { replace (e - (cur + n * us_per_minute))
            with ((e - cur) + (-1) * (n * us_per_minute)) by lia.
          rewrite Z.div_add by lia. lia. }
        specialize (IH (cur + n * us_per_minute) Hnext).
        rewrite Hdiv in IH. specialize (IH ltac:(lia)).
        destruct (time_points fuel n e (cur + n * us_per_minute))
          as [rest|x|]; simpl.
        -- rewrite Nat2Z.inj_succ. lia.
        -- destruct IH as [IH|(i & y & Hi & Hy)]; [left; exact IH|].
           right. exists (i + 1), y. split; [lia|].
           replace (cur + (i + 1) * (n * us_per_minute))
             with (cur + n * us_per_minute + i * (n * us_per_minute)) by lia.
           exact Hy.
        -- exact IH.
      * rewrite time_points_past by lia. simpl.
        assert ((e - cur) / (n * us_per_minute) = 0)
          by (apply Z.div_small; lia).
        lia.
    + right. exists 0, x. split; [lia|].
      replace (cur + 0 * (n * us_per_minute)) with cur by lia. exact Ea.
    + exfalso. exact (ts_add_returns _ _ Ea).
Qed.

Lemma time_points_zero e :
  forall fuel cur, cur <= e -> time_points fuel 0 e cur = OutOfFuel.
Proof.
  induction fuel as [|fuel IH]; intros cur Hcur;
    assert (E : (cur <=? e) = true) by (apply Z.leb_le; exact Hcur).
  - rewrite time_points_0, E. reflexivity.
  - rewrite time_points_S, E.
    change (td_of_int_minutes 0) with (@Ok Z 0). simpl.
    rewrite ts_add_zero. simpl. rewrite (IH cur Hcur). reflexivity.
Qed.

End Instants.

Lemma earliest_before_latest (r : Row) (rest : list Row) :
  Exists (fun x : Row => timestamp_start x <= timestamp_end x) (r :: rest) ->
  earliest_start r rest <= latest_end r rest.
Proof.
  intros Hex. apply Exists_exists in Hex. destruct Hex as (x & Hx & Hord).
  unfold earliest_start, latest_end.
  destruct (foldl_min_spec (map (fun x : Row => timestamp_start x) rest)
              (timestamp_start r)) as (Hmin0 & Hmin & _).
  destruct (foldl_max_spec (map (fun x : Row => timestamp_end x) rest)
              (timestamp_end r)) as (Hmax0 & Hmax & _).
  rewrite Forall_forall in Hmin, Hmax.
  apply elem_of_cons in Hx. destruct Hx as [->|Hx]; [lia|].
  assert (timestamp_start x ∈ map (fun x : Row => timestamp_start x) rest)
    by (apply list_elem_of_fmap; exists x; auto).
  assert (timestamp_end x ∈ map (fun x : Row => timestamp_end x) rest)
    by (apply list_elem_of_fmap; exists x; auto).
  pose proof (Hmin _ H). pose proof (Hmax _ H0). lia.
Qed.

(** X16 — with a zero interval [calculate_wip_by_step] never returns:
    on any table holding a row that does not end before it starts, the
    loop over the instants runs out of every amount of fuel. *)
Theorem wip_zero_interval_never_returns `{I : InstantLibrary} (cfg : Config)
    (fuel : nat) (event_log : list Row) :
  Exists (fun x : Row => timestamp_start x <= timestamp_end x) event_log ->
  calculate_wip_by_step cfg fuel event_log 0 = OutOfFuel.
Proof.
  intros Hex. destruct event_log as [|r rest]; [inversion Hex|].
  unfold calculate_wip_by_step.
  rewrite time_points_zero by (apply earliest_before_latest; exact Hex).
  reflexivity.
Qed.

Lemma wip_zero_interval_never_returns_witness :
  exists log,
    @generate_event_log quiet_generators catalog 6 2 default_start_date 42
      quiet_world = Ok log
    /\ Exists (fun x : Row => timestamp_start x <= timestamp_end x) log
    /\ @calculate_wip_by_step nanosecond_instants catalog 1000 log 0
       = OutOfFuel.
Proof.
  eexists. split; [vm_compute; reflexivity|].
  split; [apply Exists_cons_hd; vm_compute; discriminate|].
  apply (@wip_zero_interval_never_returns nanosecond_instants catalog 1000).
  apply Exists_cons_hd. vm_compute. discriminate.
Defined.

(** X17 — with a positive interval the loop of [calculate_wip_by_step]
    over the instants ends within the quotient of the span by the
    interval, plus one, iterations. When the function returns, it
    returns one snapshot per instant of the grid that starts at the
    earliest start and ends at the latest end: their number is that
    quotient plus one, and the [i]-th snapshot is taken [i] intervals
    after the earliest start. It raises only when the interval is not a
    [timedelta] or the table library refuses to add the interval to an
    instant of the grid. *)
Theorem wip_snapshots_on_grid `{I : InstantLibrary} (cfg : Config)
    (fuel : nat) (r : Row) (rest : list Row) (time_interval_minutes : Z) :
  0 < time_interval_minutes ->
  earliest_start r rest <= latest_end r rest ->
  (latest_end r rest - earliest_start r rest)
    / (time_interval_minutes * us_per_minute) < Z.of_nat fuel ->
  match calculate_wip_by_step cfg fuel (r :: rest) time_interval_minutes with
  | Ok rows =>
      Z.of_nat (length rows)
      = (latest_end r rest - earliest_start r rest)
          / (time_interval_minutes * us_per_minute) + 1
      /\ forall (i : nat) row, rows !! i = Some row ->
           wip_timestamp row
           = earliest_start r rest
             + Z.of_nat i * (time_interval_minutes * us_per_minute)
  | Raise _ =>
      td_max < time_interval_minutes * us_per_minute
      \/ exists i x,
           0 <= i <= (latest_end r rest - earliest_start r rest)
                       / (time_interval_minutes * us_per_minute)
           /\ ts_add (earliest_start r rest
                      + i * (time_interval_minutes * us_per_minute))
                (time_interval_minutes * us_per_minute) = Raise x
  | OutOfFuel => False
  end.
Proof.
  intros Hn Hspan Hfuel.
  assert (Hstep : 0 < time_interval_minutes * us_per_minute)
    by (unfold us_per_minute; lia).
  pose proof (time_points_grid time_interval_minutes (latest_end r rest)
                Hstep fuel (earliest_start r rest) Hspan Hfuel) as Hg.
  unfold calculate_wip_by_step.
  destruct (time_points fuel time_interval_minutes (latest_end r rest)
              (earliest_start r rest)) as [pts|x|] eqn:Hpts; simpl.
  - split.
    + rewrite length_map. exact Hg.
    + intros i row Hi. rewrite list_lookup_fmap in Hi.
      destruct (pts !! i) as [t|] eqn:Et; [|discriminate].
      inversion Hi; subst row. simpl.
      exact (proj1 (time_points_spec _ _ _ _ _ Hpts _ _ Et)).
  - exact Hg.
  - exact Hg.
Qed.

Lemma wip_snapshots_on_grid_witness :
  exists r rest,
    @generate_event_log quiet_generators catalog 6 2 default_start_date 42
      quiet_world = Ok (r :: rest)
    /\ 0 < 60
    /\ earliest_start r rest <= latest_end r rest
    /\ (latest_end r rest - earliest_start r rest) / (60 * us_per_minute)
       < Z.of_nat 100
    /\ exists rows,
         @calculate_wip_by_step nanosecond_instants catalog 100 (r :: rest) 60
         = Ok rows
         /\ map wip_timestamp rows
            = [default_start_date + 20 * us_per_minute;
               default_start_date + 80 * us_per_minute;
               default_start_date + 140 * us_per_minute;
               default_start_date + 200 * us_per_minute]
         /\ Z.of_nat (length rows)
            = (latest_end r rest - earliest_start r rest)
                / (60 * us_per_minute) + 1
         /\ forall (i : nat) row, rows !! i = Some row ->
              wip_timestamp row
              = earliest_start r rest + Z.of_nat i * (60 * us_per_minute).
Proof.
  eexists. eexists. split; [vm_compute; reflexivity|].
  split; [lia|]. split; [vm_compute; discriminate|].
  split; [vm_compute; reflexivity|].
  eexists. split; [vm_compute; reflexivity|].
  split; [vm_compute; reflexivity|].
  match goal with
  | |- Z.of_nat (length ?rows) = (latest_end ?r ?rest - _) / _ + 1 /\ _ =>
      pose proof (@wip_snapshots_on_grid nanosecond_instants catalog 100
                    r rest 60) as Hw;
      assert (Hc : @calculate_wip_by_step nanosecond_instants catalog 100
                     (r :: rest) 60 = Ok rows)
        by (vm_compute; reflexivity)
  end.
  rewrite Hc in Hw. apply Hw.
  - lia.
  - vm_compute. discriminate.
  - vm_compute. reflexivity.
Defined.

(** *** What a snapshot records *)

Lemma string_length_app a b :
  String.length (a +:+ b) = (String.length a + String.length b)%nat.
Proof.
  induction a as [|c a IH]; [reflexivity|].
  change (S (String.length (a +:+ b))
          = S (String.length a + String.length b)).
  rewrite IH. reflexivity.
Qed.

Lemma string_app_inj_r s : forall a b, a +:+ s = b +:+ s -> a = b.
Proof.
  induction a as [|c a IH]; intros [|c' b] H.
  - reflexivity.
  - exfalso. apply (f_equal String.length) in H.
    rewrite !string_length_app in H. simpl in H. lia.
  - exfalso. apply (f_equal String.length) in H.
    rewrite !string_length_app in H. simpl in H. lia.
  - change (String c (a +:+ s) = String c' (b +:+ s)) in H.
    inversion H. f_equal. apply IH. assumption.
Qed.

Lemma in_progress_key_inj a b : in_progress_key a = in_progress_key b -> a = b.
Proof. apply string_app_inj_r. Qed.

Lemma dict_lookup_set {V} (d : list (string * V)) k v k' :
  dict_lookup (dict_set d k v) k'
  = if String.eqb k k' then Some v else dict_lookup d k'.
Proof.
  induction d as [|[k0 v0] d IH]; simpl.
  - destruct (String.eqb k k'); reflexivity.
  - destruct (String.eqb k0 k) eqn:E0; simpl.
    + apply String.eqb_eq in E0. subst k0.
      destruct (String.eqb k k'); reflexivity.
    + rewrite IH. destruct (String.eqb k0 k') eqn:E1; [|reflexivity].
      apply String.eqb_eq in E1. subst k'. rewrite String.eqb_sym, E0.
      reflexivity.
Qed.

Lemma wip_fold_lookup (f : string -> Z) ids :
  forall d x,
    x ∈ ids ->
    dict_lookup
      (foldl (fun d op_id => dict_set d (in_progress_key op_id) (f op_id)) d ids)
      (in_progress_key x)
    = Some (f x).
Proof.
  assert (Hkeep : forall ids d x v,
    dict_lookup d (in_progress_key x) = Some v -> v = f x ->
    dict_lookup
      (foldl (fun d op_id => dict_set d (in_progress_key op_id) (f op_id)) d ids)
      (in_progress_key x) = Some (f x)).
  { clear ids. induction ids as [|a ids IH]; intros d x v Hd Hv; simpl.
    - rewrite Hd, Hv. reflexivity.
    - destruct (String.eqb (in_progress_key a) (in_progress_key x)) eqn:E.
      + apply (IH _ _ (f a)).
        * rewrite dict_lookup_set, E. reflexivity.
        * apply String.eqb_eq, in_progress_key_inj in E. congruence.
      + apply (IH _ _ v); [|exact Hv].
        rewrite dict_lookup_set, E. exact Hd. }
  induction ids as [|a ids IH]; intros d x Hx.
  - apply elem_of_nil in Hx. contradiction.
  - simpl. destruct (decide (x = a)) as [->|Hne].
    + apply (Hkeep _ _ _ (f a)); [|reflexivity].
      rewrite dict_lookup_set, String.eqb_refl. reflexivity.
    + apply IH. apply elem_of_cons in Hx. destruct Hx; [contradiction|auto].
Qed.

Lemma wip_at_lookup cfg log t op_id :
  op_id ∈ OPERATION_SEQUENCE cfg ->
  dict_lookup (wip_in_progress (wip_at cfg log t)) (in_progress_key op_id)
  = Some (in_progress op_id t log).
Proof.
  intros Hin. unfold wip_at. cbn [wip_in_progress].
  apply (wip_fold_lookup (fun op_id => in_progress op_id t log)). exact Hin.
Qed.

Lemma wip_at_total cfg log t :
  total_wip (wip_at cfg log t)
  = foldl Z.add 0
      (map (fun op_id => in_progress op_id t log) (OPERATION_SEQUENCE cfg)).
Proof.
  unfold wip_at. cbn [total_wip]. f_equal.
  apply map_ext_in. intros op_id Hin. apply list_elem_of_In in Hin.
  rewrite (wip_fold_lookup (fun op_id => in_progress op_id t log) _ _ _ Hin).
  reflexivity.
Qed.

Lemma in_progress_nonneg op_id t log : 0 <= in_progress op_id t log.
Proof. unfold in_progress. lia. Qed.

Lemma wip_rows `{I : InstantLibrary} cfg fuel log interval rows :
  calculate_wip_by_step cfg fuel log interval = Ok rows ->
  forall row, row ∈ rows -> exists t, row = wip_at cfg log t.
Proof.
  unfold calculate_wip_by_step. destruct log as [|r rest]; [discriminate|].
  intros H. inv_bind H. inversion H; subst rows.
  intros row Hrow. apply list_elem_of_fmap in Hrow.
  destruct Hrow as (t & -> & _). exists t. reflexivity.
Qed.

(** X18 — a snapshot of a generated log never shows a stage over
    capacity: for every stage of the sequence, the snapshot records the
    number of rows in progress at the stage at its instant, and that
    number is at most the stage's workstation count. *)
Theorem wip_snapshots_within_capacity `{G : Generators}
    `{I : InstantLibrary} (cfg : Config)
    (fuel : nat) (num_cases start_date seed : Z) (w : World) (log : list Row)
    (wip_fuel : nat) (time_interval_minutes : Z) (rows : list WipRow) :
  NoDup (map id (OPERATIONS cfg)) ->
  setups_nonneg cfg ->
  generate_event_log cfg fuel num_cases start_date seed w = Ok log ->
  calculate_wip_by_step cfg wip_fuel log time_interval_minutes = Ok rows ->
  Forall (fun row =>
    forall op_id op,
      op_id ∈ OPERATION_SEQUENCE cfg ->
      get_operation_by_id cfg op_id = Ok op ->
      dict_lookup (wip_in_progress row) (in_progress_key op_id)
      = Some (in_progress op_id (wip_timestamp row) log)
      /\ 0 <= in_progress op_id (wip_timestamp row) log
           <= Z.of_nat (workstation_count op)) rows.
Proof.
  intros Hnd Hcfg H Hwip. apply Forall_forall. intros row Hrow.
  destruct (wip_rows _ _ _ _ _ Hwip row Hrow) as (t & ->).
  intros op_id op Hin Hop. split; [apply wip_at_lookup; exact Hin|].
  split; [apply in_progress_nonneg|].
  eapply in_progress_within_capacity; eauto.
Qed.

Lemma wip_snapshots_within_capacity_witness :
  exists log rows,
    NoDup (map id (OPERATIONS catalog))
    /\ setups_nonneg catalog
    /\ @generate_event_log quiet_generators catalog 6 2 default_start_date 42
         quiet_world = Ok log
    /\ @calculate_wip_by_step nanosecond_instants catalog 100 log 60 = Ok rows
    /\ Forall (fun row =>
         forall op_id op,
           op_id ∈ OPERATION_SEQUENCE catalog ->
           get_operation_by_id catalog op_id = Ok op ->
           dict_lookup (wip_in_progress row) (in_progress_key op_id)
           = Some (in_progress op_id (wip_timestamp row) log)
           /\ 0 <= in_progress op_id (wip_timestamp row) log
                <= Z.of_nat (workstation_count op)) rows.
Proof.
  eexists. eexists. split; [exact catalog_ids_NoDup|].
  split; [exact catalog_setups_nonneg|].
  split; [vm_compute; reflexivity|].
  split; [vm_compute; reflexivity|].
  apply (@wip_snapshots_within_capacity quiet_generators
           nanosecond_instants catalog 6 2
           default_start_date 42 quiet_world _ 100 60).
  - exact catalog_ids_NoDup.
  - exact catalog_setups_nonneg.
  - vm_compute. reflexivity.
  - vm_compute. reflexivity.
Defined.

(** X19 — with the catalogue of the repository, the total work in
    progress of a snapshot of a generated log is the sum of the numbers
    in progress at the six stages and never exceeds twelve, the number
    of workstations of the plant. *)
Theorem wip_total_at_most_twelve `{G : Generators} `{I : InstantLibrary}
    (fuel : nat) (num_cases start_date seed : Z) (w : World) (log : list Row)
    (wip_fuel : nat) (time_interval_minutes : Z) (rows : list WipRow) :
  generate_event_log catalog fuel num_cases start_date seed w = Ok log ->
  calculate_wip_by_step catalog wip_fuel log time_interval_minutes = Ok rows ->
  Forall (fun row =>
    total_wip row
    = in_progress "OP1" (wip_timestamp row) log
      + in_progress "OP2" (wip_timestamp row) log
      + in_progress "OP3" (wip_timestamp row) log
      + in_progress "OP4" (wip_timestamp row) log
      + in_progress "OP5" (wip_timestamp row) log
      + in_progress "OP6" (wip_timestamp row) log
    /\ 0 <= total_wip row <= 12) rows.
Proof.
  intros H Hwip. apply Forall_forall. intros row Hrow.
  destruct (wip_rows _ _ _ _ _ Hwip row Hrow) as (t & ->).
  rewrite wip_at_total.
  change (OPERATION_SEQUENCE catalog)
    with ["OP1"; "OP2"; "OP3"; "OP4"; "OP5"; "OP6"].
  cbn [map foldl wip_timestamp wip_at].
  pose proof (fun op_id op =>
    in_progress_within_capacity catalog fuel num_cases start_date seed w log
      op_id op t catalog_ids_NoDup catalog_setups_nonneg H) as Hcap.
  pose proof (Hcap "OP1" _ eq_refl) as H1.
  pose proof (Hcap "OP2" _ eq_refl) as H2.
  pose proof (Hcap "OP3" _ eq_refl) as H3.
  pose proof (Hcap "OP4" _ eq_refl) as H4.
  pose proof (Hcap "OP5" _ eq_refl) as H5.
  pose proof (Hcap "OP6" _ eq_refl) as H6.
  cbv [workstation_count] in H1, H2, H3, H4, H5, H6.
  pose proof (in_progress_nonneg "OP1" t log).
  pose proof (in_progress_nonneg "OP2" t log).
  pose proof (in_progress_nonneg "OP3" t log).
  pose proof (in_progress_nonneg "OP4" t log).
  pose proof (in_progress_nonneg "OP5" t log).
  pose proof (in_progress_nonneg "OP6" t log).
  lia.
Qed.

Lemma wip_total_at_most_twelve_witness :
  exists log rows,
    @generate_event_log quiet_generators catalog 6 2 default_start_date 42
      quiet_world = Ok log
    /\ @calculate_wip_by_step nanosecond_instants catalog 100 log 60 = Ok rows
    /\ Forall (fun row =>
         total_wip row
         = in_progress "OP1" (wip_timestamp row) log
           + in_progress "OP2" (wip_timestamp row) log
           + in_progress "OP3" (wip_timestamp row) log
           + in_progress "OP4" (wip_timestamp row) log
           + in_progress "OP5" (wip_timestamp row) log
           + in_progress "OP6" (wip_timestamp row) log
         /\ 0 <= total_wip row <= 12) rows.
Proof.
  eexists. eexists. split; [vm_compute; reflexivity|].
  split; [vm_compute; reflexivity|].
  apply (@wip_total_at_most_twelve quiet_generators nanosecond_instants 6 2
           default_start_date 42 quiet_world _ 100 60).
  - vm_compute. reflexivity.
  - vm_compute. reflexivity.
Defined.

(** ** The sources of rework ([identify_rework_sources]) *)

Lemma visits_nonneg s l : 0 <= visits s l.
Proof. unfold visits. lia. Qed.

Lemma redirects_to_nonneg s l : 0 <= redirects_to s l.
Proof.
  induction l as [|a l IH]; [simpl; lia|].
  rewrite redirects_to_cons. destruct l as [|b l]; [lia|].
  destruct (defect_detected a && String.eqb (operation_id b) s);
    simpl Z.b2z; lia.
Qed.

Lemma counted_facts seg :
  forall base,
    counted base seg ->
    Forall (fun e => 1 <= rework_count e
                     /\ is_rework e = (1 <? rework_count e)) seg.
Proof.
  induction seg as [|a seg IH]; intros base Hc; [constructor|].
  destruct Hc as (Hv & Hr & Hc). constructor; [|eapply IH; exact Hc].
  split; [|exact Hr]. rewrite Hv, visits_snoc, String.eqb_refl.
  pose proof (visits_nonneg (operation_id a) base). simpl Z.b2z. lia.
Qed.

(** Among the events of a case, exactly the first visit to a stage has
    the count one. *)
Lemma counted_first_once (op_id : string) seg :
  forall base,
    counted base seg ->
    Z.of_nat (length (filter (fun e => rework_count e = 1
                                       /\ operation_id e = op_id) seg))
    = if (visits op_id base =? 0) && (0 <? visits op_id seg) then 1 else 0.
Proof.
  induction seg as [|a seg IH]; intros base Hc.
  - change (visits op_id []) with 0. rewrite andb_false_r. reflexivity.
  - destruct Hc as (Hv & Hr & Hc). specialize (IH _ Hc).
    rewrite visits_snoc in IH. rewrite visits_snoc in Hv.
    rewrite String.eqb_refl in Hv. simpl Z.b2z in Hv.
    rewrite visits_cons. rewrite filter_cons.
    pose proof (visits_nonneg op_id base) as Hb.
    pose proof (visits_nonneg (operation_id a) base) as Hb'.
    pose proof (visits_nonneg op_id seg) as Hs.
    destruct (String.eqb (operation_id a) op_id) eqn:E; simpl Z.b2z in *.
    + apply String.eqb_eq in E. rewrite E in *.
      assert (E1 : (visits op_id base + 1 =? 0) = false)
        by (apply Z.eqb_neq; lia).
      rewrite E1 in IH. simpl in IH.
      assert (E2 : (0 <? 1 + visits op_id seg) = true)
        by (apply Z.ltb_lt; lia).
      rewrite E2, andb_true_r.
      destruct (decide (rework_count a = 1 /\ op_id = op_id)) as [[D _]|D].
      * assert (E3 : (visits op_id base =? 0) = true)
          by (apply Z.eqb_eq; lia).
        rewrite E3. simpl length. lia.
      * assert (E3 : (visits op_id base =? 0) = false).
        { apply Z.eqb_neq. intros Hz. apply D. split; [lia|reflexivity]. }
        rewrite E3. exact IH.
    + apply String.eqb_neq in E.
      destruct (decide (rework_count a = 1 /\ operation_id a = op_id))
        as [[_ D]|_]; [contradiction|].
      rewrite Z.add_0_r in IH. rewrite Z.add_0_l. exact IH.
Qed.

Lemma filter_log_events_length (Q : Event -> Prop)
    `{!forall e, Decision (Q e)} (rows : list Row) :
  length (filter (fun r : Row => Q (row_event r)) rows)
  = length (filter Q (log_events rows)).
Proof.
  induction rows as [|r rows IH]; [reflexivity|].
  change (log_events (r :: rows)) with (row_event r :: log_events rows).
  destruct (decide (Q (row_event r))) as [Hq|Hq].
  - rewrite (filter_cons_True Q) by exact Hq.
    rewrite (filter_cons_True (fun r : Row => Q (row_event r))) by exact Hq.
    simpl. rewrite IH. reflexivity.
  - rewrite (filter_cons_False Q) by exact Hq.
    rewrite (filter_cons_False (fun r : Row => Q (row_event r))) by exact Hq.
    exact IH.
Qed.

(** Every case of a generated log is a trace of the loop whose events
    carry the running count. *)
Lemma generated_case_facts `{G : Generators} (cfg : Config)
    fuel num_cases start_date seed w log c :
  setups_nonneg cfg ->
  generate_event_log cfg fuel num_cases start_date seed w = Ok log ->
  case_events c (log_events log) = []
  \/ ((exists t, case_trace cfg (event_made cfg) c 0 t
                   (case_events c (log_events log)))
      /\ counted [] (case_events c (log_events log))).
Proof.
  intros Hcfg H.
  apply (generated_cases cfg
           (fun cid seg => (exists t, case_trace cfg (event_made cfg) cid 0 t seg)
                           /\ counted [] seg)
           fuel num_cases start_date seed w log c Hcfg); [|exact H].
  intros cid fuel' st c0 st' c' Hidx Hcounts _ Hloop.
  destruct (case_loop_trace cfg (event_made cfg) (step_event_made cfg)
              _ _ _ _ _ _ ltac:(rewrite Hidx; lia) Hloop)
    as (_ & seg & Hseg & Htr).
  destruct (case_loop_counted cfg cid fuel' st c0 st' c' []) as
    (seg' & Hseg' & Hids & Hcnt); [|exact Hloop|].
  { intros op n Hn. rewrite Hcounts in Hn.
    apply initial_counts_zero in Hn. subst n. reflexivity. }
  assert (seg' = seg) by (rewrite Hseg in Hseg'; eapply app_inv_head; eauto).
  subst seg'. exists seg. split; [exact Hseg|]. split; [exact Hids|].
  split; [|exact Hcnt]. rewrite Hidx in Htr. eauto.
Qed.

Lemma row_in_case (log : list Row) (r : Row) :
  r ∈ log -> row_event r ∈ case_events (case_id r) (log_events log).
Proof.
  intros Hr. unfold case_events. apply list_elem_of_filter.
  split; [reflexivity|]. unfold log_events. apply list_elem_of_fmap.
  exists r. auto.
Qed.

Lemma generated_rows_counted `{G : Generators} (cfg : Config)
    fuel num_cases start_date seed w log :
  setups_nonneg cfg ->
  generate_event_log cfg fuel num_cases start_date seed w = Ok log ->
  Forall (fun r : Row => 1 <= rework_count r
                         /\ is_rework r = (1 <? rework_count r)) log.
Proof.
  intros Hcfg H. apply Forall_forall. intros r Hr.
  pose proof (row_in_case log r Hr) as Hin.
  destruct (generated_case_facts cfg _ _ _ _ _ _ (case_id r) Hcfg H)
    as [E|[_ Hc]].
  - rewrite E in Hin. apply elem_of_nil in Hin. contradiction.
  - apply counted_facts in Hc. rewrite Forall_forall in Hc.
    exact (Hc _ Hin).
Qed.

Lemma passes_split (l : list Row) :
  Forall (fun r : Row => 1 <= rework_count r
                         /\ is_rework r = (1 <? rework_count r)) l ->
  Z.of_nat (length l)
  = Z.of_nat (length (filter (fun r : Row => rework_count r = 1) l))
    + Z.of_nat (length (filter (fun r : Row => is_rework r = true) l)).
Proof.
  induction 1 as [|r l [Hr1 Hr2] _ IH]; [reflexivity|].
  rewrite !filter_cons.
  destruct (decide (rework_count r = 1)) as [D1|D1];
    destruct (decide (is_rework r = true)) as [D2|D2];
    simpl length; try lia.
  - exfalso. rewrite Hr2 in D2. apply Z.ltb_lt in D2. lia.
  - exfalso. apply D2. rewrite Hr2. apply Z.ltb_lt. lia.
Qed.

Section ReworkSources.

Context `{L : TableLibrary}.

Lemma rework_rows_inv cfg log :
  forall ids rows,
    rework_rows cfg ids log = Ok rows ->
    map rr_operation_id rows = ids
    /\ Forall (fun row =>
         exists op, row = rework_row (rr_operation_id row) op log) rows.
Proof.
  induction ids as [|op_id ids IH]; intros rows H; simpl in H.
  - inversion H; subst. split; [reflexivity|constructor].
  - inv_bind H. destruct log as [|r rest]; [discriminate|].
    inv_bind H. inversion H; subst rows; clear H.
    destruct (IH _ E0) as [Hids Hall]. split.
    + simpl. rewrite Hids. reflexivity.
    + constructor; [|exact Hall]. exists a. reflexivity.
Qed.

Lemma rework_rows_total cfg log :
  log <> [] ->
  forall ids,
    Forall (fun op_id => exists op, get_operation_by_id cfg op_id = Ok op) ids ->
    exists rows, rework_rows cfg ids log = Ok rows.
Proof.
  intros Hne. induction 1 as [|op_id ids [op Hop] _ [rows IH]]; simpl.
  - eexists. reflexivity.
  - rewrite Hop. simpl. destruct log as [|r rest]; [contradiction|].
    rewrite IH. simpl. eexists. reflexivity.
Qed.

End ReworkSources.

(** X20 — on a generated log every pass at a stage is either a first
    pass or a rework pass, and a stage that was visited at all has a
    first pass, so that the rework rate of a visited stage is never
    replaced by the fallback zero. *)
Theorem rework_passes_split `{G : Generators} `{L : TableLibrary}
    (cfg : Config) (fuel : nat) (num_cases start_date seed : Z) (w : World)
    (log : list Row) (rows : list ReworkRow) :
  setups_nonneg cfg ->
  generate_event_log cfg fuel num_cases start_date seed w = Ok log ->
  identify_rework_sources cfg log = Ok rows ->
  Forall (fun row =>
    total_passes row = first_passes row + rework_passes row
    /\ (0 < total_passes row -> 0 < first_passes row)) rows.
Proof.
  intros Hcfg H Hrows.
  destruct (rework_rows_inv _ _ _ _ Hrows) as [_ Hall].
  eapply Forall_impl; [exact Hall|]. cbv beta.
  intros row (op & ->). generalize (rr_operation_id row). intros op_id.
  cbn [total_passes first_passes rework_passes rework_row].
  pose proof (generated_rows_counted cfg _ _ _ _ _ _ Hcfg H) as Hcnt.
  set (op_events := filter (fun r : Row => operation_id r = op_id) log).
  assert (Hcnt' : Forall (fun r : Row => 1 <= rework_count r
                            /\ is_rework r = (1 <? rework_count r)) op_events).
  { apply Forall_forall. intros r Hr. unfold op_events in Hr.
    apply list_elem_of_filter in Hr. destruct Hr as [_ Hr].
    rewrite Forall_forall in Hcnt. auto. }
  split; [apply passes_split; exact Hcnt'|].
  intros Hpos.
  destruct op_events as [|r rest] eqn:Eo; [simpl in Hpos; lia|].
  assert (Hr : r ∈ op_events) by (rewrite Eo; left).
  unfold op_events in Hr. apply list_elem_of_filter in Hr.
  destruct Hr as [Hop Hr].
  pose proof (row_in_case log r Hr) as Hin.
  destruct (generated_case_facts cfg _ _ _ _ _ _ (case_id r) Hcfg H)
    as [E|[_ Hc]].
  { rewrite E in Hin. apply elem_of_nil in Hin. contradiction. }
  pose proof (counted_first_once op_id _ _ Hc) as Hfirst.
  change (visits op_id []) with 0 in Hfirst. rewrite Z.eqb_refl in Hfirst.
  assert (Hv : (0 <? visits op_id (case_events (case_id r) (log_events log)))
               = true).
  { apply Z.ltb_lt. unfold visits.
    assert (Hm : row_event r ∈ filter (fun e => operation_id e = op_id)
                   (case_events (case_id r) (log_events log)))
      by (apply list_elem_of_filter; auto).
    destruct (filter (fun e => operation_id e = op_id)
                (case_events (case_id r) (log_events log)));
      [apply elem_of_nil in Hm; contradiction|simpl; lia]. }
  rewrite Hv in Hfirst. simpl in Hfirst.
  destruct (filter (fun e => rework_count e = 1 /\ operation_id e = op_id)
              (case_events (case_id r) (log_events log)))
    as [|e1 l1] eqn:Ef; [simpl in Hfirst; lia|].
  assert (He1 : e1 ∈ filter (fun e => rework_count e = 1
                                      /\ operation_id e = op_id)
                  (case_events (case_id r) (log_events log)))
    by (rewrite Ef; left).
  apply list_elem_of_filter in He1. destruct He1 as [[Hrc He1op] He1].
  unfold case_events in He1. apply list_elem_of_filter in He1.
  destruct He1 as [_ He1]. unfold log_events in He1.
  apply list_elem_of_fmap in He1. destruct He1 as (r1 & -> & Hr1).
  assert (Hm : r1 ∈ filter (fun x : Row => rework_count x = 1)
                 (filter (fun x : Row => operation_id x = op_id) log)).
  { apply list_elem_of_filter. split; [exact Hrc|].
    apply list_elem_of_filter. auto. }
  fold op_events in Hm. rewrite Eo in Hm.
  destruct (filter (fun x : Row => rework_count x = 1) (r :: rest));
    [apply elem_of_nil in Hm; contradiction|simpl; lia].
Qed.

Lemma rework_passes_split_witness :
  exists log rows,
    setups_nonneg catalog
    /\ @generate_event_log rework_generators catalog 20 1 default_start_date 42
         rework_world = Ok log
    /\ @identify_rework_sources plain_library catalog log = Ok rows
    /\ Forall (fun row =>
         total_passes row = first_passes row + rework_passes row
         /\ (0 < total_passes row -> 0 < first_passes row)) rows.
Proof.
  eexists. eexists. split; [exact catalog_setups_nonneg|].
  split; [vm_compute; reflexivity|].
  split; [vm_compute; reflexivity|].
  eapply (@rework_passes_split rework_generators plain_library catalog 20 1
            default_start_date 42 rework_world).
  - exact catalog_setups_nonneg.
  - vm_compute. reflexivity.
  - vm_compute. reflexivity.
Defined.

Lemma foldr_add_ones {A} (f : A -> Z) (l : list A) :
  (forall x, x ∈ l -> f x = 1) ->
  foldr Z.add 0 (map f l) = Z.of_nat (length l).
Proof.
  induction l as [|x l IH]; intros H; [reflexivity|].
  simpl foldr. rewrite (H x) by left.
  rewrite IH by (intros y Hy; apply H; right; exact Hy).
  simpl length. lia.
Qed.

Lemma catalog_stage_known op_id :
  op_id ∈ OPERATION_SEQUENCE catalog ->
  op_id = "OP1" \/ op_id = "OP2" \/ op_id = "OP3"
  \/ op_id = "OP4" \/ op_id = "OP5" \/ op_id = "OP6".
Proof.
  change (OPERATION_SEQUENCE catalog)
    with ["OP1"; "OP2"; "OP3"; "OP4"; "OP5"; "OP6"].
  rewrite !elem_of_cons, elem_of_nil. tauto.
Qed.

Lemma catalog_sequence_known :
  Forall (fun op_id => exists op, get_operation_by_id catalog op_id = Ok op)
    (OPERATION_SEQUENCE catalog).
Proof.
  change (OPERATION_SEQUENCE catalog)
    with ["OP1"; "OP2"; "OP3"; "OP4"; "OP5"; "OP6"].
  repeat (constructor; [eexists; reflexivity|]). constructor.
Qed.

(** A case of the catalogue visits every stage. *)
Lemma catalog_trace_visits_all P cid t evs op_id :
  case_trace catalog P cid 0 t evs ->
  op_id ∈ OPERATION_SEQUENCE catalog ->
  1 <= visits op_id evs.
Proof.
  intros Ht Hin.
  pose proof (catalog_trace_visits P cid 0 t evs Ht ltac:(lia)) as Hv.
  cbv zeta in Hv. eval_closed.
  destruct Hv as (H1 & H2 & H3 & H4 & H5 & H6).
  pose proof (redirects_to_nonneg "OP1" evs).
  pose proof (redirects_to_nonneg "OP2" evs).
  pose proof (redirects_to_nonneg "OP3" evs).
  pose proof (redirects_to_nonneg "OP4" evs).
  pose proof (redirects_to_nonneg "OP5" evs).
  apply catalog_stage_known in Hin.
  destruct Hin as [->|[->|[->|[->|[->| ->]]]]]; lia.
Qed.

(** X21 — with the catalogue of the repository, on a generated log
    [identify_rework_sources] returns one row per stage of the sequence,
    every stage has exactly [num_cases] first passes, and its rework
    rate is therefore the rounded percentage of its rework passes
    relative to the number of cases. *)
Theorem rework_rate_is_per_case `{G : Generators} `{L : TableLibrary}
    (fuel : nat) (num_cases start_date seed : Z) (w : World) (log : list Row) :
  generate_event_log catalog fuel num_cases start_date seed w = Ok log ->
  exists rows,
    identify_rework_sources catalog log = Ok rows
    /\ map rr_operation_id rows = OPERATION_SEQUENCE catalog
    /\ Forall (fun row =>
         first_passes row = num_cases
         /\ actual_rework_rate_pct row
            = py_round2 (fmul (div_Z (rework_passes row) num_cases)
                           (of_Z 100))) rows.
Proof.
  intros H.
  pose proof (generate_positive _ _ _ _ _ _ _ H) as Hn.
  assert (Hne : log <> []).
  { destruct (generate_simulate catalog _ _ _ _ _ _ H) as (st & Hsim & ->).
    unfold generate_event_log in H. rewrite Hsim in H. simpl in H.
    unfold finalize in H. destruct (events st) as [|e evs]; [discriminate|].
    intros E. apply (f_equal (@length Row)) in E.
    rewrite length_map, sort_values_length in E. discriminate. }
  destruct (rework_rows_total catalog log Hne _ catalog_sequence_known)
    as (rows & Hrows).
  exists rows. split; [exact Hrows|].
  destruct (rework_rows_inv _ _ _ _ Hrows) as [Hids Hall].
  split; [exact Hids|].
  assert (Hseq : Forall (fun row => rr_operation_id row
                                    ∈ OPERATION_SEQUENCE catalog) rows).
  { apply Forall_forall. intros row Hrow. rewrite <- Hids.
    apply list_elem_of_fmap. exists row. auto. }
  apply Forall_forall. intros row Hrow.
  rewrite Forall_forall in Hall, Hseq.
  destruct (Hall _ Hrow) as (op & Erow). specialize (Hseq _ Hrow).
  revert Erow Hseq. generalize (rr_operation_id row). intros op_id -> Hin.
  assert (Hfirst : first_passes (rework_row op_id op log) = num_cases).
  { cbn [first_passes rework_row]. rewrite list_filter_filter.
    rewrite <- (per_key_total
                  (fun r : Row => rework_count r = 1 /\ operation_id r = op_id)
                  log (group_keys log)).
    - rewrite foldr_add_ones.
      + eapply generated_case_count; eauto.
        * exact catalog_setups_nonneg.
        * discriminate.
      + intros c Hc. apply group_rows_nonempty in Hc.
        pose proof (filter_log_events_length
                      (fun e => rework_count e = 1 /\ operation_id e = op_id)
                      (group_rows c log)) as Hlen.
        rewrite group_rows_events in Hlen.
        etransitivity; [apply (f_equal Z.of_nat); exact Hlen|].
        destruct (generated_case_facts catalog _ _ _ _ _ _ c
                    catalog_setups_nonneg H) as [E|[(t & Ht) Hcnt]].
        * exfalso. apply Hc. rewrite <- group_rows_events in E.
          unfold log_events in E. apply map_eq_nil in E. exact E.
        * rewrite (counted_first_once op_id _ _ Hcnt).
          change (visits op_id []) with 0. rewrite Z.eqb_refl.
          pose proof (catalog_trace_visits_all _ _ _ _ _ Ht Hin) as Hv.
          assert (E : (0 <? visits op_id (case_events c (log_events log)))
                      = true) by (apply Z.ltb_lt; lia).
          rewrite E. reflexivity.
    - apply strictly_sorted_NoDup, group_keys_sorted.
    - intros r Hr. apply group_keys_elem. exists r. auto. }
  split; [exact Hfirst|].
  change (actual_rework_rate_pct (rework_row op_id op log))
    with (py_round2
            (if 0 <? first_passes (rework_row op_id op log)
             then fmul (div_Z (rework_passes (rework_row op_id op log))
                          (first_passes (rework_row op_id op log)))
                    (of_Z 100)
             else of_Z 0)).
  rewrite Hfirst.
  assert (E : (0 <? num_cases) = true) by (apply Z.ltb_lt; lia).
  rewrite E. reflexivity.
Qed.

Lemma rework_rate_is_per_case_witness :
  exists log,
    @generate_event_log rework_generators catalog 20 1 default_start_date 42
      rework_world = Ok log
    /\ exists rows,
         @identify_rework_sources plain_library catalog log = Ok rows
         /\ map rr_operation_id rows = OPERATION_SEQUENCE catalog
         /\ Forall (fun row =>
              first_passes row = 1
              /\ actual_rework_rate_pct row
                 = py_round2 (fmul (div_Z (rework_passes row) 1)
                                (of_Z 100))) rows.
Proof.
  eexists. split; [vm_compute; reflexivity|].
  apply (@rework_rate_is_per_case rework_generators plain_library 20 1
           default_start_date 42 rework_world).
  vm_compute. reflexivity.
Defined.

(** ** The wait of an event *)

Lemma fdiv_sign s x m e :
  has_sign s x -> has_sign s (fdiv x (S754_finite false m e)).
Proof.
  unfold fdiv, SFdiv.
  destruct x as [sx|sx| |sx mx ex]; simpl; intros H; try contradiction; subst.
  - destruct s; reflexivity.
  - destruct s; reflexivity.
  - unfold SFdiv_core_binary.
    set (e' := Z.min _ _).
    set (m' := match ex - e - e' with
               | Z.pos _ => _ | 0 => _ | Z.neg _ => _ end).
    assert (Hm : 0 <= m').
    { subst m'. destruct (ex - e - e'); try lia.
      rewrite Z.shiftl_mul_pow2 by lia.
      apply Z.mul_nonneg_nonneg; [lia|]. apply Z.pow_nonneg. lia. }
    destruct (Z.div_eucl m' (Z.pos m)) as [q r] eqn:E.
    replace (xorb s false) with s by (destruct s; reflexivity).
    apply binary_round_aux_sign.
    pose proof (Z.div_pos m' (Z.pos m) Hm ltac:(lia)) as Hq.
    unfold Z.div in Hq. rewrite E in Hq. exact Hq.
Qed.

Lemma py_max_int_negative x : has_sign true x -> py_max_int 0 x = of_Z 0.
Proof.
  unfold py_max_int. change (of_Z 0) with (S754_zero false).
  destruct x as [s|s| |s m e]; simpl; intros H; try contradiction; subst;
    reflexivity.
Qed.

Lemma minutes_between_negative a b :
  a < b -> has_sign true (minutes_between a b).
Proof.
  intros Hab. unfold minutes_between.
  assert (H60 : exists m e, of_Z 60 = S754_finite false m e)
    by (vm_compute; eauto).
  destruct H60 as (m & e & ->). apply fdiv_sign.
  destruct (a - b) as [|p|p] eqn:E; [lia|lia|].
  simpl. apply div_pos_sign; lia.
Qed.

(** The wait computed from the pool is the gap between the cursor and
    the start. *)
Lemma wait_gap avail cur :
  py_max_int 0 (minutes_between avail cur)
  = py_max_int 0 (minutes_between (Z.max cur avail) cur).
Proof.
  destruct (Z_lt_le_dec cur avail) as [H|H].
  - rewrite Z.max_r by lia. reflexivity.
  - rewrite Z.max_l by lia.
    assert (Hzero : py_max_int 0 (minutes_between cur cur) = of_Z 0).
    { unfold minutes_between. rewrite Z.sub_diag. vm_compute. reflexivity. }
    rewrite Hzero.
    destruct (Z.eq_dec avail cur) as [->|Hne]; [exact Hzero|].
    apply py_max_int_negative, minutes_between_negative. lia.
Qed.

Lemma case_loop_waits `{G : Generators} cfg cid fuel :
  forall st c st' c',
    case_loop cfg cid fuel st c = Ok (st', c') ->
    exists seg,
      events st' = events st ++ seg
      /\ Forall (fun e => case_id e = cid) seg
      /\ waits_recorded (current_time c) seg.
Proof.
  induction fuel as [|fuel IH]; intros st c st' c' H; simpl in H;
    destruct (op_idx c <? Z.of_nat (length (OPERATION_SEQUENCE cfg)));
    try discriminate;
    try (inversion H; subst; exists []; rewrite app_nil_r;
         split; [reflexivity|]; split; [constructor|exact I]).
  inv_bind H. destruct a as [st1 c1].
  destruct (step_inv _ _ _ _ _ _ E)
    as [op_id op count pool slot avail x w1 d detected
        Hi Hl Hc Hp He Hn Hd Hend Hdef Hev Hp' Hc'].
  destruct (IH _ _ _ _ H) as (seg & Hseg & Hids & Hw).
  eexists (_ :: seg). split; [|split].
  - rewrite Hseg, Hev, <- app_assoc. reflexivity.
  - constructor; [reflexivity|exact Hids].
  - simpl. split; [|exact Hw]. rewrite wait_gap. reflexivity.
Qed.

Lemma waits_recorded_lookup seg :
  forall cursor (i : nat) a b,
    waits_recorded cursor seg ->
    seg !! i = Some a -> seg !! S i = Some b ->
    wait_time_minutes b
    = py_round2 (py_max_int 0
                   (minutes_between (timestamp_start b) (timestamp_end a))).
Proof.
  induction seg as [|x seg IH]; intros cursor i a b Hw Ha Hb; [discriminate|].
  destruct Hw as [_ Hw]. destruct i as [|i]; simpl in Ha, Hb.
  - inversion Ha; subst x. destruct seg as [|y seg]; [discriminate|].
    simpl in Hb. inversion Hb; subst y. apply Hw.
  - eapply IH; eauto.
Qed.

(** X22 — the wait recorded by an event that is not the first of its
    case is the gap, in minutes, between the end of the previous event
    of the case and its own start, rounded to two decimals. *)
Theorem wait_is_gap_to_previous_event `{G : Generators} (cfg : Config)
    (fuel : nat) (num_cases start_date seed : Z) (w : World) (log : list Row)
    (c : string) (i : nat) (a b : Event) :
  setups_nonneg cfg ->
  generate_event_log cfg fuel num_cases start_date seed w = Ok log ->
  case_events c (log_events log) !! i = Some a ->
  case_events c (log_events log) !! S i = Some b ->
  wait_time_minutes b
  = py_round2 (py_max_int 0
                 (minutes_between (timestamp_start b) (timestamp_end a))).
Proof.
  intros Hcfg H Ha Hb.
  assert (HQ : forall cid fuel st c st' c',
     op_idx c = 0 ->
     operation_counts c = initial_counts cfg ->
     defects_by_op c = [] ->
     case_loop cfg cid fuel st c = Ok (st', c') ->
     exists seg,
       events st' = events st ++ seg
       /\ Forall (fun e => case_id e = cid) seg
       /\ exists t, waits_recorded t seg).
  { intros cid fuel' st c0 st' c' _ _ _ Hloop.
    destruct (case_loop_waits _ _ _ _ _ _ _ Hloop) as (seg & H1 & H2 & H3).
    exists seg. eauto. }
  destruct (generated_cases cfg (fun _ seg => exists t, waits_recorded t seg)
              fuel num_cases start_date seed w log c Hcfg HQ H)
    as [E|(t & Hw)].
  - rewrite E in Ha. discriminate.
  - eapply waits_recorded_lookup; eauto.
Qed.

Lemma wait_is_gap_to_previous_event_witness :
  exists log a b,
    setups_nonneg catalog
    /\ @generate_event_log quiet_generators catalog 6 2 default_start_date 42
         quiet_world = Ok log
    /\ case_events "CASE-0002" (log_events log) !! 2%nat = Some a
    /\ case_events "CASE-0002" (log_events log) !! 3%nat = Some b
    /\ wait_time_minutes b
       = py_round2 (py_max_int 0
                      (minutes_between (timestamp_start b) (timestamp_end a))).
Proof.
  eexists. eexists. eexists. split; [exact catalog_setups_nonneg|].
  split; [vm_compute; reflexivity|].
  split; [vm_compute; reflexivity|]. split; [vm_compute; reflexivity|].
  eapply (@wait_is_gap_to_previous_event quiet_generators catalog 6 2
            default_start_date 42 quiet_world _ "CASE-0002" 2).
  - exact catalog_setups_nonneg.
  - vm_compute. reflexivity.
  - vm_compute. reflexivity.
  - vm_compute. reflexivity.
Defined.

(** ** Where a detection sends the case *)

Lemma dict_set_elem {V} (d : list (string * V)) k0 v0 k v :
  (k, v) ∈ dict_set d k0 v0 -> (k, v) ∈ d \/ (k = k0 /\ v = v0).
Proof.
  induction d as [|[k1 v1] d IH]; simpl.
  - intros H. apply list_elem_of_singleton in H. inversion H. auto.
  - destruct (String.eqb k1 k0) eqn:E.
    + apply String.eqb_eq in E. subst k1. intros H.
      apply elem_of_cons in H. destruct H as [H|H].
      * inversion H. auto.
      * left. right. exact H.
    + intros H. apply elem_of_cons in H. destruct H as [H|H].
      * left. rewrite H. left.
      * destruct (IH H) as [H'|H']; [left; right; exact H'|auto].
Qed.

Lemma handle_defects_flags `{G : Generators}
    cfg op op_id idx defects w detected idx' defects' w' :
  handle_defects cfg op op_id idx defects w = Ok (detected, idx', defects', w') ->
  forall k, (k, true) ∈ defects' ->
    (k, true) ∈ defects \/ (k = op_id /\ op_id <> "OP5").
Proof.
  unfold handle_defects.
  destruct (String.eqb op_id "OP5") eqn:E.
  - destruct (scan_defects defects w) as [[prev|] w1] eqn:Es.
    + intros H. inv_bind H. inversion H; subst. intros k Hk.
      apply dict_set_elem in Hk. destruct Hk as [Hk|[_ Hk]];
        [auto|discriminate].
    + intros H; inversion H; subst. auto.
  - apply String.eqb_neq in E.
    destruct (draw_random w) as [u w1].
    destruct (fltb u (defect_rate op)); intros H; inversion H; subst; auto.
    intros k Hk. apply dict_set_elem in Hk.
    destruct Hk as [Hk|[-> _]]; auto.
Qed.

Lemma case_loop_targets `{G : Generators} cfg cid fuel :
  forall st c st' c' base,
    0 <= op_idx c ->
    flags_visited base (defects_by_op c) ->
    case_loop cfg cid fuel st c = Ok (st', c') ->
    exists seg,
      events st' = events st ++ seg
      /\ Forall (fun e => case_id e = cid) seg
      /\ targets_visited cfg base seg
      /\ (op_idx c < Z.of_nat (length (OPERATION_SEQUENCE cfg)) ->
          exists b rest,
            seg = b :: rest
            /\ OPERATION_SEQUENCE cfg !! Z.to_nat (op_idx c)
               = Some (operation_id b)).
Proof.
  induction fuel as [|fuel IH]; intros st c st' c' base Hidx Hfl H; simpl in H;
    destruct (op_idx c <? Z.of_nat (length (OPERATION_SEQUENCE cfg))) eqn:Elt;
    try discriminate;
    try (inversion H; subst; exists []; rewrite app_nil_r;
         split; [reflexivity|]; split; [constructor|]; split; [exact I|];
         apply Z.ltb_ge in Elt; intros; lia).
  inv_bind H. destruct a as [st1 c1].
  destruct (step_inv _ _ _ _ _ _ E)
    as [op_id op count pool slot avail x w1 d detected
        Hi Hl Hc Hp He Hn Hd Hend Hdef Hev Hp' Hc'].
  destruct (seq_index_nonneg _ _ _ Hidx Hi) as [Hlt Hlk].
  set (ev := make_event cid op op_id slot (Z.max (current_time c) avail)
               (current_time c1) (count + 1)
               (py_max_int 0 (minutes_between avail (current_time c)))
               (py_max_int 5 x)
               (fadd (py_max_int 5 x) (setup_time_minutes op)) detected) in *.
  pose proof (handle_defects_flags _ _ _ _ _ _ _ _ _ _ Hdef) as Hflags.
  pose proof (handle_defects_inv _ _ _ _ _ _ _ _ _ _ Hdef) as Hinv.
  assert (Hidx1 : 0 <= op_idx c1) by (destruct Hinv as [[_ ?]|(_ & _ & ? & _)]; lia).
  assert (Hfl1 : flags_visited (base ++ [ev]) (defects_by_op c1)).
  { intros k Hk. destruct (Hflags k Hk) as [Hk'|[-> Hne]].
    - destruct (Hfl k Hk') as (e & He' & Hop & Hne). exists e.
      split; [apply elem_of_app; left; exact He'|auto].
    - exists ev. split; [apply elem_of_app; right; left|]. auto. }
  destruct (IH _ _ _ _ _ Hidx1 Hfl1 H) as (seg & Hseg & Hids & Htv & Hhead).
  exists (ev :: seg). split; [|split; [|split]].
  - rewrite Hseg, Hev, <- app_assoc. reflexivity.
  - constructor; [reflexivity|exact Hids].
  - simpl. split; [|exact Htv]. intros Hdet.
    change (defect_detected ev) with detected in Hdet. subst detected.
    destruct Hinv as [[Hf _]|(_ & _ & Hr & prev & Hprev & Hgi)];
      [discriminate|].
    replace (op_idx c1 - 1 + 1) with (op_idx c1) in Hr, Hgi by lia.
    destruct (Hhead ltac:(lia)) as (b & rest & -> & Hb).
    apply list_index_range in Hgi. destruct Hgi as [_ Hgi].
    rewrite Hgi in Hb. inversion Hb as [Hb'].
    apply list_elem_of_In in Hprev.
    destruct (Hfl _ Hprev) as (e & He' & Hop & Hne).
    exists e. split; [exact He'|]. rewrite Hop. auto.
  - intros _. exists ev, seg. split; [reflexivity|exact Hlk].
Qed.

Lemma targets_visited_lookup cfg seg :
  forall base (i : nat) a,
    targets_visited cfg base seg ->
    seg !! i = Some a ->
    defect_detected a = true ->
    exists b e,
      seg !! S i = Some b
      /\ e ∈ base ++ take i seg
      /\ operation_id e <> "OP5"
      /\ operation_id b
         = default (operation_id e) (REWORK_ROUTES cfg !! operation_id e).
Proof.
  induction seg as [|x seg IH]; intros base i a Ht Ha Hdet; [discriminate|].
  destruct Ht as [Hx Ht]. destruct i as [|i]; simpl in Ha.
  - inversion Ha; subst x. specialize (Hx Hdet).
    destruct seg as [|b seg]; [contradiction|].
    destruct Hx as (e & He & Hne & Hb). exists b, e.
    split; [reflexivity|]. rewrite take_0, app_nil_r. auto.
  - destruct (IH _ _ _ Ht Ha Hdet) as (b & e & Hb & He & Hne & Hop).
    exists b, e. split; [exact Hb|]. split; [|auto].
    change (take (S i) (x :: seg)) with (x :: take i seg).
    rewrite <- app_assoc in He. exact He.
Qed.

(** X23 — a detection sends the case back to a stage it has been
    through: the event that detected a defect is never the last of its
    case, and the next event of the case is at the rework target of a
    stage, other than the inspection stage, visited earlier in the
    case. *)
Theorem detection_returns_to_visited_stage `{G : Generators} (cfg : Config)
    (fuel : nat) (num_cases start_date seed : Z) (w : World) (log : list Row)
    (c : string) (i : nat) (a : Event) :
  setups_nonneg cfg ->
  generate_event_log cfg fuel num_cases start_date seed w = Ok log ->
  case_events c (log_events log) !! i = Some a ->
  defect_detected a = true ->
  exists b e,
    case_events c (log_events log) !! S i = Some b
    /\ e ∈ take i (case_events c (log_events log))
    /\ operation_id e <> "OP5"
    /\ operation_id b
       = default (operation_id e) (REWORK_ROUTES cfg !! operation_id e).
Proof.
  intros Hcfg H Ha Hdet.
  assert (HQ : forall cid fuel st c st' c',
     op_idx c = 0 ->
     operation_counts c = initial_counts cfg ->
     defects_by_op c = [] ->
     case_loop cfg cid fuel st c = Ok (st', c') ->
     exists seg,
       events st' = events st ++ seg
       /\ Forall (fun e => case_id e = cid) seg
       /\ targets_visited cfg [] seg).
  { intros cid fuel' st c0 st' c' Hidx _ Hd Hloop.
    destruct (case_loop_targets cfg cid fuel' st c0 st' c' [])
      as (seg & H1 & H2 & H3 & _); [lia| |exact Hloop|].
    - intros k Hk. rewrite Hd in Hk. apply elem_of_nil in Hk. contradiction.
    - exists seg. auto. }
  destruct (generated_cases cfg (fun _ seg => targets_visited cfg [] seg)
              fuel num_cases start_date seed w log c Hcfg HQ H) as [E|Ht].
  - rewrite E in Ha. discriminate.
  - exact (targets_visited_lookup cfg _ [] i a Ht Ha Hdet).
Qed.

Lemma detection_returns_to_visited_stage_witness :
  exists log a,
    setups_nonneg catalog
    /\ @generate_event_log rework_generators catalog 20 1 default_start_date 42
         rework_world = Ok log
    /\ case_events "CASE-0001" (log_events log) !! 4%nat = Some a
    /\ defect_detected a = true
    /\ exists b e,
         case_events "CASE-0001" (log_events log) !! 5%nat = Some b
         /\ e ∈ take 4 (case_events "CASE-0001" (log_events log))
         /\ operation_id e <> "OP5"
         /\ operation_id b
            = default (operation_id e)
                (REWORK_ROUTES catalog !! operation_id e).
Proof.
  eexists. eexists. split; [exact catalog_setups_nonneg|].
  split; [vm_compute; reflexivity|].
  split; [vm_compute; reflexivity|]. split; [vm_compute; reflexivity|].
  eapply (@detection_returns_to_visited_stage rework_generators catalog 20 1
            default_start_date 42 rework_world _ "CASE-0001" 4).
  - exact catalog_setups_nonneg.
  - vm_compute. reflexivity.
  - vm_compute. reflexivity.
  - vm_compute. reflexivity.
Defined.

(** ** Durations are not negative *)

Lemma minutes_between_nonneg a b :
  b <= a -> has_sign false (minutes_between a b).
Proof.
  intros Hab. unfold minutes_between.
  assert (H60 : exists m e, of_Z 60 = S754_finite false m e)
    by (vm_compute; eauto).
  destruct H60 as (m & e & ->). apply fdiv_sign.
  destruct (a - b) as [|p|p] eqn:E; [reflexivity| |lia].
  simpl. apply div_pos_sign; lia.
Qed.

Lemma hours_nonneg x : has_sign false x -> has_sign false (fdiv x (of_Z 60)).
Proof.
  intros Hx.
  assert (H60 : exists m e, of_Z 60 = S754_finite false m e)
    by (vm_compute; eauto).
  destruct H60 as (m & e & ->). apply fdiv_sign. exact Hx.
Qed.

Lemma generated_rows_ordered `{G : Generators} (cfg : Config)
    fuel num_cases start_date seed w log :
  setups_nonneg cfg ->
  generate_event_log cfg fuel num_cases start_date seed w = Ok log ->
  Forall (fun r : Row => timestamp_start r <= timestamp_end r) log.
Proof.
  intros Hcfg H.
  destruct (generated_log_structure cfg Hcfg _ _ _ _ _ _ H)
    as (st & _ & -> & Hmade & _).
  apply Forall_forall. intros r Hr.
  apply list_elem_of_fmap in Hr. destruct Hr as (e & -> & He).
  apply (proj1 (sort_values_elem _ _)) in He.
  rewrite Forall_forall in Hmade. simpl.
  eapply event_made_ordered; eauto.
Qed.

(** X24 — the derived column [duration_minutes] of a generated log is
    the time between the start and the end of the row, in minutes, and
    is never negative (setup times not being negative). *)
Theorem durations_not_negative `{G : Generators} (cfg : Config)
    (fuel : nat) (num_cases start_date seed : Z) (w : World) (log : list Row) :
  setups_nonneg cfg ->
  generate_event_log cfg fuel num_cases start_date seed w = Ok log ->
  Forall (fun r : Row =>
    duration_minutes r
    = minutes_between (timestamp_end r) (timestamp_start r)
    /\ nonneg (duration_minutes r)) log.
Proof.
  intros Hcfg H.
  pose proof (generated_rows_ordered cfg _ _ _ _ _ _ Hcfg H) as Hord.
  destruct (generate_simulate cfg _ _ _ _ _ _ H) as (st & _ & Hlog).
  rewrite Forall_forall in Hord. apply Forall_forall. intros r Hr.
  specialize (Hord r Hr). rewrite Hlog in Hr.
  apply list_elem_of_fmap in Hr. destruct Hr as (e & -> & _).
  simpl in *. split; [reflexivity|].
  apply has_sign_nonneg, minutes_between_nonneg. exact Hord.
Qed.

Lemma durations_not_negative_witness :
  exists log,
    setups_nonneg catalog
    /\ @generate_event_log quiet_generators catalog 6 2 default_start_date 42
         quiet_world = Ok log
    /\ Forall (fun r : Row =>
         duration_minutes r
         = minutes_between (timestamp_end r) (timestamp_start r)
         /\ nonneg (duration_minutes r)) log.
Proof.
  eexists. split; [exact catalog_setups_nonneg|]. split.
  - vm_compute. reflexivity.
  - apply (@durations_not_negative quiet_generators catalog 6 2
             default_start_date 42 quiet_world).
    + exact catalog_setups_nonneg.
    + vm_compute. reflexivity.
Defined.

(** X25 — on a generated log no lead time is negative: every summary
    starts no later than it ends, and its lead time, in minutes and in
    hours, is not below zero (setup times not being negative). *)
Theorem lead_times_not_negative `{G : Generators} (cfg : Config)
    (fuel : nat) (num_cases start_date seed : Z) (w : World) (log : list Row) :
  setups_nonneg cfg ->
  generate_event_log cfg fuel num_cases start_date seed w = Ok log ->
  Forall (fun s =>
    start_time s <= end_time s
    /\ nonneg (lead_time_minutes s)
    /\ nonneg (lead_time_hours s)) (calculate_case_lead_times log).
Proof.
  intros Hcfg H.
  pose proof (generated_rows_ordered cfg _ _ _ _ _ _ Hcfg H) as Hord.
  apply Forall_forall. intros s Hs. unfold calculate_case_lead_times in Hs.
  apply list_elem_of_omap in Hs. destruct Hs as (c & _ & Hagg).
  unfold aggregate in Hagg.
  destruct (group_rows c log) as [|r0 rest] eqn:Eg; [discriminate|].
  inversion Hagg; subst s; clear Hagg.
  cbn [start_time end_time lead_time_minutes lead_time_hours].
  assert (Hr0 : r0 ∈ log).
  { assert (Hin : r0 ∈ group_rows c log) by (rewrite Eg; left).
    unfold group_rows in Hin. apply list_elem_of_filter in Hin. apply Hin. }
  rewrite Forall_forall in Hord. specialize (Hord r0 Hr0).
  destruct (foldl_min_spec (map (fun x : Row => timestamp_start x) rest)
              (timestamp_start r0)) as (Hmin & _ & _).
  destruct (foldl_max_spec (map (fun x : Row => timestamp_end x) rest)
              (timestamp_end r0)) as (Hmax & _ & _).
  assert (Hspan :
    foldl Z.min (timestamp_start r0) (map (fun x : Row => timestamp_start x) rest)
    <= foldl Z.max (timestamp_end r0) (map (fun x : Row => timestamp_end x) rest))
    by lia.
  split; [exact Hspan|].
  pose proof (minutes_between_nonneg _ _ Hspan) as Hm.
  split; apply has_sign_nonneg; [exact Hm|apply hours_nonneg; exact Hm].
Qed.

Lemma lead_times_not_negative_witness :
  exists log,
    setups_nonneg catalog
    /\ @generate_event_log quiet_generators catalog 6 2 default_start_date 42
         quiet_world = Ok log
    /\ Forall (fun s =>
         start_time s <= end_time s
         /\ nonneg (lead_time_minutes s)
         /\ nonneg (lead_time_hours s)) (calculate_case_lead_times log).
Proof.
  eexists. split; [exact catalog_setups_nonneg|]. split.
  - vm_compute. reflexivity.
  - apply (@lead_times_not_negative quiet_generators catalog 6 2
             default_start_date 42 quiet_world).
    + exact catalog_setups_nonneg.
    + vm_compute. reflexivity.
Defined.

(** ** Length of a traversal *)


